(** * BTech shared script (src/pages/script.js): a shallow embedding

    The script is a flat collection of browser helpers.  Each group of
    functions is embedded in a module of its own, over the part of the host
    (document tree, timers, event dispatch, [fetch]) that the group touches:

    - [Js]:       JavaScript values, truthiness, property lookup through
                  [Object.prototype], string conversion, exceptions;
    - [Notify]:   [getNotificationIcon], [getNotificationColor];
    - [Loading]:  [showLoading], [hideLoading];
    - [Api]:      [apiRequest];
    - [Forms]:    [showFormError], [clearFormError], [handleNavbarScroll];
    - [Nav]:      the mobile menu and the dispatch of clicks and key presses;
    - [Overlay]:  [showModal], [showNotification], timers and the event loop;
    - [Wiring]:   [initNavigation], [initMobileMenu] and the menu handlers on
                  a page where [menuToggle] or [navLinks] may be missing;
    - [Reveal]:   [initScrollAnimations] and its observer callback;
    - [Timing]:   [debounce], [throttle];
    - [Validation]: [isValidEmail], [isValidPhone] and their patterns.

    The properties follow the definitions, one module of facts for each of
    these ([NotifyFacts], [LoadingFacts], ...).  Styling constants
    ([style.cssText] blocks, key-frame texts) carry no behaviour and are
    left out of the element records. *)

From stdpp Require Import base option list strings gmap pretty.

Open Scope string_scope.

(** ** JavaScript values *)

Module Js.

(** The values the script manipulates.  [VBuiltin] stands for an object or
    function supplied by the host (for instance [Object.prototype.toString]);
    [VError] for an [Error] instance with its [name] and [message]. *)
#[warnings="-register-all"]
Inductive value :=
  | VUndefined
  | VNull
  | VBool (b : bool)
  | VNum (n : nat)
  | VString (s : string)
  | VBuiltin (name : string)
  | VError (name message : string)
  | VObject (props : gmap string value).

(** The double quote and the line feed, for the markup and template texts of
    the script. *)
Definition dq : string := String (Ascii.ascii_of_nat 34) EmptyString.
Definition nl : string := String (Ascii.ascii_of_nat 10) EmptyString.

(** ECMAScript [ToBoolean]. *)
Definition truthy (v : value) : bool :=
  match v with
  | VUndefined | VNull => false
  | VBool b => b
  | VNum n => negb (Nat.eqb n 0)
  | VString s => negb (String.eqb s "")
  | VBuiltin _ | VError _ _ | VObject _ => true
  end.

(** [a || b] *)
Definition or_else (a b : value) : value := if truthy a then a else b.

(** ECMAScript [ToString], as used by template literals and [setAttribute]. *)
Definition to_string (v : value) : string :=
  match v with
  | VUndefined => "undefined"
  | VNull => "null"
  | VBool true => "true"
  | VBool false => "false"
  | VNum n => pretty n
  | VString s => s
  | VBuiltin name => "function " ++ name ++ "() { [native code] }"
  | VError name message =>
      if String.eqb message "" then name else name ++ ": " ++ message
  | VObject _ => "[object Object]"
  end.

(** The properties every ordinary object inherits from [Object.prototype]
    (ECMAScript 20.1.3 and Annex B.2.2). *)
Definition object_prototype : gmap string value :=
  list_to_map
    [ ("constructor", VBuiltin "Object");
      ("hasOwnProperty", VBuiltin "hasOwnProperty");
      ("isPrototypeOf", VBuiltin "isPrototypeOf");
      ("propertyIsEnumerable", VBuiltin "propertyIsEnumerable");
      ("toLocaleString", VBuiltin "toLocaleString");
      ("toString", VBuiltin "toString");
      ("valueOf", VBuiltin "valueOf");
      ("__proto__", VBuiltin "Object.prototype");
      ("__defineGetter__", VBuiltin "__defineGetter__");
      ("__defineSetter__", VBuiltin "__defineSetter__");
      ("__lookupGetter__", VBuiltin "__lookupGetter__");
      ("__lookupSetter__", VBuiltin "__lookupSetter__") ].

(** [o[key]] for an object literal [o] with own properties [own]: the own
    property if there is one, else the inherited one, else [undefined]. *)
Definition get (own : gmap string value) (key : string) : value :=
  match own !! key with
  | Some v => v
  | None => default VUndefined (object_prototype !! key)
  end.

(** Exceptions raised by the host or the language. *)
Inductive exn :=
  | TypeError (what : string)
  | NotFoundError (what : string).

(** The result of running a piece of code: it returns or throws. *)
Inductive outcome (A : Type) :=
  | Return (a : A)
  | Throw (e : exn).
Arguments Return {A} a.
Arguments Throw {A} e.

End Js.

(** ** Notification severity tables *)

Module Notify.
Import Js.

Definition icons : gmap string value :=
  list_to_map
    [ ("success", VString "fa-check-circle");
      ("error", VString "fa-exclamation-circle");
      ("warning", VString "fa-exclamation-triangle");
      ("info", VString "fa-info-circle") ].

Definition colors : gmap string value :=
  list_to_map
    [ ("success", VString "linear-gradient(90deg, #10b981, #34d399)");
      ("error", VString "linear-gradient(90deg, #ef4444, #f87171)");
      ("warning", VString "linear-gradient(90deg, #f59e0b, #fbbf24)");
      ("info", VString "linear-gradient(90deg, #3b82f6, #60a5fa)") ].

(** [return icons[type] || icons.info;] *)
Definition getNotificationIcon (type : string) : value :=
  or_else (get icons type) (get icons "info").

(** [return colors[type] || colors.info;] *)
Definition getNotificationColor (type : string) : value :=
  or_else (get colors type) (get colors "info").

End Notify.


(** ** Loading state of an element *)

Module Loading.
Import Js.

(** The part of an [HTMLElement] the helpers touch.  [disabled] is a JavaScript
    value: a boolean on form controls, [undefined] on elements that have no
    such property.  Reading [innerHTML] gives back what was assigned. *)
Record element := {
  innerHTML : string;
  disabled : value;
  attributes : gmap string string
}.

Definition spinner (loadingText : string) : string :=
  nl ++ "        <i class=" ++ dq ++ "fas fa-spinner fa-spin" ++ dq
     ++ " style=" ++ dq ++ "margin-right: 0.5rem;" ++ dq ++ "></i>"
     ++ nl ++ "        " ++ loadingText ++ nl ++ "    ".

(** [function showLoading(element, loadingText = 'Loading...')]; a [None]
    element is [null] or [undefined], a [None] text is an omitted argument.
    The result is the element after the call. *)
Definition showLoading (element : option element) (loadingText : option string)
  : option Loading.element :=
  match element with
  | None => None                                  (* if (!element) return; *)
  | Some el =>
      let attrs1 := <["data-original-content" := innerHTML el]> (attributes el) in
      let attrs2 := <["data-original-disabled" := to_string (disabled el)]> attrs1 in
      Some {| innerHTML := spinner (default "Loading..." loadingText);
              disabled := VBool true;
              attributes := attrs2 |}
  end.

(** [function hideLoading(element)] *)
Definition hideLoading (element : option element) : option Loading.element :=
  match element with
  | None => None                                  (* if (!element) return; *)
  | Some el =>
      let originalContent := attributes el !! "data-original-content" in
      let originalDisabled := attributes el !! "data-original-disabled" in
      let el1 :=
        match originalContent with
        | Some c =>
            if truthy (VString c)                 (* if (originalContent) *)
            then {| innerHTML := c; disabled := disabled el;
                    attributes := delete "data-original-content" (attributes el) |}
            else el
        | None => el
        end in
      let el2 :=
        match originalDisabled with
        | Some d =>                               (* if (originalDisabled !== null) *)
            {| innerHTML := innerHTML el1;
               disabled := VBool (String.eqb d "true");
               attributes := delete "data-original-disabled" (attributes el1) |}
        | None => el1
        end in
      Some el2
  end.

(** The empty button: no content, enabled, no attributes. *)
Definition empty_button : element :=
  {| innerHTML := ""; disabled := VBool false; attributes := ∅ |}.

(** A submit button with a label. *)
Definition save_button : element :=
  {| innerHTML := "Save"; disabled := VBool false;
     attributes := {[ "type" := "submit" ]} |}.

End Loading.

(** ** The request wrapper *)

Module Api.
Import Js.

(** What the host's [fetch] does with a request.  A transport failure rejects
    with a [TypeError]; an aborted request rejects with the abort reason of
    the caller's signal, which is any value.  A response carries its status
    and what decoding its body as JSON gives. *)
Inductive json_result :=
  | JsonResolve (data : value)
  | JsonReject (reason : value).

Record response := {
  status : nat;
  json : json_result
}.

(** [response.ok]: the status is in the range 200 to 299. *)
Definition ok (r : response) : bool :=
  Nat.leb 200 (status r) && Nat.leb (status r) 299.

Inductive fetch_result :=
  | FetchResolve (r : response)
  | FetchReject (reason : value).

(** How the promise returned by an [async] function settles. *)
Inductive settled :=
  | Fulfilled (v : value)
  | Rejected (v : value).

(** A run of [apiRequest]: the requests handed to [fetch], what was written
    to [console.error], and how the returned promise settles. *)
Record run := {
  requests : list (string * gmap string value);
  logged : list value;
  result : settled
}.

Definition defaultHeaders : gmap string value :=
  list_to_map
    [ ("Content-Type", VString "application/json");
      ("Accept", VString "application/json") ].

Definition defaultOptions : gmap string value :=
  list_to_map
    [ ("headers", VObject defaultHeaders);
      ("credentials", VString "same-origin") ].

(** [{ ...a, ...b }]: the own properties of [a], overwritten key by key by
    those of [b]. *)
Definition spread (a b : gmap string value) : gmap string value := b ∪ a.

(** [const mergedOptions = { ...defaultOptions, ...options };] with the
    parameter default [options = {}]. *)
Definition mergedOptions (options : option (gmap string value)) : gmap string value :=
  spread defaultOptions (default ∅ options).

(** [error.message]: reading a property of [null] or [undefined] throws. *)
Definition message_of (error : value) : outcome value :=
  match error with
  | VUndefined => Throw (TypeError "Cannot read properties of undefined (reading 'message')")
  | VNull => Throw (TypeError "Cannot read properties of null (reading 'message')")
  | VError _ message => Return (VString message)
  | VObject props => Return (get props "message")
  | VBool _ | VNum _ | VString _ | VBuiltin _ => Return VUndefined
  end.

Definition success_result (data : value) : value :=
  VObject (list_to_map [("success", VBool true); ("data", data)]).

Definition failure_result (error : value) : value :=
  VObject (list_to_map [("success", VBool false); ("error", error)]).

(** The [catch (error)] block. *)
Definition on_error (error : value) : list value * settled :=
  ( [VString "API request failed:"; error],
    match message_of error with
    | Return m => Fulfilled (failure_result (or_else m (VString "Network error occurred")))
    | Throw (TypeError what) | Throw (NotFoundError what) => Rejected (VError "TypeError" what)
    end ).

(** The [try] block: the value it returns, or the value it throws. *)
Definition attempt (fetched : fetch_result) : value + value :=
  match fetched with
  | FetchReject reason => inr reason
  | FetchResolve r =>
      if negb (ok r)
      then inr (VError "Error" ("HTTP error! status: " ++ pretty (status r)))
      else match json r with
           | JsonResolve data => inl (success_result data)
           | JsonReject reason => inr reason
           end
  end.

(** [async function apiRequest(url, options = {})], over the host's [fetch]. *)
Definition apiRequest (fetch : string → gmap string value → fetch_result)
    (url : string) (options : option (gmap string value)) : run :=
  let merged := mergedOptions options in
  match attempt (fetch url merged) with
  | inl v => {| requests := [(url, merged)]; logged := []; result := Fulfilled v |}
  | inr error =>
      let '(log, res) := on_error error in
      {| requests := [(url, merged)]; logged := log; result := res |}
  end.

(** The failures the wrapper is specified for: the transport fails ([fetch]
    rejects with a [TypeError]) or the response has a non-success status. *)
Definition request_fails (fetched : fetch_result) : Prop :=
  (∃ message, fetched = FetchReject (VError "TypeError" message))
  ∨ (∃ r, fetched = FetchResolve r ∧ ok r = false).

Definition request_succeeds (fetched : fetch_result) (data : value) : Prop :=
  ∃ r, fetched = FetchResolve r ∧ ok r = true ∧ json r = JsonResolve data.

(** Hosts for the examples: every request is answered 404, answered 200
    with the body [1], or fails in transport. *)
Definition fetch_404 (_ : string) (_ : gmap string value) : fetch_result :=
  FetchResolve {| status := 404; json := JsonReject (VError "SyntaxError" "Unexpected token") |}.
Definition fetch_200 (_ : string) (_ : gmap string value) : fetch_result :=
  FetchResolve {| status := 200; json := JsonResolve (VNum 1) |}.
Definition fetch_offline (_ : string) (_ : gmap string value) : fetch_result :=
  FetchReject (VError "TypeError" "Failed to fetch").

(** A caller that overrides one header. *)
Definition plain_text_headers : gmap string value :=
  {[ "Content-Type" := VString "text/plain" ]}.
Definition plain_text_options : option (gmap string value) :=
  Some {[ "headers" := VObject plain_text_headers ]}.

End Api.

(** ** Form errors and the navbar scroll handler *)

Module Forms.
Import Js.

(** [DOMTokenList]: a class occurs at most once. *)
Definition classList_add (c : string) (l : list string) : list string :=
  if decide (c ∈ l) then l else (l ++ [c])%list.
Definition classList_remove (c : string) (l : list string) : list string :=
  filter (λ x, x ≠ c) l.
Definition classList_contains (c : string) (l : list string) : bool :=
  bool_decide (c ∈ l).

(** [function handleNavbarScroll()], over the module-level [navbar]
    ([None] when [document.querySelector('.navbar')] found nothing) and
    [window.scrollY]; the result is the navbar's class list afterwards. *)
Definition handleNavbarScroll (navbar : option (list string)) (scrollY : nat)
  : outcome (option (list string)) :=
  match navbar with
  | Some classes =>
      if Nat.ltb 50 scrollY
      then Return (Some (classList_add "scrolled" classes))
      else Return (Some (classList_remove "scrolled" classes))
  | None => Return None
  end.

(** An element next to the input under the same parent. *)
Record sibling := {
  sib_classes : list string;
  sib_icon : option string;
  sib_text : string
}.

(** An input element and, when it is attached, the other descendants of
    its parent in document order. *)
Record input := {
  classList : list string;
  borderColor : string;
  focused : bool;
  parentNode : option (list sibling)
}.

(** [parent.querySelector('.form-error')] followed by [.remove()] when it
    found something: the first match leaves the tree. *)
Fixpoint remove_first_error (sibs : list sibling) : list sibling :=
  match sibs with
  | [] => []
  | s :: rest =>
      if classList_contains "form-error" (sib_classes s) then rest
      else s :: remove_first_error rest
  end.

Definition error_element (message : string) : sibling :=
  {| sib_classes := ["form-error"];
     sib_icon := Some "fas fa-exclamation-circle";
     sib_text := message |}.

(** [function showFormError(input, message)]: the outcome, and the input
    as the call leaves it ([None] is [null]). *)
Definition showFormError (inp : option input) (message : string)
  : outcome unit * option input :=
  match inp with
  | None => (Throw (TypeError "Cannot read properties of null (reading 'parentNode')"), None)
  | Some i =>
      match parentNode i with
      | None =>
          (Throw (TypeError "Cannot read properties of null (reading 'querySelector')"), Some i)
      | Some sibs =>
          (Return (),
           Some {| classList := classList_add "error" (classList i);
                   borderColor := "#ef4444";
                   focused := true;
                   parentNode := Some (remove_first_error sibs ++ [error_element message])%list |})
      end
  end.

(** [function clearFormError(input)] *)
Definition clearFormError (inp : option input) : outcome unit * option input :=
  match inp with
  | None => (Throw (TypeError "Cannot read properties of null (reading 'classList')"), None)
  | Some i =>
      let i1 := {| classList := classList_remove "error" (classList i);
                   borderColor := "";
                   focused := focused i;
                   parentNode := parentNode i |} in
      match parentNode i with
      | None =>
          (Throw (TypeError "Cannot read properties of null (reading 'querySelector')"), Some i1)
      | Some sibs =>
          (Return (),
           Some {| classList := classList i1; borderColor := borderColor i1;
                   focused := focused i1;
                   parentNode := Some (remove_first_error sibs) |})
      end
  end.

(** *** Observations and examples *)

(** The error elements among the siblings. *)
Definition count_errors (sibs : list sibling) : nat :=
  length (filter (λ s, "form-error" ∈ sib_classes s) sibs).

(** An input that already shows an error, and one that does not. *)
Definition email_field : input :=
  {| classList := ["form-control"]; borderColor := "#ccc"; focused := false;
     parentNode := Some [ {| sib_classes := ["form-label"]; sib_icon := None;
                             sib_text := "Email" |};
                          error_element "Required" ] |}.

Definition name_field : input :=
  {| classList := ["form-control"]; borderColor := "#ccc"; focused := false;
     parentNode := Some [ {| sib_classes := ["form-label"]; sib_icon := None;
                             sib_text := "Name" |} ] |}.

End Forms.

(** ** The mobile menu *)

Module Nav.
Import Js Forms.

(** The machine [initMobileMenu] wires, which it does only when both
    [menuToggle] and [navLinks] exist.  Nodes inside the toggle button have
    an identity: assigning [innerHTML] discards the old children and parses
    fresh ones. *)
Record nav := {
  navClasses : list string;     (* navLinks.classList *)
  toggleHTML : string;          (* menuToggle.innerHTML *)
  toggleKids : list nat;        (* the nodes now inside menuToggle *)
  nextNode : nat;               (* identity of the next node created *)
  overflow : string             (* document.body.style.overflow *)
}.

Definition icon_times : string :=
  "<i class=" ++ dq ++ "fas fa-times" ++ dq ++ "></i>".
Definition icon_bars : string :=
  "<i class=" ++ dq ++ "fas fa-bars" ++ dq ++ "></i>".

Definition is_open (s : nav) : bool := classList_contains "active" (navClasses s).

(** [classList.toggle(c)] *)
Definition classList_toggle (c : string) (l : list string) : list string :=
  if classList_contains c l then classList_remove c l else classList_add c l.

(** [menuToggle.innerHTML = html]: one icon element is parsed. *)
Definition set_toggle_html (html : string) (s : nav) : nav :=
  {| navClasses := navClasses s;
     toggleHTML := html;
     toggleKids := [nextNode s];
     nextNode := S (nextNode s);
     overflow := overflow s |}.

Definition set_overflow (v : string) (s : nav) : nav :=
  {| navClasses := navClasses s; toggleHTML := toggleHTML s;
     toggleKids := toggleKids s; nextNode := nextNode s; overflow := v |}.

Definition set_classes (l : list string) (s : nav) : nav :=
  {| navClasses := l; toggleHTML := toggleHTML s;
     toggleKids := toggleKids s; nextNode := nextNode s; overflow := overflow s |}.

(** [function toggleMobileMenu()] *)
Definition toggleMobileMenu (s : nav) : nav :=
  let s1 := set_classes (classList_toggle "active" (navClasses s)) s in
  if is_open s1
  then set_overflow "hidden" (set_toggle_html icon_times s1)
  else set_overflow "" (set_toggle_html icon_bars s1).

(** [function closeMobileMenu()] *)
Definition closeMobileMenu (s : nav) : nav :=
  let s1 := set_classes (classList_remove "active" (navClasses s)) s in
  set_overflow "" (set_toggle_html icon_bars s1).

(** Where a click lands. *)
Inductive target :=
  | OnToggle                      (* the toggle button itself *)
  | InToggle (node : nat)         (* a node inside the toggle button *)
  | InMenu                        (* navLinks or a descendant, no nav-link *)
  | OnNavLink (in_menu : bool)    (* a [.nav-link], inside navLinks or not *)
  | Elsewhere.

(** [navLinks.contains(event.target)] and [menuToggle.contains(event.target)],
    evaluated on the tree as it is when the handler runs. *)
Definition navLinks_contains (t : target) : bool :=
  match t with
  | InMenu => true
  | OnNavLink in_menu => in_menu
  | OnToggle | InToggle _ | Elsewhere => false
  end.

Definition menuToggle_contains (s : nav) (t : target) : bool :=
  match t with
  | OnToggle => true
  | InToggle node => bool_decide (node ∈ toggleKids s)
  | InMenu | OnNavLink _ | Elsewhere => false
  end.

(** [function handleClickOutside(event)] *)
Definition handleClickOutside (t : target) (s : nav) : nav :=
  if is_open s && negb (navLinks_contains t) && negb (menuToggle_contains s t)
  then closeMobileMenu s
  else s.

(** The listener [initNavigation] puts on every [.nav-link]. *)
Definition navLinkClick (s : nav) : nav :=
  if is_open s then closeMobileMenu s else s.

(** The [keydown] listener of [initMobileMenu]. *)
Definition onKeydown (key : string) (s : nav) : nav :=
  if String.eqb key "Escape" && is_open s then closeMobileMenu s else s.

(** Dispatch of a click: the path from the target up to the document is
    fixed when the event is dispatched, and the listeners on it run in
    that order: the listener of the toggle (or of the nav-link) first, the
    document's [handleClickOutside] last.  A node that is not in the
    document receives no click. *)
Definition click (t : target) (s : nav) : nav :=
  match t with
  | OnToggle => handleClickOutside t (toggleMobileMenu s)
  | InToggle node =>
      if bool_decide (node ∈ toggleKids s)
      then handleClickOutside t (toggleMobileMenu s)
      else s
  | OnNavLink _ => handleClickOutside t (navLinkClick s)
  | InMenu | Elsewhere => handleClickOutside t s
  end.

Inductive event :=
  | Click (t : target)
  | Key (key : string).

Definition step (e : event) (s : nav) : nav :=
  match e with
  | Click t => click t s
  | Key key => onKeydown key s
  end.

Definition run (es : list event) (s : nav) : nav := foldl (λ s e, step e s) s es.

(** A page whose menu is closed and whose toggle button holds one icon. *)
Definition closed_page : nav :=
  {| navClasses := ["nav-links"]; toggleHTML := icon_bars;
     toggleKids := [0]; nextNode := 1; overflow := "" |}.

(** The failing input: on a page whose menu is closed, the button is
    clicked twice (opening and closing the menu, which leaves the icon
    written by the script, node 2, in the button), then the icon is
    clicked.  The menu ends closed, scroll restored, the bars icon shown. *)
Definition icon_click_trace : list event :=
  [Click OnToggle; Click OnToggle; Click (InToggle 2)].

(** *** The invariant of the menu *)

(** The page agrees with the menu: the body is kept from scrolling exactly
    while the menu is open, an open menu shows the times icon, and the
    nodes inside the button are older than the next node. *)
Definition in_sync (s : nav) : Prop :=
  overflow s = (if is_open s then "hidden" else "")
  ∧ (is_open s = true → toggleHTML s = icon_times)
  ∧ Forall (λ k, (k < nextNode s)%nat) (toggleKids s).

End Nav.

(** ** Modals, notifications, timers and the event loop *)

Module Overlay.
Import Js.

(** The [options] object of [showModal].  [onClose] is the callback, by
    name, or [None] when the property is absent.  A run of the callback is
    recorded in the world's [closed] log; what the callback itself does is
    the caller's code and has no part in the model. *)
Record options := {
  title : value;
  content : value;
  onClose : option string;
  closeOnOutsideClick : value
}.

(** A modal overlay with what hangs under it. *)
Record modal := {
  m_title : string;               (* modalTitle.textContent *)
  m_body : string;                (* modalBody.innerHTML *)
  m_overlay_animation : string;   (* modalOverlay.style.animation *)
  m_content_animation : string;   (* modalContent.style.animation *)
  m_outside : bool;               (* the overlay has the outside-click listener *)
  m_onClose : option string       (* options.onClose, as the closure holds it *)
}.

Record notification := {
  n_class : string;               (* className *)
  n_html : string;                (* innerHTML *)
  n_background : string;          (* the background of style.cssText *)
  n_animation : string            (* style.animation *)
}.

(** A child of [document.body] created by the script: the modal or the
    notification with that number. *)
Inductive ref :=
  | ModalRef (m : nat)
  | NotifRef (n : nat).

#[export] Instance ref_eq_dec : EqDecision ref.
Proof. solve_decision. Defined.

(** The callbacks the script hands to [setTimeout]. *)
Inductive task :=
  | ModalTeardown (m : nat)       (* closeModal, lines 545-552 *)
  | NotifAuto (n : nat)           (* showNotification, lines 286-291 *)
  | NotifRemove (n : nat).        (* () => notification.remove() *)

#[export] Instance task_eq_dec : EqDecision task.
Proof. solve_decision. Defined.

(** The document and the host state the script acts on.  [modals] and
    [notifs] hold every element ever created (an element outlives its
    removal from the document, the closures keep it); [body] lists the
    children of [document.body] in document order. *)
Record world := {
  modals : list modal;
  notifs : list notification;
  body : list ref;
  styles : list string;           (* style elements appended to document.head *)
  overflow : string;              (* document.body.style.overflow *)
  keydown : list nat;             (* the closeOnEscape listeners on document, by modal *)
  timers : list (nat * task);     (* pending timers with their due time, in firing order *)
  now : nat;                      (* the clock, in milliseconds *)
  closed : list (nat * string);   (* the onClose callbacks invoked, by modal *)
  errors : list (task * exn)      (* exceptions no handler caught, by callback *)
}.

Definition empty_page : world :=
  {| modals := []; notifs := []; body := []; styles := []; overflow := "";
     keydown := []; timers := []; now := 0; closed := []; errors := [] |}.

(** *** Field updates *)

Definition with_modals (v : list modal) (w : world) : world :=
  {| modals := v; notifs := notifs w; body := body w; styles := styles w;
     overflow := overflow w; keydown := keydown w; timers := timers w;
     now := now w; closed := closed w; errors := errors w |}.
Definition with_notifs (v : list notification) (w : world) : world :=
  {| modals := modals w; notifs := v; body := body w; styles := styles w;
     overflow := overflow w; keydown := keydown w; timers := timers w;
     now := now w; closed := closed w; errors := errors w |}.
Definition with_body (v : list ref) (w : world) : world :=
  {| modals := modals w; notifs := notifs w; body := v; styles := styles w;
     overflow := overflow w; keydown := keydown w; timers := timers w;
     now := now w; closed := closed w; errors := errors w |}.
Definition with_styles (v : list string) (w : world) : world :=
  {| modals := modals w; notifs := notifs w; body := body w; styles := v;
     overflow := overflow w; keydown := keydown w; timers := timers w;
     now := now w; closed := closed w; errors := errors w |}.
Definition with_overflow (v : string) (w : world) : world :=
  {| modals := modals w; notifs := notifs w; body := body w; styles := styles w;
     overflow := v; keydown := keydown w; timers := timers w;
     now := now w; closed := closed w; errors := errors w |}.
Definition with_keydown (v : list nat) (w : world) : world :=
  {| modals := modals w; notifs := notifs w; body := body w; styles := styles w;
     overflow := overflow w; keydown := v; timers := timers w;
     now := now w; closed := closed w; errors := errors w |}.
Definition with_timers (v : list (nat * task)) (w : world) : world :=
  {| modals := modals w; notifs := notifs w; body := body w; styles := styles w;
     overflow := overflow w; keydown := keydown w; timers := v;
     now := now w; closed := closed w; errors := errors w |}.
Definition with_now (v : nat) (w : world) : world :=
  {| modals := modals w; notifs := notifs w; body := body w; styles := styles w;
     overflow := overflow w; keydown := keydown w; timers := timers w;
     now := v; closed := closed w; errors := errors w |}.
Definition with_closed (v : list (nat * string)) (w : world) : world :=
  {| modals := modals w; notifs := notifs w; body := body w; styles := styles w;
     overflow := overflow w; keydown := keydown w; timers := timers w;
     now := now w; closed := v; errors := errors w |}.
Definition with_errors (v : list (task * exn)) (w : world) : world :=
  {| modals := modals w; notifs := notifs w; body := body w; styles := styles w;
     overflow := overflow w; keydown := keydown w; timers := timers w;
     now := now w; closed := closed w; errors := v |}.

(** *** Host primitives *)

(** [node.remove()]: the node leaves its parent; nothing happens when it
    has none. *)
Definition remove (r : ref) (w : world) : world :=
  with_body (filter (λ x, x ≠ r) (body w)) w.

(** [document.body.removeChild(node)]: throws when the node is not a child
    of the body. *)
Definition removeChild (r : ref) (w : world) : outcome unit * world :=
  if bool_decide (r ∈ body w)
  then (Return (), remove r w)
  else (Throw (NotFoundError "The node to be removed is not a child of this node."), w).

(** [document.body.appendChild(node)] for a node that has no parent. *)
Definition appendChild (r : ref) (w : world) : world :=
  with_body (body w ++ [r])%list w.

(** [document.head.appendChild(style)] *)
Definition appendStyle (keyframes : string) (w : world) : world :=
  with_styles (styles w ++ [keyframes])%list w.

(** The timer queue: a timer goes behind every pending timer that is due
    no later than itself, so the head of the list fires next. *)
Fixpoint enqueue (t : nat * task) (ts : list (nat * task)) : list (nat * task) :=
  match ts with
  | [] => [t]
  | t' :: rest =>
      if Nat.leb (fst t') (fst t) then t' :: enqueue t rest else t :: t' :: rest
  end.

(** [setTimeout(callback, ms)] *)
Definition setTimeout (callback : task) (ms : nat) (w : world) : world :=
  with_timers (enqueue (now w + ms, callback) (timers w)) w.

Definition is_modal (r : ref) : bool :=
  match r with ModalRef _ => true | NotifRef _ => false end.
Definition is_notif (r : ref) : bool :=
  match r with ModalRef _ => false | NotifRef _ => true end.

(** [document.getElementById('dynamic-modal')]: the first modal overlay in
    document order. *)
Definition getModalById (w : world) : option ref := find is_modal (body w).

(** [document.querySelector('.notification')] *)
Definition queryNotification (w : world) : option ref := find is_notif (body w).

(** *** Modals *)

Definition set_modal_animation (m : nat) (overlay content : string) (w : world) : world :=
  with_modals
    (alter (λ el, {| m_title := m_title el; m_body := m_body el;
                     m_overlay_animation := overlay;
                     m_content_animation := content;
                     m_outside := m_outside el; m_onClose := m_onClose el |}) m (modals w)) w.

(** [function closeModal()] of the modal [m]: no statement of it can throw. *)
Definition closeModal (m : nat) (w : world) : world :=
  let w1 := set_modal_animation m "fadeOut 0.3s ease forwards" "slideDown 0.3s ease forwards" w in
  let w2 := appendStyle "fadeOut slideDown" w1 in
  setTimeout (ModalTeardown m) 300 w2.

(** The callback [closeModal] schedules. *)
Definition modalTeardown (m : nat) (w : world) : outcome unit * world :=
  match removeChild (ModalRef m) w with
  | (Throw e, w1) => (Throw e, w1)
  | (Return _, w1) =>
      let w2 := with_overflow "" w1 in
      match modals w2 !! m ≫= m_onClose with
      | Some callback => (Return (), with_closed (closed w2 ++ [(m, callback)])%list w2)
      | None => (Return (), w2)
      end
  end.

(** [options.closeOnOutsideClick !== false] *)
Definition not_false (v : value) : bool :=
  match v with VBool false => false | _ => true end.

(** The elements [showModal] creates and assembles, as they are when the
    overlay enters the document. *)
Definition modal_of (o : options) : modal :=
  {| m_title := to_string (or_else (title o) (VString "Modal"));
     m_body := to_string (or_else (content o) (VString ""));
     m_overlay_animation := "fadeIn 0.3s ease";
     m_content_animation := "slideUp 0.3s ease";
     m_outside := not_false (closeOnOutsideClick o);
     m_onClose := onClose o |}.

(** [function showModal(options)]: the world after the call and the number
    of the modal the returned handle closes over. *)
Definition showModal (o : options) (w : world) : world * nat :=
  let w1 := match getModalById w with
            | Some existingModal => remove existingModal w
            | None => w
            end in
  let m := length (modals w1) in
  let w2 := with_modals (modals w1 ++ [modal_of o])%list w1 in
  let w3 := appendStyle "fadeIn slideUp" w2 in
  let w4 := appendChild (ModalRef m) w3 in
  let w5 := with_overflow "hidden" w4 in
  let w6 := with_keydown (keydown w5 ++ [m])%list w5 in
  (w6, m).

(** The [closeOnEscape] listener of the modal [m]. *)
Definition closeOnEscape (m : nat) (key : string) (w : world) : world :=
  if String.eqb key "Escape"
  then let w1 := closeModal m w in
       with_keydown (filter (λ x, x ≠ m) (keydown w1)) w1
  else w.

(** The click listener of the overlay, for a click on the backdrop itself
    ([e.target === modalOverlay]). *)
Definition backdropClick (m : nat) (w : world) : world :=
  match modals w !! m with
  | Some el => if m_outside el then closeModal m w else w
  | None => w
  end.

(** [updateContent] of the handle. *)
Definition updateContent (m : nat) (newContent : value) (w : world) : world :=
  with_modals
    (alter (λ el, {| m_title := m_title el; m_body := to_string newContent;
                     m_overlay_animation := m_overlay_animation el;
                     m_content_animation := m_content_animation el;
                     m_outside := m_outside el; m_onClose := m_onClose el |}) m (modals w)) w.

(** *** Notifications *)

Definition set_notif_animation (n : nat) (animation : string) (w : world) : world :=
  with_notifs
    (alter (λ el, {| n_class := n_class el; n_html := n_html el;
                     n_background := n_background el;
                     n_animation := animation |}) n (notifs w)) w.

Definition notification_html (type message : string) : string :=
  nl ++ "        <div class=" ++ dq ++ "notification-content" ++ dq ++ ">"
     ++ nl ++ "            <i class=" ++ dq ++ "fas "
     ++ to_string (Notify.getNotificationIcon type) ++ dq ++ "></i>"
     ++ nl ++ "            <span>" ++ message ++ "</span>"
     ++ nl ++ "        </div>"
     ++ nl ++ "        <button class=" ++ dq ++ "notification-close" ++ dq
     ++ "><i class=" ++ dq ++ "fas fa-times" ++ dq ++ "></i></button>"
     ++ nl ++ "    ".

(** [function showNotification(message, type = 'info', duration = 3000)]:
    the world after the call and the number of the notification. *)
Definition showNotification (message : string) (type : option string)
    (duration : option nat) (w : world) : world * nat :=
  let type := default "info" type in
  let duration := default 3000 duration in
  let w1 := match queryNotification w with
            | Some existingNotification => remove existingNotification w
            | None => w
            end in
  let n := length (notifs w1) in
  let el := {| n_class := "notification notification-" ++ type;
               n_html := notification_html type message;
               n_background := to_string (Notify.getNotificationColor type);
               n_animation := "slideIn 0.3s ease" |} in
  let w2 := with_notifs (notifs w1 ++ [el])%list w1 in
  let w3 := appendStyle "slideIn" w2 in
  let w4 := setTimeout (NotifAuto n) duration w3 in
  (appendChild (NotifRef n) w4, n).

(** The click listener of the notification's close button. *)
Definition notifCloseClick (n : nat) (w : world) : world :=
  let w1 := set_notif_animation n "slideOut 0.3s ease forwards" w in
  setTimeout (NotifRemove n) 300 w1.

(** The automatic dismissal, [setTimeout(() => { if (...) {...} }, duration)]. *)
Definition notifAuto (n : nat) (w : world) : outcome unit * world :=
  if bool_decide (NotifRef n ∈ body w)      (* document.body.contains(notification) *)
  then let w1 := set_notif_animation n "slideOut 0.3s ease forwards" w in
       (Return (), setTimeout (NotifRemove n) 300 w1)
  else (Return (), w).

(** [() => notification.remove()] *)
Definition notifRemove (n : nat) (w : world) : outcome unit * world :=
  (Return (), remove (NotifRef n) w).

(** *** The event loop *)

(** The body of a timer callback. *)
Definition callback (t : task) (w : world) : outcome unit * world :=
  match t with
  | ModalTeardown m => modalTeardown m w
  | NotifAuto n => notifAuto n w
  | NotifRemove n => notifRemove n w
  end.

(** Running a callback from the event loop: an exception it throws is
    reported and goes no further. *)
Definition run_task (t : task) (w : world) : world :=
  match callback t w with
  | (Return _, w1) => w1
  | (Throw e, w1) => with_errors (errors w1 ++ [(t, e)])%list w1
  end.

(** An upper bound on the callbacks a queue can still run: the automatic
    dismissal may schedule one removal, the others schedule nothing. *)
Definition weight (t : nat * task) : nat :=
  match snd t with NotifAuto _ => 2 | _ => 1 end.
Definition budget (ts : list (nat * task)) : nat := sum_list (weight <$> ts).

(** The world in which the head of the queue runs: the timer has left the
    queue and the clock has reached its due time. *)
Definition popped (due : nat) (rest : list (nat * task)) (w : world) : world :=
  with_now (Nat.max (now w) due) (with_timers rest w).

(** Fire, in order, the timers that are due by [target]. *)
Fixpoint run_due (fuel target : nat) (w : world) : world :=
  match fuel with
  | 0 => w
  | S fuel' =>
      match timers w with
      | (due, t) :: rest =>
          if Nat.leb due target
          then run_due fuel' target (run_task t (popped due rest w))
          else w
      | [] => w
      end
  end.

(** [ms] milliseconds pass with no user input. *)
Definition wait (ms : nat) (w : world) : world :=
  let target := now w + ms in
  with_now target (run_due (budget (timers w)) target w).

(** A key press: every [keydown] listener registered when the event is
    dispatched runs, in registration order. *)
Definition keyDown (key : string) (w : world) : world :=
  foldl (λ w m, closeOnEscape m key w) w (keydown w).

(** What the user and the calling code can do.  Handles exist for the
    modals created so far; a button or a backdrop can be clicked while its
    element is in the document. *)
Inductive event :=
  | ShowModal (o : options)
  | HandleClose (m : nat)
  | HandleUpdate (m : nat) (newContent : value)
  | ClickCloseButton (m : nat)
  | ClickBackdrop (m : nat)
  | KeyDown (key : string)
  | ShowNotification (message : string) (type : option string) (duration : option nat)
  | ClickNotifClose (n : nat)
  | Wait (ms : nat).

Definition step (e : event) (w : world) : world :=
  match e with
  | ShowModal o => fst (showModal o w)
  | HandleClose m => if bool_decide (m < length (modals w)) then closeModal m w else w
  | HandleUpdate m c => updateContent m c w
  | ClickCloseButton m => if bool_decide (ModalRef m ∈ body w) then closeModal m w else w
  | ClickBackdrop m => if bool_decide (ModalRef m ∈ body w) then backdropClick m w else w
  | KeyDown key => keyDown key w
  | ShowNotification message type duration => fst (showNotification message type duration w)
  | ClickNotifClose n => if bool_decide (NotifRef n ∈ body w) then notifCloseClick n w else w
  | Wait ms => wait ms w
  end.

Definition run (es : list event) (w : world) : world := foldl (λ w e, step e w) w es.

(** The worlds the script can bring a page to. *)
Inductive reachable : world → Prop :=
  | reachable_start : reachable empty_page
  | reachable_step e w : reachable w → reachable (step e w).

(** *** Observations and invariants *)

(** How often the [onClose] callback of the modal [m] has run. *)
Definition count_closed (m : nat) (w : world) : nat :=
  length (filter (λ c, fst c = m) (closed w)).

(** The modal overlays that are in the document. *)
Definition modals_in_document (w : world) : list ref := filter (λ r, is_modal r = true) (body w).

(** The pending teardowns of the modal [m]. *)
Definition teardowns_pending (m : nat) (w : world) : nat :=
  length (filter (λ t, snd t = ModalTeardown m) (timers w)).

(** The node a callback takes out of the document, if any. *)
Definition removes (t : task) : option ref :=
  match t with
  | ModalTeardown m => Some (ModalRef m)
  | NotifRemove n => Some (NotifRef n)
  | NotifAuto _ => None
  end.

(** The children of the body once the element found by the lookup [f] has
    been removed, as at the start of [showModal] and [showNotification]. *)
Definition body_without (f : ref → bool) (w : world) : list ref :=
  match find f (body w) with
  | Some r => filter (λ x, x ≠ r) (body w)
  | None => body w
  end.

(** The events that dismiss the modal [m] shown with the options [o]: the
    handle, the close button, the escape key, and a click on the backdrop
    when the outside-click listener was installed. *)
Definition dismissal (o : options) (m : nat) (e : event) : Prop :=
  e = HandleClose m ∨ e = ClickCloseButton m ∨ e = KeyDown "Escape"
  ∨ (e = ClickBackdrop m ∧ not_false (closeOnOutsideClick o) = true).

(** Options for the examples: a modal with an [onClose] callback, and one
    without that does not close on an outside click. *)
Definition terms_options : options :=
  {| title := VString "Terms"; content := VString "<p>Please read.</p>";
     onClose := Some "onTermsClosed"; closeOnOutsideClick := VUndefined |}.
Definition plain_options : options :=
  {| title := VUndefined; content := VUndefined;
     onClose := None; closeOnOutsideClick := VBool false |}.

(** A callback is pending and due by [target]. *)
Definition pending (t : task) (target : nat) (w : world) : Prop :=
  ∃ due : nat, (due, t) ∈ timers w ∧ (due ≤ target)%nat.

(** The queue is in firing order. *)
Fixpoint sorted (ts : list (nat * task)) : Prop :=
  match ts with
  | [] => True
  | t :: rest => Forall (λ t', (fst t ≤ fst t')%nat) rest ∧ sorted rest
  end.

(** A modal on its way out: it is still in the document, and a teardown
    for it is pending and due by [deadline]. *)
Definition closing (m : nat) (callback : option string) (deadline : nat) (w : world) : Prop :=
  sorted (timers w) ∧ ModalRef m ∈ body w
  ∧ pending (ModalTeardown m) deadline w
  ∧ modals w !! m ≫= m_onClose = callback ∧ (m < length (modals w))%nat.

Definition modal_ref_below (k : nat) (r : ref) : Prop :=
  match r with ModalRef m => m < k | NotifRef _ => True end.
Definition modal_task_below (k : nat) (t : nat * task) : Prop :=
  match snd t with ModalTeardown m => m < k | _ => True end.
Definition is_teardown (t : task) : Prop :=
  match t with ModalTeardown _ => True | _ => False end.

(** What every reachable world satisfies: the queue is sorted, every modal
    the world mentions has been created, at most one modal overlay is in
    the document, and only modal teardowns have thrown. *)
Record wf (w : world) : Prop := {
  wf_sorted : sorted (timers w);
  wf_body : Forall (modal_ref_below (length (modals w))) (body w);
  wf_timers : Forall (modal_task_below (length (modals w))) (timers w);
  wf_closed : Forall (λ c, fst c < length (modals w)) (closed w);
  wf_keydown : Forall (λ m, m < length (modals w)) (keydown w);
  wf_single : (length (modals_in_document w) ≤ 1)%nat;
  wf_errors : Forall (λ e, is_teardown (fst e)) (errors w)
}.

(** The invariant of the [onClose] log: no callback has run twice, and a
    modal whose callback has run is no longer in the document. *)
Definition closed_once (w : world) : Prop :=
  ∀ m, (count_closed m w ≤ 1)%nat ∧ ((0 < count_closed m w)%nat → ModalRef m ∉ body w).

(** *** Notifications and the scroll lock *)

(** The notifications that are in the document. *)
Definition notifications_in_document (w : world) : list ref :=
  filter (λ r, is_notif r = true) (body w).

(** No pending timer is due before the present. *)
Definition ahead (w : world) : Prop := Forall (λ t, (now w ≤ fst t)%nat) (timers w).

Definition notif_ref_below (k : nat) (r : ref) : Prop :=
  match r with NotifRef n => (n < k)%nat | ModalRef _ => True end.
Definition notif_task_below (k : nat) (t : nat * task) : Prop :=
  match snd t with NotifAuto n | NotifRemove n => (n < k)%nat | ModalTeardown _ => True end.

(** What every reachable world satisfies besides [wf]: no timer is
    overdue, every notification the world mentions has been created, at
    most one notification is in the document, and the body is kept from
    scrolling exactly while a modal overlay is in the document. *)
Record tidy (w : world) : Prop := {
  tidy_ahead : ahead w;
  tidy_body : Forall (notif_ref_below (length (notifs w))) (body w);
  tidy_timers : Forall (notif_task_below (length (notifs w))) (timers w);
  tidy_single : (length (notifications_in_document w) ≤ 1)%nat;
  tidy_overflow : overflow w = if decide (modals_in_document w = []) then "" else "hidden"
}.

End Overlay.


(** ** The wiring done at [DOMContentLoaded], with elements that may be missing *)

Module Wiring.
Import Js Forms.

(** The toggle button: its markup and the nodes inside it. *)
Record button := {
  html : string;
  kids : list nat
}.

(** The page as the listeners see it.  [navLinks] and [menuToggle] are the
    constants the script looks up by id when it is loaded: [None] is the
    [null] that [getElementById] gives for an element that is not there
    (or not yet parsed). *)
Record page := {
  navLinks : option (list string);     (* its classList *)
  menuToggle : option button;
  nextNode : nat;
  overflow : string                    (* document.body.style.overflow *)
}.

Definition set_navLinks (v : option (list string)) (p : page) : page :=
  {| navLinks := v; menuToggle := menuToggle p; nextNode := nextNode p;
     overflow := overflow p |}.
Definition set_overflow (v : string) (p : page) : page :=
  {| navLinks := navLinks p; menuToggle := menuToggle p; nextNode := nextNode p;
     overflow := v |}.

(** [menuToggle.innerHTML = markup] on a button that exists. *)
Definition set_innerHTML (markup : string) (p : page) : page :=
  {| navLinks := navLinks p;
     menuToggle := Some {| html := markup; kids := [nextNode p] |};
     nextNode := S (nextNode p);
     overflow := overflow p |}.

(** [function closeMobileMenu()] *)
Definition closeMobileMenu (p : page) : outcome unit * page :=
  match navLinks p with
  | None => (Throw (TypeError "Cannot read properties of null (reading 'classList')"), p)
  | Some classes =>
      let p1 := set_navLinks (Some (classList_remove "active" classes)) p in
      let p2 := match menuToggle p1 with           (* if (menuToggle) *)
                | Some _ => set_innerHTML Nav.icon_bars p1
                | None => p1
                end in
      (Return (), set_overflow "" p2)
  end.

(** [function toggleMobileMenu()]: the class is toggled before the button
    is touched. *)
Definition toggleMobileMenu (p : page) : outcome unit * page :=
  match navLinks p with
  | None => (Throw (TypeError "Cannot read properties of null (reading 'classList')"), p)
  | Some classes =>
      let classes' := Nav.classList_toggle "active" classes in
      let p1 := set_navLinks (Some classes') p in
      match menuToggle p1 with
      | None => (Throw (TypeError "Cannot set properties of null (setting 'innerHTML')"), p1)
      | Some _ =>
          if classList_contains "active" classes'
          then (Return (), set_overflow "hidden" (set_innerHTML Nav.icon_times p1))
          else (Return (), set_overflow "" (set_innerHTML Nav.icon_bars p1))
      end
  end.

(** [menuToggle.contains(event.target)] on a button that exists. *)
Definition button_contains (b : button) (t : Nav.target) : bool :=
  match t with
  | Nav.OnToggle => true
  | Nav.InToggle node => bool_decide (node ∈ kids b)
  | Nav.InMenu | Nav.OnNavLink _ | Nav.Elsewhere => false
  end.

(** [function handleClickOutside(event)]: the conjuncts are evaluated from
    left to right, and only the first guards against a missing element. *)
Definition handleClickOutside (t : Nav.target) (p : page) : outcome unit * page :=
  match navLinks p with
  | None => (Return (), p)
  | Some classes =>
      if classList_contains "active" classes && negb (Nav.navLinks_contains t)
      then match menuToggle p with
           | None => (Throw (TypeError "Cannot read properties of null (reading 'contains')"), p)
           | Some b => if negb (button_contains b t) then closeMobileMenu p else (Return (), p)
           end
      else (Return (), p)
  end.

(** The listener [initNavigation] puts on every [.nav-link]. *)
Definition navLinkClick (p : page) : outcome unit * page :=
  match navLinks p with
  | None => (Throw (TypeError "Cannot read properties of null (reading 'classList')"), p)
  | Some classes =>
      if classList_contains "active" classes then closeMobileMenu p else (Return (), p)
  end.

(** The [keydown] listener of [initMobileMenu]. *)
Definition onKeydown (key : string) (p : page) : outcome unit * page :=
  if String.eqb key "Escape"
  then match navLinks p with
       | None => (Throw (TypeError "Cannot read properties of null (reading 'classList')"), p)
       | Some classes =>
           if classList_contains "active" classes then closeMobileMenu p else (Return (), p)
       end
  else (Return (), p).

(** The listeners the script has installed. *)
Record listeners := {
  windowScroll : bool;       (* handleNavbarScroll on window *)
  documentClick : bool;      (* handleClickOutside on document *)
  navLinkClicks : bool;      (* the arrow function on every .nav-link *)
  toggleClick : bool;        (* toggleMobileMenu on menuToggle *)
  documentKeydown : bool     (* the escape handler on document *)
}.

Definition no_listeners : listeners :=
  {| windowScroll := false; documentClick := false; navLinkClicks := false;
     toggleClick := false; documentKeydown := false |}.

(** [function initNavigation()] *)
Definition initNavigation (ls : listeners) : listeners :=
  {| windowScroll := true; documentClick := true; navLinkClicks := true;
     toggleClick := toggleClick ls; documentKeydown := documentKeydown ls |}.

(** [function initMobileMenu()] *)
Definition initMobileMenu (p : page) (ls : listeners) : listeners :=
  match menuToggle p, navLinks p with
  | Some _, Some _ =>
      {| windowScroll := windowScroll ls; documentClick := documentClick ls;
         navLinkClicks := navLinkClicks ls; toggleClick := true; documentKeydown := true |}
  | _, _ => ls
  end.

(** The navigation part of the [DOMContentLoaded] listener. *)
Definition onDOMContentLoaded (p : page) : listeners :=
  initMobileMenu p (initNavigation no_listeners).

(** A listener runs if it is installed; an exception it throws is reported
    and the dispatch goes on with the next listener. *)
Definition fire (installed : bool) (listener : page → outcome unit * page)
    (s : page * list exn) : page * list exn :=
  if installed
  then match listener (fst s) with
       | (Return _, p) => (p, snd s)
       | (Throw e, p) => (p, (snd s ++ [e])%list)
       end
  else s.

(** The target of a click is a node of the document. *)
Definition in_document (t : Nav.target) (p : page) : bool :=
  match t with
  | Nav.OnToggle => bool_decide (is_Some (menuToggle p))
  | Nav.InToggle node =>
      match menuToggle p with
      | Some b => bool_decide (node ∈ kids b)
      | None => false
      end
  | Nav.InMenu | Nav.OnNavLink true => bool_decide (is_Some (navLinks p))
  | Nav.OnNavLink false | Nav.Elsewhere => true
  end.

(** Dispatch of a click: the listener of the target first, the document's
    last; the page after the click and the exceptions reported. *)
Definition click (ls : listeners) (t : Nav.target) (p : page) : page * list exn :=
  if in_document t p
  then let s1 := match t with
                 | Nav.OnToggle | Nav.InToggle _ => fire (toggleClick ls) toggleMobileMenu (p, [])
                 | Nav.OnNavLink _ => fire (navLinkClicks ls) navLinkClick (p, [])
                 | Nav.InMenu | Nav.Elsewhere => (p, [])
                 end in
       fire (documentClick ls) (handleClickOutside t) s1
  else (p, []).

Definition step (ls : listeners) (e : Nav.event) (p : page) : page * list exn :=
  match e with
  | Nav.Click t => click ls t p
  | Nav.Key key => fire (documentKeydown ls) (onKeydown key) (p, [])
  end.

(** The page on which both elements exist, in the state [s] of the menu. *)
Definition page_of (s : Nav.nav) : page :=
  {| navLinks := Some (Nav.navClasses s);
     menuToggle := Some {| html := Nav.toggleHTML s; kids := Nav.toggleKids s |};
     nextNode := Nav.nextNode s;
     overflow := Nav.overflow s |}.

(** A page with no toggle button, and one with no menu. *)
Definition without_toggle (classes : list string) (next : nat) (scroll : string) : page :=
  {| navLinks := Some classes; menuToggle := None; nextNode := next; overflow := scroll |}.
Definition without_menu (b : option button) (next : nat) (scroll : string) : page :=
  {| navLinks := None; menuToggle := b; nextNode := next; overflow := scroll |}.

End Wiring.


(** ** Scroll animations *)

Module Reveal.

(** The inline style properties the script writes. *)
Record style := {
  opacity : string;
  transform : string;
  transition : string
}.

(** The [.fade-in] elements in document order, and the targets the
    [IntersectionObserver] of the script observes, by position. *)
Record scene := {
  fadeElements : list style;
  observed : list nat
}.

Definition initial_state (st : style) : style :=
  {| opacity := "0"; transform := "translateY(20px)";
     transition := "opacity 0.6s ease, transform 0.6s ease" |}.

(** [function initScrollAnimations()]: no observer is created on a page
    with no [.fade-in] element. *)
Definition initScrollAnimations (elements : list style) : scene :=
  if Nat.ltb 0 (length elements)
  then {| fadeElements := initial_state <$> elements;
          observed := seq 0 (length elements) |}
  else {| fadeElements := elements; observed := [] |}.

Record entry := {
  target : nat;
  isIntersecting : bool
}.

Definition show (st : style) : style :=
  {| opacity := "1"; transform := "translateY(0)"; transition := transition st |}.

(** The body of [entries.forEach] in the observer's callback. *)
Definition on_entry (s : scene) (e : entry) : scene :=
  if isIntersecting e
  then {| fadeElements := alter show (target e) (fadeElements s);
          observed := filter (λ i, i ≠ target e) (observed s) |}
  else s.

(** The observer's callback, on the entries of one delivery. *)
Definition callback (entries : list entry) (s : scene) : scene :=
  foldl on_entry s entries.

(** The element at position [i] has been reported as intersecting. *)
Definition seen (i : nat) (entries : list entry) : bool :=
  existsb (λ e, Nat.eqb (target e) i && isIntersecting e) entries.

Definition hidden_style : style := initial_state {| opacity := ""; transform := ""; transition := "" |}.
Definition shown_style : style := show hidden_style.

End Reveal.


(** ** [debounce] and [throttle] *)

Module Timing.
Import Js.

(** The queue of the timers one closure has set: a timer goes behind the
    pending timers that are due no later than itself. *)
Fixpoint schedule {T : Type} (t : nat * T) (ts : list (nat * T)) : list (nat * T) :=
  match ts with
  | [] => [t]
  | t' :: rest =>
      if Nat.leb (fst t') (fst t) then t' :: schedule t rest else t :: t' :: rest
  end.

Section Debounce.
Variable A : Type.          (* the arguments of a call *)

(** The function [debounce(func, wait)] returns, with what it closes over:
    the variable [timeout], the timers it has pending, each with its id
    and the arguments its [later] closes over, and the calls of [func]
    made so far, each with the time and the arguments. *)
Record debounced := {
  db_wait : nat;
  db_timeout : option nat;
  db_timers : list (nat * (nat * A));
  db_next : nat;                      (* the id the next [setTimeout] returns *)
  db_now : nat;
  db_calls : list (nat * A)
}.

(** [debounce(func, wait)], created at the time [now]. *)
Definition debounce (wait now : nat) : debounced :=
  {| db_wait := wait; db_timeout := None; db_timers := []; db_next := 1;
     db_now := now; db_calls := [] |}.

(** [clearTimeout(id)]: nothing happens for [undefined] or for a timer
    that is no longer pending. *)
Definition clearTimeout (id : option nat) (ts : list (nat * (nat * A)))
  : list (nat * (nat * A)) :=
  filter (λ t, Some (fst (snd t)) ≠ id) ts.

(** [executedFunction(...args)] *)
Definition executedFunction (args : A) (s : debounced) : debounced :=
  let cleared := clearTimeout (db_timeout s) (db_timers s) in
  {| db_wait := db_wait s;
     db_timeout := Some (db_next s);
     db_timers := schedule (db_now s + db_wait s, (db_next s, args)) cleared;
     db_next := S (db_next s);
     db_now := db_now s;
     db_calls := db_calls s |}.

(** [later], closing over [args]: [clearTimeout(timeout); func(...args);] *)
Definition later (args : A) (s : debounced) : debounced :=
  {| db_wait := db_wait s;
     db_timeout := db_timeout s;
     db_timers := clearTimeout (db_timeout s) (db_timers s);
     db_next := db_next s;
     db_now := db_now s;
     db_calls := (db_calls s ++ [(db_now s, args)])%list |}.

(** Fire, in order, the timers that are due by [target]. *)
Fixpoint db_run_due (fuel target : nat) (s : debounced) : debounced :=
  match fuel with
  | 0 => s
  | S fuel' =>
      match db_timers s with
      | (due, (_, args)) :: rest =>
          if Nat.leb due target
          then db_run_due fuel' target
                 (later args {| db_wait := db_wait s; db_timeout := db_timeout s;
                                db_timers := rest; db_next := db_next s;
                                db_now := Nat.max (db_now s) due;
                                db_calls := db_calls s |})
          else s
      | [] => s
      end
  end.

(** [ms] milliseconds pass. *)
Definition db_wait_for (ms : nat) (s : debounced) : debounced :=
  let s' := db_run_due (length (db_timers s)) (db_now s + ms) s in
  {| db_wait := db_wait s'; db_timeout := db_timeout s'; db_timers := db_timers s';
     db_next := db_next s'; db_now := db_now s + ms; db_calls := db_calls s' |}.

(** A burst: calls, each after a pause since the one before. *)
Definition db_burst (calls : list (nat * A)) (s : debounced) : debounced :=
  foldl (λ s c, executedFunction (snd c) (db_wait_for (fst c) s)) s calls.

(** What a debounced function can get to: it is created, called, and time
    passes. *)
Inductive db_reachable : debounced → Prop :=
  | db_created wait now : db_reachable (debounce wait now)
  | db_called args s : db_reachable s → db_reachable (executedFunction args s)
  | db_waited ms s : db_reachable s → db_reachable (db_wait_for ms s).

(** At most one timer is pending, and [timeout] names it. *)
Definition db_single (s : debounced) : Prop :=
  db_timers s = []
  ∨ ∃ due id args, db_timers s = [(due, (id, args))] ∧ db_timeout s = Some id.

(** A pending timer is never due in the past. *)
Definition db_ahead (s : debounced) : Prop := Forall (λ t, (db_now s ≤ fst t)%nat) (db_timers s).

(** The state right after a call with the arguments [a]: its timer is the
    only one pending, due [wait] ms from now. *)
Definition just_called (a : A) (s : debounced) : Prop :=
  ∃ id, db_timers s = [((db_now s + db_wait s)%nat, (id, a))] ∧ db_timeout s = Some id.

End Debounce.

Section Throttle.
Variable A : Type.
Variable func : A → outcome unit.     (* the throttled function: it returns or throws *)

(** The function [throttle(func, limit)] returns, with what it closes
    over: the variable [inThrottle], the pending timers that reset it, and
    the calls of [func] made so far. *)
Record throttled := {
  th_limit : nat;
  th_inThrottle : bool;
  th_timers : list (nat * unit);
  th_now : nat;
  th_calls : list (nat * A)
}.

(** [throttle(func, limit)], created at the time [now]; [inThrottle] is
    [undefined], which is falsy. *)
Definition throttle (limit now : nat) : throttled :=
  {| th_limit := limit; th_inThrottle := false; th_timers := [];
     th_now := now; th_calls := [] |}.

(** The function [throttle] returns, called with [args]. *)
Definition throttledFunction (args : A) (s : throttled) : outcome unit * throttled :=
  if th_inThrottle s then (Return (), s)
  else
    let s1 := {| th_limit := th_limit s; th_inThrottle := th_inThrottle s;
                 th_timers := th_timers s; th_now := th_now s;
                 th_calls := (th_calls s ++ [(th_now s, args)])%list |} in
    match func args with
    | Throw e => (Throw e, s1)          (* func.apply(this, args) threw *)
    | Return _ =>
        (Return (),
         {| th_limit := th_limit s; th_inThrottle := true;
            th_timers := schedule (th_now s + th_limit s, ()) (th_timers s);
            th_now := th_now s; th_calls := th_calls s1 |})
    end.

(** Fire the timers that are due by [target]: each sets [inThrottle] to
    [false]. *)
Fixpoint th_run_due (target : nat) (ts : list (nat * unit)) (s : throttled) : throttled :=
  match ts with
  | (due, _) :: rest =>
      if Nat.leb due target
      then th_run_due target rest
             {| th_limit := th_limit s; th_inThrottle := false; th_timers := rest;
                th_now := Nat.max (th_now s) due; th_calls := th_calls s |}
      else s
  | [] => s
  end.

Definition th_wait_for (ms : nat) (s : throttled) : throttled :=
  let s' := th_run_due (th_now s + ms) (th_timers s) s in
  {| th_limit := th_limit s'; th_inThrottle := th_inThrottle s';
     th_timers := th_timers s'; th_now := th_now s + ms; th_calls := th_calls s' |}.

Definition th_burst (calls : list (nat * A)) (s : throttled) : throttled :=
  foldl (λ s c, snd (throttledFunction (snd c) (th_wait_for (fst c) s))) s calls.

Inductive th_reachable : throttled → Prop :=
  | th_created limit now : th_reachable (throttle limit now)
  | th_called args s : th_reachable s → th_reachable (snd (throttledFunction args s))
  | th_waited ms s : th_reachable s → th_reachable (th_wait_for ms s).

(** In a log of calls, a call of [func] that returned is followed by the
    next one no sooner than [limit] ms later. *)
Fixpoint spaced (limit : nat) (log : list (nat * A)) : Prop :=
  match log with
  | c1 :: rest =>
      match rest with
      | c2 :: _ => (func (snd c1) = Return () → (fst c1 + limit ≤ fst c2)%nat)
      | [] => True
      end ∧ spaced limit rest
  | [] => True
  end.

(** What the closure keeps true: the log is spaced; after a call of
    [func] that returned, either the throttle is closed and the timer that
    reopens it is pending, due [limit] ms after that call, or it is open
    again and [limit] ms have passed; otherwise it is open. *)
Definition th_inv (s : throttled) : Prop :=
  spaced (th_limit s) (th_calls s)
  ∧ match last (th_calls s) with
    | Some c =>
        match func (snd c) with
        | Return _ =>
            (th_inThrottle s = true ∧ th_timers s = [((fst c + th_limit s)%nat, ())])
            ∨ (th_inThrottle s = false ∧ th_timers s = []
               ∧ (fst c + th_limit s ≤ th_now s)%nat)
        | Throw _ => th_inThrottle s = false ∧ th_timers s = []
        end
    | None => th_inThrottle s = false ∧ th_timers s = []
    end.

End Throttle.

(** A function for the examples: it throws on odd arguments. *)
Definition odd_throws (n : nat) : outcome unit :=
  if Nat.odd n then Throw (TypeError "odd") else Return ().

End Timing.


(** ** Regular expressions and the validators *)

Module Validation.

(** A JavaScript string as the regular expressions of the script see it: a
    sequence of UTF-16 code units. *)
Fixpoint units (s : string) : list N :=
  match s with
  | EmptyString => []
  | String c rest => Ascii.N_of_ascii c :: units rest
  end.

(** The patterns the two validators are written with: a class of code
    units, sequence, alternative and repetition. *)
Inductive regex :=
  | Never
  | Empty
  | Class (p : N → bool)
  | Seq (a b : regex)
  | Alt (a b : regex)
  | Star (a : regex).

(** [r+], [r?], and a single character. *)
Definition plus (r : regex) : regex := Seq r (Star r).
Definition opt (r : regex) : regex := Alt Empty r.
Definition chr (c : N) : regex := Class (N.eqb c).

(** Matching by derivatives: [nullable r] says that [r] matches the empty
    string, [deriv c r] matches what [r] matches after a leading [c]. *)
Fixpoint nullable (r : regex) : bool :=
  match r with
  | Never => false
  | Empty => true
  | Class _ => false
  | Seq a b => nullable a && nullable b
  | Alt a b => nullable a || nullable b
  | Star _ => true
  end.

Fixpoint deriv (c : N) (r : regex) : regex :=
  match r with
  | Never => Never
  | Empty => Never
  | Class p => if p c then Empty else Never
  | Seq a b =>
      if nullable a then Alt (Seq (deriv c a) b) (deriv c b) else Seq (deriv c a) b
  | Alt a b => Alt (deriv c a) (deriv c b)
  | Star a => Seq (deriv c a) (Star a)
  end.

(** [/^r$/.test(s)]: the whole of [s] matches [r]. *)
Fixpoint test (r : regex) (s : list N) : bool :=
  match s with
  | [] => nullable r
  | c :: rest => test (deriv c r) rest
  end.

(** [\s]: the white space and line terminator code units of ECMAScript. *)
Definition is_space (c : N) : bool :=
  bool_decide (c ∈ [9; 10; 11; 12; 13; 32; 160; 5760; 8232; 8233; 8239; 8287; 12288; 65279]%N)
  || (N.leb 8192 c && N.leb c 8202).

Definition at_sign : N := 64.
Definition dot : N := 46.

(** [[^\s@]] *)
Definition plain (c : N) : bool := negb (is_space c) && negb (N.eqb c at_sign).

(** [[0-9]] and [[-\s\.]] *)
Definition is_digit (c : N) : bool := N.leb 48 c && N.leb c 57.
Definition is_separator (c : N) : bool := N.eqb c 45 || is_space c || N.eqb c dot.

(** A sequence of patterns, [r{n}] and [r{n,m}]. *)
Definition sequence (rs : list regex) : regex := foldr Seq Empty rs.
Fixpoint times (n : nat) (r : regex) : regex :=
  match n with
  | 0 => Empty
  | S k => Seq r (times k r)
  end.
Fixpoint upto (n : nat) (r : regex) : regex :=
  match n with
  | 0 => Empty
  | S k => opt (Seq r (upto k r))
  end.
Definition between (n m : nat) (r : regex) : regex := Seq (times n r) (upto (m - n) r).

(** [/^[^\s@]+@[^\s@]+\.[^\s@]+$/] *)
Definition emailRegex : regex :=
  sequence [plus (Class plain); chr at_sign; plus (Class plain); chr dot; plus (Class plain)].

(** [function isValidEmail(email)] *)
Definition isValidEmail (email : list N) : bool := test emailRegex email.

(** [/^[\+]?[(]?[0-9]{3}[)]?[-\s\.]?[0-9]{3}[-\s\.]?[0-9]{4,6}$/] *)
Definition phoneRegex : regex :=
  sequence [opt (chr 43); opt (chr 40); times 3 (Class is_digit); opt (chr 41);
            opt (Class is_separator); times 3 (Class is_digit);
            opt (Class is_separator); between 4 6 (Class is_digit)].

(** [function isValidPhone(phone)] *)
Definition isValidPhone (phone : list N) : bool := test phoneRegex phone.

(** What a pattern matches. *)
Inductive matches : regex → list N → Prop :=
  | m_empty : matches Empty []
  | m_class p c : p c = true → matches (Class p) [c]
  | m_seq a b s1 s2 : matches a s1 → matches b s2 → matches (Seq a b) (s1 ++ s2)
  | m_alt_l a b s : matches a s → matches (Alt a b) s
  | m_alt_r a b s : matches b s → matches (Alt a b) s
  | m_star_nil a : matches (Star a) []
  | m_star_app a s1 s2 : matches a s1 → matches (Star a) s2 → matches (Star a) (s1 ++ s2).

(** *** The shapes the validators accept *)

(** A non-empty run of code units other than white space and the at-sign. *)
Definition plain_part (s : list N) : Prop := s ≠ [] ∧ Forall (λ c, plain c = true) s.

(** A run of [n] to [m] digits, an optional character, an optional separator. *)
Definition digits (n m : nat) (s : list N) : Prop :=
  (n ≤ length s ≤ m)%nat ∧ Forall (λ c, is_digit c = true) s.
Definition optional (c : N) (s : list N) : Prop := s = [] ∨ s = [c].
Definition optional_separator (s : list N) : Prop :=
  s = [] ∨ ∃ c, s = [c] ∧ is_separator c = true.

(** How many digits a string has. *)
Definition count_digits (s : list N) : nat := length (filter (λ c, is_digit c = true) s).

End Validation.

(** * Properties *)

(** ** Severity lookups *)

Module NotifyFacts.
Import Js Notify.

Lemma object_prototype_keys key v :
  object_prototype !! key = Some v →
  key ∈ ["constructor"; "hasOwnProperty"; "isPrototypeOf"; "propertyIsEnumerable";
         "toLocaleString"; "toString"; "valueOf"; "__proto__"; "__defineGetter__";
         "__defineSetter__"; "__lookupGetter__"; "__lookupSetter__"]
  ∧ truthy v = true.
Proof.
  unfold object_prototype. intros H.
  apply elem_of_list_to_map_2 in H.
  repeat (apply elem_of_cons in H as [H|H];
          [ injection H as -> ->; split; [set_solver | reflexivity] | ]).
  by apply elem_of_nil in H.
Qed.

Lemma inherited_is_not_own key v :
  object_prototype !! key = Some v → icons !! key = None ∧ colors !! key = None.
Proof.
  intros H. apply object_prototype_keys in H as [H _].
  repeat (apply elem_of_cons in H as [->|H]; [ split; reflexivity | ]).
  by apply elem_of_nil in H.
Qed.

(** The four severities select their own icon and colour. *)
Lemma severity_lookup_recognised :
  getNotificationIcon "success" = VString "fa-check-circle"
  ∧ getNotificationIcon "error" = VString "fa-exclamation-circle"
  ∧ getNotificationIcon "warning" = VString "fa-exclamation-triangle"
  ∧ getNotificationIcon "info" = VString "fa-info-circle"
  ∧ getNotificationColor "success" = VString "linear-gradient(90deg, #10b981, #34d399)"
  ∧ getNotificationColor "error" = VString "linear-gradient(90deg, #ef4444, #f87171)"
  ∧ getNotificationColor "warning" = VString "linear-gradient(90deg, #f59e0b, #fbbf24)"
  ∧ getNotificationColor "info" = VString "linear-gradient(90deg, #3b82f6, #60a5fa)".
Proof. repeat split; reflexivity. Qed.

(** A string that names neither a severity nor a property of
    [Object.prototype] falls back to the info icon and colour. *)
Lemma severity_lookup_fallback type :
  icons !! type = None → colors !! type = None → object_prototype !! type = None →
  getNotificationIcon type = VString "fa-info-circle"
  ∧ getNotificationColor type = VString "linear-gradient(90deg, #3b82f6, #60a5fa)".
Proof.
  intros Hi Hc Hp. unfold getNotificationIcon, getNotificationColor, get at 1 3.
  rewrite Hi, Hc, Hp. split; reflexivity.
Qed.

(** A string that names a property of [Object.prototype] gets that
    property: the [||] never reaches the info entry. *)
Lemma severity_lookup_inherited key v :
  object_prototype !! key = Some v →
  getNotificationIcon key = v ∧ getNotificationColor key = v.
Proof.
  intros H. destruct (inherited_is_not_own _ _ H) as [Hi Hc].
  destruct (object_prototype_keys _ _ H) as [_ Ht].
  unfold getNotificationIcon, getNotificationColor, get at 1 3, or_else.
  rewrite Hi, Hc, H. simpl. rewrite Ht. done.
Qed.

Lemma own_entries_truthy (table : gmap string value) key v :
  table = icons ∨ table = colors → table !! key = Some v → truthy v = true.
Proof.
  intros [-> | ->] H; apply elem_of_list_to_map_2 in H;
    repeat (apply elem_of_cons in H as [H|H]; [by injection H as -> -> |]);
    by apply elem_of_nil in H.
Qed.

(** X1: both lookups, for every string: the table's own entry if the string
    is one of the four severities; else the property of
    [Object.prototype] of that name if there is one; else the info entry. *)
Theorem severity_lookup_total (type : string) :
  getNotificationIcon type
  = match icons !! type with
    | Some v => v
    | None => default (VString "fa-info-circle") (object_prototype !! type)
    end
  ∧ getNotificationColor type
    = match colors !! type with
      | Some v => v
      | None => default (VString "linear-gradient(90deg, #3b82f6, #60a5fa)")
                  (object_prototype !! type)
      end.
Proof.
  unfold getNotificationIcon, getNotificationColor, get at 1 3, or_else. split.
  - destruct (icons !! type) as [v|] eqn:Hi.
    + by rewrite (own_entries_truthy icons type v (or_introl eq_refl) Hi).
    + destruct (object_prototype !! type) as [v|] eqn:Hp; simpl.
      * destruct (object_prototype_keys _ _ Hp) as [_ ->]. done.
      * reflexivity.
  - destruct (colors !! type) as [v|] eqn:Hi.
    + by rewrite (own_entries_truthy colors type v (or_intror eq_refl) Hi).
    + destruct (object_prototype !! type) as [v|] eqn:Hp; simpl.
      * destruct (object_prototype_keys _ _ Hp) as [_ ->]. done.
      * reflexivity.
Qed.

(** C4, at the input ["constructor"]: the string is none of the four
    severities, and yet neither lookup falls back to the info entry; both
    return the function that every object inherits under that name, and
    [showNotification] writes its source text into the markup. *)
Theorem severity_lookup_constructor :
  getNotificationIcon "constructor" = VBuiltin "Object"
  ∧ getNotificationColor "constructor" = VBuiltin "Object"
  ∧ getNotificationIcon "info" = VString "fa-info-circle"
  ∧ getNotificationColor "info" = VString "linear-gradient(90deg, #3b82f6, #60a5fa)"
  ∧ to_string (getNotificationIcon "constructor") = "function Object() { [native code] }".
Proof. repeat split; reflexivity. Qed.

End NotifyFacts.

(** ** Loading state *)

Module LoadingFacts.
Import Js Loading.

(** X2: for an element with some content and a boolean [disabled], hiding
    the loading state restores both and drops the two attributes. *)
Lemma hideLoading_showLoading_nonempty el text b :
  innerHTML el ≠ "" → disabled el = VBool b →
  hideLoading (showLoading (Some el) text)
  = Some {| innerHTML := innerHTML el; disabled := VBool b;
            attributes := delete "data-original-disabled"
                            (delete "data-original-content" (attributes el)) |}.
Proof.
  intros Hne Hd. unfold showLoading, hideLoading. cbn [attributes innerHTML disabled].
  rewrite (lookup_insert_ne _ "data-original-disabled" "data-original-content")
    by discriminate.
  rewrite !lookup_insert_eq.
  assert (truthy (VString (innerHTML el)) = true) as ->.
  { simpl. destruct (String.eqb_spec (innerHTML el) ""); [done | reflexivity]. }
  cbn [attributes innerHTML disabled]. rewrite Hd. f_equal. f_equal.
  - by destruct b.
  - apply map_eq. intros k.
    destruct (decide (k = "data-original-disabled")) as [->|Hk1];
      [by rewrite !lookup_delete_eq |].
    rewrite !(lookup_delete_ne _ "data-original-disabled") by done.
    destruct (decide (k = "data-original-content")) as [->|Hk2];
      [by rewrite !lookup_delete_eq |].
    rewrite !lookup_delete_ne by done.
    rewrite !lookup_insert_ne by done. done.
Qed.


Lemma hideLoading_showLoading_nonempty_witness :
  hideLoading (showLoading (Some save_button) (Some "Saving..."))
  = Some {| innerHTML := "Save"; disabled := VBool false;
            attributes := delete "data-original-disabled"
                            (delete "data-original-content" {[ "type" := "submit" ]}) |}.
Proof.
  apply (hideLoading_showLoading_nonempty save_button (Some "Saving...") false).
  - discriminate.
  - reflexivity.
Defined.

(** C10, at an element whose [innerHTML] is the empty string: the saved
    content is the empty string, which [if (originalContent)] takes for
    absent; the spinner markup stays and so does the
    [data-original-content] attribute.  Only [disabled] is restored. *)
Theorem hideLoading_showLoading_empty :
  hideLoading (showLoading (Some empty_button) None)
  = Some {| innerHTML := spinner "Loading...";
            disabled := VBool false;
            attributes := {["data-original-content" := ""]} |}
  ∧ innerHTML empty_button = ""
  ∧ String.eqb (spinner "Loading...") "" = false.
Proof. repeat split; reflexivity. Qed.

(** *** Showing and hiding more than once *)

Lemma spinner_truthy t : truthy (VString (spinner t)) = true.
Proof. reflexivity. Qed.


(** X7: [hideLoading] is idempotent: a second call changes nothing, since
    the first has consumed the saved state it acted on; and an element
    with no saved state is returned as it is. *)
Theorem hideLoading_idempotent (el : option element) :
  hideLoading (hideLoading el) = hideLoading el
  ∧ (∀ e, el = Some e →
       attributes e !! "data-original-content" = None →
       attributes e !! "data-original-disabled" = None →
       hideLoading el = el).
Proof.
  split.
  - destruct el as [[html dis attrs]|]; [| done]. unfold hideLoading. cbn [attributes innerHTML disabled].
    destruct (attrs !! "data-original-content") as [c|] eqn:Hc;
      [destruct (truthy (VString c)) eqn:Ht |];
      destruct (attrs !! "data-original-disabled") as [d|] eqn:Hd;
      cbn [attributes innerHTML disabled];
      rewrite ?lookup_delete_eq,
        ?(lookup_delete_ne _ "data-original-disabled" "data-original-content"),
        ?(lookup_delete_ne _ "data-original-content" "data-original-disabled"),
        ?lookup_delete_eq, ?Hc, ?Hd, ?Ht by discriminate;
      cbn [attributes innerHTML disabled]; rewrite ?Hc, ?Hd, ?Ht; try done.
  - intros [html dis attrs] -> Hc Hd. unfold hideLoading. simpl in *. by rewrite Hc, Hd.
Qed.

Lemma hideLoading_idempotent_witness :
  hideLoading (hideLoading (Some save_button)) = hideLoading (Some save_button)
  ∧ hideLoading (Some save_button) = Some save_button.
Proof.
  destruct (hideLoading_idempotent (Some save_button)) as [H1 H2].
  split; [exact H1 | apply (H2 save_button); reflexivity].
Defined.

End LoadingFacts.

(** ** The request wrapper *)

Module ApiFacts.
Import Js Api.

(** What the [catch] block returns for an [Error] instance. *)
Lemma on_error_of_error name message :
  ∃ e, e ≠ "" ∧
    snd (on_error (VError name message)) = Fulfilled (failure_result (VString e)).
Proof.
  unfold on_error, message_of, or_else. simpl.
  destruct (String.eqb_spec message "") as [->|Hne]; simpl.
  - exists "Network error occurred". split; [discriminate | reflexivity].
  - exists message. split; [exact Hne | reflexivity].
Qed.

Lemma apiRequest_result fetch url options :
  result (apiRequest fetch url options)
  = match attempt (fetch url (mergedOptions options)) with
    | inl v => Fulfilled v
    | inr error => snd (on_error error)
    end.
Proof.
  unfold apiRequest. destruct (attempt _) as [v|error]; [reflexivity |].
  destruct (on_error error). reflexivity.
Qed.




Lemma lookup_mergedOptions options key :
  mergedOptions options !! key
  = match default ∅ options !! key with
    | Some v => Some v
    | None => defaultOptions !! key
    end.
Proof.
  unfold mergedOptions, spread. rewrite lookup_union.
  destruct (default ∅ options !! key), (defaultOptions !! key); reflexivity.
Qed.

(** C6, as the code has it: one request is issued, and its options are the
    default options overwritten key by key, at the top level only, by the
    caller's: the request carries the JSON default headers when the caller
    gives no [headers] property, and the caller's [headers] object as it
    is, with no default header added to it, when the caller gives one. *)
Theorem apiRequest_options_shallow_merge
    (fetch : string → gmap string value → fetch_result)
    (url : string) (options : option (gmap string value)) :
  requests (apiRequest fetch url options) = [(url, mergedOptions options)]
  ∧ mergedOptions options !! "headers"
    = Some (default (VObject defaultHeaders) (default ∅ options !! "headers"))
  ∧ mergedOptions options !! "credentials"
    = Some (default (VString "same-origin") (default ∅ options !! "credentials"))
  ∧ ∀ key, mergedOptions options !! key
           = match default ∅ options !! key with
             | Some v => Some v
             | None => defaultOptions !! key
             end.
Proof.
  split; [| split; [| split]].
  - unfold apiRequest. destruct (attempt _); [reflexivity |].
    destruct (on_error _). reflexivity.
  - rewrite lookup_mergedOptions. destruct (default ∅ options !! "headers"); reflexivity.
  - rewrite lookup_mergedOptions. destruct (default ∅ options !! "credentials"); reflexivity.
  - apply lookup_mergedOptions.
Qed.


(** C6 as stated fails: the caller overrides [Content-Type] only, and the
    request goes out without the default [Accept] header. *)
Lemma apiRequest_override_drops_accept :
  (snd <$> head (requests (apiRequest fetch_offline "/api/items" plain_text_options)))
    ≫= (.!! "headers") = Some (VObject plain_text_headers)
  ∧ plain_text_headers !! "Accept" = None
  ∧ defaultHeaders !! "Accept" = Some (VString "application/json").
Proof. repeat split; reflexivity. Qed.

(** *** Every way the request can end *)

Lemma or_else_truthy a b : truthy b = true → truthy (or_else a b) = true.
Proof. intros Hb. unfold or_else. by destruct (truthy a) eqn:Ha. Qed.

(** X8: however the request ends, [apiRequest] hands [fetch] one request
    and its promise settles in one of three ways: fulfilled with a success
    result and nothing logged; fulfilled with a failure result whose
    [error] is truthy, the thrown value logged; or, only when the value
    thrown is [null] or [undefined], rejected with a [TypeError], the
    thrown value logged as well. *)
Theorem apiRequest_outcomes
    (fetch : string → gmap string value → fetch_result)
    (url : string) (options : option (gmap string value)) :
  let r := apiRequest fetch url options in
  requests r = [(url, mergedOptions options)]
  ∧ ((∃ data, request_succeeds (fetch url (mergedOptions options)) data
              ∧ result r = Fulfilled (success_result data) ∧ logged r = [])
     ∨ (∃ thrown e, attempt (fetch url (mergedOptions options)) = inr thrown
              ∧ truthy e = true
              ∧ result r = Fulfilled (failure_result e)
              ∧ logged r = [VString "API request failed:"; thrown])
     ∨ (∃ thrown what, attempt (fetch url (mergedOptions options)) = inr thrown
              ∧ (thrown = VNull ∨ thrown = VUndefined)
              ∧ result r = Rejected (VError "TypeError" what)
              ∧ logged r = [VString "API request failed:"; thrown])).
Proof.
  cbv zeta. unfold apiRequest.
  destruct (attempt (fetch url (mergedOptions options))) as [v|thrown] eqn:Ha.
  - split; [done |]. left. unfold attempt in Ha.
    destruct (fetch url (mergedOptions options)) as [r|reason] eqn:Hf; [| done].
    destruct (ok r) eqn:Hok; [| done]. cbn [negb] in Ha.
    destruct (json r) as [data|] eqn:Hj; [| done].
    exists data. split_and!; [| simpl; congruence | done].
    exists r. done.
  - unfold on_error. split; [done |]. right.
    destruct thrown as [| |b|n|s|name|name message|props]; cbn [message_of];
      try (left; eexists _, _; split_and!; [reflexivity | | reflexivity | reflexivity];
           by apply or_else_truthy);
      right; eexists _, _; split_and!; try reflexivity; auto.
Qed.

End ApiFacts.

(** ** Missing targets *)

Module FormsFacts.
Import Js Forms.

(** C8, as the code has it: the helpers that test their target,
    [showLoading], [hideLoading] and [handleNavbarScroll], return without
    any effect when it is missing; [showFormError] and [clearFormError]
    make no such test and throw a [TypeError] at their first statement. *)
Theorem missing_target_guards (loadingText : option string) (scrollY : nat)
    (message : string) :
  Loading.showLoading None loadingText = None
  ∧ Loading.hideLoading None = None
  ∧ handleNavbarScroll None scrollY = Return None
  ∧ (∃ what, showFormError None message = (Throw (TypeError what), None))
  ∧ (∃ what, clearFormError None = (Throw (TypeError what), None)).
Proof. repeat split; try reflexivity; eexists; reflexivity. Qed.

(** C8 as stated fails: a form-error helper called on [null] throws. *)
Lemma showFormError_null_throws :
  fst (showFormError None "Required")
  = Throw (TypeError "Cannot read properties of null (reading 'parentNode')").
Proof. reflexivity. Qed.

(** *** Form errors and the scroll threshold *)

#[local] Open Scope list_scope.
#[local] Open Scope nat_scope.

Lemma contains_spec c l : classList_contains c l = true ↔ c ∈ l.
Proof. unfold classList_contains. apply bool_decide_eq_true. Qed.

Lemma count_remove_first_error sibs :
  count_errors (remove_first_error sibs) = pred (count_errors sibs).
Proof.
  unfold count_errors. induction sibs as [|s sibs IH]; [done |]. simpl.
  destruct (classList_contains "form-error" (sib_classes s)) eqn:Hc.
  - apply contains_spec in Hc. by rewrite filter_cons_True.
  - assert ("form-error" ∉ sib_classes s) as Hn.
    { intros H. apply contains_spec in H. congruence. }
    rewrite !filter_cons_False by done. exact IH.
Qed.

Lemma remove_first_error_none sibs :
  count_errors sibs = 0 → remove_first_error sibs = sibs.
Proof.
  unfold count_errors. induction sibs as [|s sibs IH]; [done |]. simpl.
  destruct (classList_contains "form-error" (sib_classes s)) eqn:Hc.
  - apply contains_spec in Hc. rewrite filter_cons_True by done. done.
  - assert ("form-error" ∉ sib_classes s) as Hn.
    { intros H. apply contains_spec in H. congruence. }
    rewrite filter_cons_False by done. intros H. by rewrite IH.
Qed.

Lemma remove_first_error_snoc sibs message :
  count_errors sibs = 0 →
  remove_first_error (sibs ++ [error_element message]) = sibs.
Proof.
  unfold count_errors. induction sibs as [|s sibs IH]; [done |]. simpl.
  destruct (classList_contains "form-error" (sib_classes s)) eqn:Hc.
  - apply contains_spec in Hc. rewrite filter_cons_True by done. done.
  - assert ("form-error" ∉ sib_classes s) as Hn.
    { intros H. apply contains_spec in H. congruence. }
    rewrite filter_cons_False by done. intros H. by rewrite IH.
Qed.



Lemma classList_remove_add c l : c ∉ l → classList_remove c (classList_add c l) = l.
Proof.
  intros Hn. unfold classList_add, classList_remove. rewrite decide_False by done.
  rewrite filter_app, filter_cons_False by (intros H; by apply H). simpl.
  rewrite app_nil_r. induction l as [|x l IH]; [done |].
  rewrite filter_cons_True by set_solver. f_equal. apply IH. set_solver.
Qed.



(** X11: after [handleNavbarScroll] the navbar has the class [scrolled]
    exactly when the page is scrolled by more than 50 (at 50 it has not),
    its other classes are untouched, and running the handler again at the
    same offset changes nothing. *)
Theorem handleNavbarScroll_threshold (classes : list string) (scrollY : nat) :
  ∃ classes', handleNavbarScroll (Some classes) scrollY = Return (Some classes')
    ∧ ("scrolled" ∈ classes' ↔ 50 < scrollY)
    ∧ (∀ c, c ≠ "scrolled" → c ∈ classes' ↔ c ∈ classes)
    ∧ handleNavbarScroll (Some classes') scrollY = Return (Some classes').
Proof.
  unfold handleNavbarScroll. destruct (Nat.ltb_spec 50 scrollY) as [Hlt|Hge].
  - eexists. split; [reflexivity |]. split_and!.
    + split; [done |]. intros _. unfold classList_add. case_decide; [done |].
      apply elem_of_app. right. by left.
    + intros c Hc. unfold classList_add. case_decide; [done |].
      rewrite elem_of_app, list_elem_of_singleton. naive_solver.
    + f_equal. f_equal. unfold classList_add at 1. rewrite decide_True; [done |].
      unfold classList_add. case_decide; [done |]. apply elem_of_app. right. by left.
  - eexists. split; [reflexivity |]. split_and!.
    + split; [| lia]. unfold classList_remove. intros [H _]%list_elem_of_filter. done.
    + intros c Hc. unfold classList_remove. rewrite list_elem_of_filter. naive_solver.
    + f_equal. f_equal. unfold classList_remove.
      rewrite list_filter_filter. apply list_filter_iff. naive_solver.
Qed.

End FormsFacts.

(** ** The mobile menu *)

Module NavFacts.
Import Js Forms Nav.

Lemma contains_add c l : classList_contains c (classList_add c l) = true.
Proof.
  unfold classList_contains, classList_add. apply bool_decide_eq_true.
  case_decide; [done |]. apply elem_of_app. right. apply list_elem_of_singleton. done.
Qed.

Lemma contains_remove c l : classList_contains c (classList_remove c l) = false.
Proof.
  unfold classList_contains, classList_remove. apply bool_decide_eq_false.
  intros [H _]%list_elem_of_filter. by apply H.
Qed.

(** The handlers, one by one, are the transitions of the two-state
    machine. *)
Lemma toggleMobileMenu_opens s :
  is_open s = false →
  let s' := toggleMobileMenu s in
  is_open s' = true ∧ overflow s' = "hidden" ∧ toggleHTML s' = icon_times.
Proof.
  intros Hc. unfold toggleMobileMenu, classList_toggle.
  unfold is_open in Hc. rewrite Hc.
  assert (is_open (set_classes (classList_add "active" (navClasses s)) s) = true)
    as -> by apply contains_add.
  repeat split. apply contains_add.
Qed.

Lemma toggleMobileMenu_closes s :
  is_open s = true →
  let s' := toggleMobileMenu s in
  is_open s' = false ∧ overflow s' = "" ∧ toggleHTML s' = icon_bars.
Proof.
  intros Ho. unfold toggleMobileMenu, classList_toggle.
  unfold is_open in Ho. rewrite Ho.
  assert (is_open (set_classes (classList_remove "active" (navClasses s)) s) = false)
    as -> by apply contains_remove.
  repeat split. apply contains_remove.
Qed.

Lemma closeMobileMenu_closes s :
  let s' := closeMobileMenu s in
  is_open s' = false ∧ overflow s' = "" ∧ toggleHTML s' = icon_bars.
Proof. repeat split. apply contains_remove. Qed.

Lemma escape_closes s :
  is_open s = true → onKeydown "Escape" s = closeMobileMenu s.
Proof. intros Ho. unfold onKeydown. rewrite Ho. reflexivity. Qed.

Lemma click_elsewhere_closes s :
  is_open s = true → click Elsewhere s = closeMobileMenu s.
Proof. intros Ho. unfold click, handleClickOutside. rewrite Ho. reflexivity. Qed.

(** A click on the toggle button itself goes through: the document's
    listener finds the target inside the button and leaves the menu as the
    toggle listener set it. *)
Lemma click_on_toggle s : click OnToggle s = toggleMobileMenu s.
Proof.
  unfold click, handleClickOutside. cbn [menuToggle_contains negb].
  rewrite andb_false_r. reflexivity.
Qed.

(** X5: the handlers of the mobile menu, one by one, are the transitions
    of a two-state machine: the toggle flips the state, the others close the
    menu when it is open and do nothing otherwise; entering Open hides the
    page overflow and shows the times icon, entering Closed restores the
    overflow and shows the bars icon; a click on the toggle button itself
    is a toggle. *)
Theorem menu_handlers_are_transitions (s : nav) :
  is_open (toggleMobileMenu s) = negb (is_open s)
  ∧ overflow (toggleMobileMenu s) = (if is_open s then "" else "hidden")
  ∧ toggleHTML (toggleMobileMenu s) = (if is_open s then icon_bars else icon_times)
  ∧ is_open (closeMobileMenu s) = false
  ∧ overflow (closeMobileMenu s) = ""
  ∧ toggleHTML (closeMobileMenu s) = icon_bars
  ∧ onKeydown "Escape" s = (if is_open s then closeMobileMenu s else s)
  ∧ click Elsewhere s = (if is_open s then closeMobileMenu s else s)
  ∧ click InMenu s = s
  ∧ click (OnNavLink true) s = (if is_open s then closeMobileMenu s else s)
  ∧ click OnToggle s = toggleMobileMenu s.
Proof.
  destruct (closeMobileMenu_closes s) as (Hc1 & Hc2 & Hc3).
  assert (click (OnNavLink true) s = (if is_open s then closeMobileMenu s else s)) as Hlink.
  { unfold click, navLinkClick, handleClickOutside.
    destruct (is_open s) eqn:Ho; [by rewrite Hc1 | by rewrite Ho]. }
  assert (click InMenu s = s) as Hmenu.
  { unfold click, handleClickOutside. by destruct (is_open s). }
  assert (click Elsewhere s = (if is_open s then closeMobileMenu s else s)) as Helse.
  { unfold click, handleClickOutside. by destruct (is_open s). }
  assert (onKeydown "Escape" s = (if is_open s then closeMobileMenu s else s)) as Hkey.
  { unfold onKeydown. by destruct (is_open s). }
  pose proof (click_on_toggle s) as Htoggle.
  destruct (is_open s) eqn:Ho.
  - destruct (toggleMobileMenu_closes s Ho) as (H1 & H2 & H3). split_and!; done.
  - destruct (toggleMobileMenu_opens s Ho) as (H1 & H2 & H3). split_and!; done.
Qed.

(** Either branch of the toggle listener writes a new icon. *)
Lemma toggleMobileMenu_kids s : toggleKids (toggleMobileMenu s) = [nextNode s].
Proof. unfold toggleMobileMenu. destruct (is_open _); reflexivity. Qed.

(** C7, for a click that lands on the icon inside the toggle button: the
    menu is closed afterwards, whatever it was before.  From Closed, the
    toggle listener opens the menu and replaces the icon; the click then
    reaches [handleClickOutside] with a target that is no longer inside the
    button, and the menu is closed again. *)
Theorem click_on_icon_leaves_menu_closed (s : nav) (node : nat) :
  node ∈ toggleKids s → node < nextNode s →
  is_open (click (InToggle node) s) = false.
Proof.
  intros Hin Hlt. unfold click. rewrite bool_decide_eq_true_2 by exact Hin.
  destruct (is_open s) eqn:Ho.
  - destruct (toggleMobileMenu_closes s Ho) as (Hc & _ & _).
    unfold handleClickOutside. rewrite Hc. exact Hc.
  - destruct (toggleMobileMenu_opens s Ho) as (Hop & _ & _).
    unfold handleClickOutside. rewrite Hop. cbn [navLinks_contains negb andb].
    assert (menuToggle_contains (toggleMobileMenu s) (InToggle node) = false) as ->.
    { unfold menuToggle_contains. apply bool_decide_eq_false.
      rewrite toggleMobileMenu_kids. intros ->%list_elem_of_singleton. lia. }
    apply closeMobileMenu_closes.
Qed.


Lemma click_on_icon_leaves_menu_closed_witness :
  is_open (run [Click OnToggle; Click OnToggle] closed_page) = false
  ∧ is_open (click (InToggle 2) (run [Click OnToggle; Click OnToggle] closed_page)) = false
  ∧ run icon_click_trace closed_page
    = {| navClasses := ["nav-links"]; toggleHTML := icon_bars;
         toggleKids := [4]; nextNode := 5; overflow := "" |}.
Proof.
  split; [reflexivity |]. split; [| reflexivity].
  apply (click_on_icon_leaves_menu_closed
           (run [Click OnToggle; Click OnToggle] closed_page) 2).
  - vm_compute. apply list_elem_of_here.
  - vm_compute. lia.
Defined.

(** *** The menu over a run of events *)

#[local] Open Scope list_scope.
#[local] Open Scope nat_scope.

Lemma in_sync_closeMobileMenu s : in_sync (closeMobileMenu s).
Proof.
  destruct (closeMobileMenu_closes s) as (Hc & Ho & Hh). unfold in_sync.
  rewrite Hc, Ho. split_and!; [done | done |].
  simpl. constructor; [lia | constructor].
Qed.

Lemma in_sync_toggleMobileMenu s : in_sync (toggleMobileMenu s).
Proof.
  unfold in_sync. rewrite toggleMobileMenu_kids.
  assert (nextNode (toggleMobileMenu s) = S (nextNode s)) as ->.
  { unfold toggleMobileMenu. by destruct (is_open _). }
  destruct (is_open s) eqn:Ho.
  - destruct (toggleMobileMenu_closes s Ho) as (-> & -> & _).
    split_and!; [done | done |]. constructor; [lia | constructor].
  - destruct (toggleMobileMenu_opens s Ho) as (-> & -> & ->).
    split_and!; [done | done |]. constructor; [lia | constructor].
Qed.

Lemma in_sync_handleClickOutside t s : in_sync s → in_sync (handleClickOutside t s).
Proof.
  intros H. unfold handleClickOutside.
  destruct (_ && _); [apply in_sync_closeMobileMenu | done].
Qed.

Lemma in_sync_step e s : in_sync s → in_sync (step e s).
Proof.
  intros H. destruct e as [t|key]; simpl.
  - unfold click. destruct t as [|node| |in_menu|].
    + apply in_sync_handleClickOutside, in_sync_toggleMobileMenu.
    + case_bool_decide; [| done].
      apply in_sync_handleClickOutside, in_sync_toggleMobileMenu.
    + by apply in_sync_handleClickOutside.
    + apply in_sync_handleClickOutside. unfold navLinkClick.
      destruct (is_open s); [apply in_sync_closeMobileMenu | done].
    + by apply in_sync_handleClickOutside.
  - unfold onKeydown. destruct (_ && _); [apply in_sync_closeMobileMenu | done].
Qed.

(** X12: whatever is clicked and whatever keys are pressed, a page that
    agrees with its menu keeps agreeing: scrolling is blocked exactly
    while the menu is open, and an open menu shows the times icon. *)
Theorem menu_stays_in_sync (es : list event) (s : nav) :
  in_sync s → in_sync (run es s).
Proof.
  revert s. induction es as [|e es IH]; intros s H; [done |].
  simpl. by apply IH, in_sync_step.
Qed.

Lemma menu_stays_in_sync_witness :
  in_sync (run icon_click_trace closed_page).
Proof.
  apply (menu_stays_in_sync icon_click_trace closed_page).
  unfold in_sync. simpl. split_and!; [done | done |].
  constructor; [lia | constructor].
Defined.

End NavFacts.

(** ** Modals, notifications and the event loop *)

Module OverlayFacts.
Import Js Overlay.
#[local] Open Scope nat_scope.

(** *** The timer queue *)

Lemma elem_of_enqueue (t x : nat * task) ts :
  x ∈ enqueue t ts ↔ x = t ∨ x ∈ ts.
Proof.
  induction ts as [|t' rest IH]; simpl.
  - rewrite list_elem_of_singleton, elem_of_nil. tauto.
  - destruct (Nat.leb _ _); rewrite !elem_of_cons; [rewrite IH |]; tauto.
Qed.

Lemma Forall_enqueue (P : nat * task → Prop) t ts :
  Forall P (enqueue t ts) ↔ P t ∧ Forall P ts.
Proof.
  rewrite !Forall_forall. split.
  - intros H. split; [apply H | intros x Hx; apply H]; apply elem_of_enqueue; auto.
  - intros [Ht H] x [->|Hx]%elem_of_enqueue; auto.
Qed.

Lemma sorted_enqueue t ts : sorted ts → sorted (enqueue t ts).
Proof.
  induction ts as [|t' rest IH]; simpl; [done |].
  intros [Hall Hs]. destruct (Nat.leb_spec (fst t') (fst t)) as [Hle|Hlt]; simpl.
  - split; [| by apply IH]. apply Forall_enqueue. done.
  - split; [| done]. constructor; [lia |].
    eapply Forall_impl; [exact Hall |]. simpl. intros; lia.
Qed.

Lemma budget_cons t ts : budget (t :: ts) = weight t + budget ts.
Proof. reflexivity. Qed.

Lemma budget_enqueue t ts : budget (enqueue t ts) = weight t + budget ts.
Proof.
  induction ts as [|t' rest IH]; [reflexivity |]. cbn [enqueue].
  destruct (Nat.leb _ _); rewrite !budget_cons; [rewrite IH |]; lia.
Qed.

Lemma weight_pos t : 1 ≤ weight t.
Proof. unfold weight. destruct (snd t); lia. Qed.

Lemma budget_nil ts : budget ts = 0 → ts = [].
Proof.
  destruct ts as [|t rest]; [done |]. rewrite budget_cons.
  pose proof (weight_pos t). lia.
Qed.

(** *** One callback *)

Lemma run_due_S fuel target w :
  run_due (S fuel) target w
  = match timers w with
    | (due, t) :: rest =>
        if Nat.leb due target
        then run_due fuel target (run_task t (popped due rest w))
        else w
    | [] => w
    end.
Proof. reflexivity. Qed.

(** A callback leaves the queue as it is, but for the automatic dismissal,
    which may add the removal. *)
Lemma timers_run_task t w :
  timers (run_task t w) = timers w
  ∨ ∃ n, t = NotifAuto n ∧
      timers (run_task t w) = enqueue (now w + 300, NotifRemove n) (timers w).
Proof.
  unfold run_task. destruct t as [m|n|n]; simpl.
  - left. unfold modalTeardown, removeChild. case_bool_decide; simpl; [| done].
    destruct (_ ≫= _); done.
  - unfold notifAuto. case_bool_decide; simpl; [| by left]. right. by exists n.
  - by left.
Qed.

Lemma sorted_run_task t w : sorted (timers w) → sorted (timers (run_task t w)).
Proof.
  intros Hs. destruct (timers_run_task t w) as [-> | (n & _ & ->)]; [done |].
  by apply sorted_enqueue.
Qed.

Lemma budget_run_task due t rest w :
  budget (timers (run_task t (popped due rest w))) < budget ((due, t) :: rest).
Proof.
  destruct (timers_run_task t (popped due rest w)) as [-> | (n & -> & ->)].
  - rewrite budget_cons. pose proof (weight_pos (due, t)). simpl. lia.
  - rewrite budget_enqueue, budget_cons. unfold weight. simpl. lia.
Qed.

(** Induction over the callbacks a wait runs. *)
Lemma run_due_ind (P : world → Prop) :
  (∀ w due t rest, timers w = (due, t) :: rest → P w →
     P (run_task t (popped due rest w))) →
  ∀ fuel target w, P w → P (run_due fuel target w).
Proof.
  intros Hstep fuel target. induction fuel as [|fuel IH]; intros w HP; [done |].
  rewrite run_due_S. destruct (timers w) as [|[due t] rest] eqn:Ht; [done |].
  destruct (Nat.leb due target); [| done]. apply IH. by eapply Hstep.
Qed.

(** With the budget of the queue as fuel, a wait runs every callback that
    is due. *)
Lemma run_due_drained fuel target w :
  sorted (timers w) → budget (timers w) ≤ fuel →
  Forall (λ t, target < fst t) (timers (run_due fuel target w)).
Proof.
  revert w. induction fuel as [|fuel IH]; intros w Hs Hb.
  - simpl. rewrite (budget_nil (timers w)) by lia. constructor.
  - rewrite run_due_S. destruct (timers w) as [|[due t] rest] eqn:Ht; [by rewrite Ht |].
    destruct (Nat.leb_spec due target) as [Hle|Hlt].
    + apply IH.
      * apply sorted_run_task. simpl. by destruct Hs.
      * pose proof (budget_run_task due t rest w). lia.
    + rewrite Ht. destruct Hs as [Hall Hs]. constructor; [simpl; lia |].
      eapply Forall_impl; [exact Hall |]. simpl. intros; lia.
Qed.

(** *** What a callback does to each part of the world *)

Lemma filter_absent (r : ref) (l : list ref) : r ∉ l → filter (λ x, x ≠ r) l = l.
Proof.
  induction l as [|x l IH]; [done |]. intros Hn.
  rewrite filter_cons_True by (intros ->; apply Hn; left).
  f_equal. apply IH. intros H. apply Hn. by right.
Qed.

Lemma body_run_task t w :
  body (run_task t w)
  = match removes t with
    | Some r => filter (λ x, x ≠ r) (body w)
    | None => body w
    end.
Proof.
  unfold run_task. destruct t as [m|n|n]; simpl.
  - unfold modalTeardown, removeChild. case_bool_decide; simpl.
    + destruct (_ ≫= _); done.
    + by rewrite filter_absent.
  - unfold notifAuto. case_bool_decide; done.
  - done.
Qed.

Lemma body_run_task_subseteq t w r : r ∈ body (run_task t w) → r ∈ body w.
Proof.
  rewrite body_run_task. destruct (removes t); [| done].
  by intros [_ H]%list_elem_of_filter.
Qed.

Lemma body_run_task_other t w r :
  removes t ≠ Some r → r ∈ body w → r ∈ body (run_task t w).
Proof.
  intros Hne Hin. rewrite body_run_task. destruct (removes t) as [r'|]; [| done].
  apply list_elem_of_filter. split; [| done]. congruence.
Qed.

Lemma modals_run_task t w : modals (run_task t w) = modals w.
Proof.
  unfold run_task. destruct t as [m|n|n]; simpl; [| | done].
  - unfold modalTeardown, removeChild. case_bool_decide; simpl; [| done].
    destruct (_ ≫= _); done.
  - unfold notifAuto. case_bool_decide; done.
Qed.

Lemma keydown_run_task t w : keydown (run_task t w) = keydown w.
Proof.
  unfold run_task. destruct t as [m|n|n]; simpl; [| | done].
  - unfold modalTeardown, removeChild. case_bool_decide; simpl; [| done].
    destruct (_ ≫= _); done.
  - unfold notifAuto. case_bool_decide; done.
Qed.

Lemma closed_run_task t w :
  closed (run_task t w)
  = match t with
    | ModalTeardown m =>
        if bool_decide (ModalRef m ∈ body w)
        then match modals w !! m ≫= m_onClose with
             | Some callback => (closed w ++ [(m, callback)])%list
             | None => closed w
             end
        else closed w
    | _ => closed w
    end.
Proof.
  unfold run_task. destruct t as [m|n|n]; simpl; [| | done].
  - unfold modalTeardown, removeChild. case_bool_decide; simpl; [| done].
    destruct (_ ≫= _); done.
  - unfold notifAuto. case_bool_decide; done.
Qed.

Lemma errors_run_task t w :
  errors (run_task t w) = errors w
  ∨ ∃ e, is_teardown t ∧ errors (run_task t w) = (errors w ++ [(t, e)])%list.
Proof.
  unfold run_task. destruct t as [m|n|n]; simpl; [| | by left].
  - unfold modalTeardown, removeChild. case_bool_decide; simpl.
    + left. destruct (_ ≫= _); done.
    + right. eexists. split; done.
  - left. unfold notifAuto. case_bool_decide; done.
Qed.

Lemma count_closed_run_task m t w :
  count_closed m (run_task t w)
  = count_closed m w
    + (if decide (t = ModalTeardown m) then
         if bool_decide (ModalRef m ∈ body w) then
           match modals w !! m ≫= m_onClose with Some _ => 1 | None => 0 end
         else 0
       else 0).
Proof.
  unfold count_closed. rewrite closed_run_task.
  destruct t as [m'|n|n]; [| by rewrite decide_False by done; lia ..].
  destruct (decide (m' = m)) as [->|Hne].
  - rewrite decide_True by done. case_bool_decide; [| lia].
    destruct (_ ≫= _); [| lia].
    rewrite filter_app, length_app. f_equal.
    rewrite filter_singleton_True; [done | exact [] | done].
  - rewrite decide_False by congruence.
    case_bool_decide; [| lia]. destruct (_ ≫= _); [| lia].
    rewrite filter_app, length_app.
    rewrite filter_singleton_False; [simpl; lia | exact [] | simpl; congruence].
Qed.

(** *** What a wait does *)

Lemma gone_stays_gone r fuel target w :
  r ∉ body w → r ∉ body (run_due fuel target w).
Proof.
  apply (run_due_ind (λ w, r ∉ body w)).
  intros w' due t rest _ Hn Hin. apply body_run_task_subseteq in Hin. done.
Qed.

Lemma closed_after_gone m fuel target w :
  ModalRef m ∉ body w → count_closed m (run_due fuel target w) = count_closed m w.
Proof.
  intros Hn.
  cut ((ModalRef m ∉ body (run_due fuel target w))
       ∧ count_closed m (run_due fuel target w) = count_closed m w); [tauto |].
  apply (run_due_ind (λ w', (ModalRef m ∉ body w') ∧ count_closed m w' = count_closed m w));
    [| done].
  intros w' due t rest _ [Hn' Hc]. split.
  - intros Hin. apply body_run_task_subseteq in Hin. done.
  - rewrite count_closed_run_task. simpl body.
    rewrite (bool_decide_eq_false_2 _ Hn').
    change (count_closed m (popped due rest w')) with (count_closed m w').
    case_decide; lia.
Qed.

Lemma pending_head t target due t' rest :
  sorted ((due, t') :: rest) →
  (∃ d : nat, (d, t) ∈ (due, t') :: rest ∧ d ≤ target) → due ≤ target.
Proof.
  intros [Hall _] (d & Hin & Hle). apply elem_of_cons in Hin as [Heq|Hin].
  - injection Heq as -> _. done.
  - rewrite Forall_forall in Hall. specialize (Hall _ Hin). simpl in Hall. lia.
Qed.

Lemma pending_after t target due t' rest w :
  timers w = (due, t') :: rest → t ≠ t' →
  pending t target w → pending t target (run_task t' (popped due rest w)).
Proof.
  intros Ht Hne (d & Hin & Hle). exists d. split; [| done].
  rewrite Ht in Hin. apply elem_of_cons in Hin as [Heq|Hin]; [congruence |].
  destruct (timers_run_task t' (popped due rest w)) as [-> | (n & _ & ->)]; [done |].
  apply elem_of_enqueue. by right.
Qed.

(** A pending teardown of a modal that is in the document takes it out and
    runs its [onClose], once, however many teardowns are pending. *)
Lemma teardown_runs m el fuel target w :
  sorted (timers w) → budget (timers w) ≤ fuel →
  ModalRef m ∈ body w → pending (ModalTeardown m) target w →
  modals w !! m = Some el →
  (ModalRef m ∉ body (run_due fuel target w))
  ∧ count_closed m (run_due fuel target w)
    = count_closed m w + match m_onClose el with Some _ => 1 | None => 0 end.
Proof.
  revert w. induction fuel as [|fuel IH]; intros w Hs Hb Hin Hp Hel.
  - destruct Hp as (d & Hd & _). rewrite (budget_nil (timers w)) in Hd by lia.
    by apply elem_of_nil in Hd.
  - rewrite run_due_S. destruct (timers w) as [|[due t] rest] eqn:Ht.
    { destruct Hp as (d & Hd & _). rewrite Ht in Hd. by apply elem_of_nil in Hd. }
    assert (due ≤ target) as Hdue.
    { unfold pending in Hp. rewrite Ht in Hp. by eapply pending_head. }
    rewrite (proj2 (Nat.leb_le _ _) Hdue).
    set (w1 := run_task t (popped due rest w)).
    assert (count_closed m w1
            = count_closed m w
              + (if decide (t = ModalTeardown m)
                 then match m_onClose el with Some _ => 1 | None => 0 end else 0)) as Hc.
    { unfold w1. rewrite count_closed_run_task. simpl body. simpl modals.
      rewrite (bool_decide_eq_true_2 _ Hin), Hel. simpl.
      change (count_closed m (popped due rest w)) with (count_closed m w).
      case_decide; [| done]. by destruct (m_onClose el). }
    destruct (decide (t = ModalTeardown m)) as [->|Hne].
    + assert (ModalRef m ∉ body w1) as Hgone.
      { unfold w1. rewrite body_run_task. simpl.
        intros [H _]%list_elem_of_filter. done. }
      split; [by apply gone_stays_gone |].
      rewrite closed_after_gone by done. exact Hc.
    + assert (budget (timers w1) ≤ fuel).
      { pose proof (budget_run_task due t rest w). fold w1 in H. lia. }
      destruct (IH w1) as [Hg Hc']; try done.
      * apply sorted_run_task. simpl. by destruct Hs.
      * apply body_run_task_other; [| done]. destruct t; simpl; congruence.
      * apply pending_after; [done | congruence | done].
      * unfold w1. by rewrite modals_run_task.
      * split; [done |]. rewrite Hc', Hc. lia.
Qed.

(** A pending removal of a notification takes it out of the document. *)
Lemma removal_runs n fuel target w :
  sorted (timers w) → budget (timers w) ≤ fuel →
  pending (NotifRemove n) target w →
  NotifRef n ∉ body (run_due fuel target w).
Proof.
  revert w. induction fuel as [|fuel IH]; intros w Hs Hb Hp.
  - destruct Hp as (d & Hd & _). rewrite (budget_nil (timers w)) in Hd by lia.
    by apply elem_of_nil in Hd.
  - rewrite run_due_S. destruct (timers w) as [|[due t] rest] eqn:Ht.
    { destruct Hp as (d & Hd & _). rewrite Ht in Hd. by apply elem_of_nil in Hd. }
    assert (due ≤ target) as Hdue.
    { unfold pending in Hp. rewrite Ht in Hp. by eapply pending_head. }
    rewrite (proj2 (Nat.leb_le _ _) Hdue).
    destruct (decide (t = NotifRemove n)) as [->|Hne].
    + apply gone_stays_gone. rewrite body_run_task. simpl.
      intros [H _]%list_elem_of_filter. done.
    + apply IH.
      * apply sorted_run_task. simpl. by destruct Hs.
      * pose proof (budget_run_task due t rest w). lia.
      * apply pending_after; [done | congruence | done].
Qed.

(** *** The invariant *)

Lemma length_filter_filter {A} (P Q : A → Prop)
    `{∀ x, Decision (P x)} `{∀ x, Decision (Q x)} (l : list A) :
  length (filter P (filter Q l)) ≤ length (filter P l).
Proof.
  induction l as [|x l IH]; [done |].
  destruct (decide (Q x)); [rewrite (filter_cons_True Q) by done
                           | rewrite (filter_cons_False Q) by done].
  - destruct (decide (P x)); [rewrite !(filter_cons_True P) by done
                             | rewrite !(filter_cons_False P) by done]; simpl; lia.
  - destruct (decide (P x)); [rewrite !(filter_cons_True P) by done
                             | rewrite !(filter_cons_False P) by done]; simpl; lia.
Qed.

Lemma sorted_tail t ts : sorted (t :: ts) → sorted ts.
Proof. by intros [_ H]. Qed.

(** The fields a step leaves alone are dealt with by computation. *)
Ltac wf_fields H :=
  destruct H as [Hsorted Hbody Htimers Hclosed Hkeydown Hsingle Herrors];
  constructor; simpl.

Lemma wf_with_now v w : wf w → wf (with_now v w).
Proof. intros H. wf_fields H; done. Qed.

Lemma wf_popped due t rest w :
  wf w → timers w = (due, t) :: rest → wf (popped due rest w).
Proof.
  intros H Ht. wf_fields H; try done.
  - rewrite Ht in Hsorted. by eapply sorted_tail.
  - rewrite Ht in Htimers. by apply Forall_cons in Htimers as [_ ?].
Qed.

Lemma wf_run_task t w : wf w → wf (run_task t w).
Proof.
  intros H. pose proof H as [Hsorted Hbody Htimers Hclosed Hkeydown Hsingle Herrors].
  constructor; rewrite ?modals_run_task, ?keydown_run_task; try done.
  - by apply sorted_run_task.
  - rewrite Forall_forall in Hbody |- *. intros r Hr. apply Hbody.
    by eapply body_run_task_subseteq.
  - destruct (timers_run_task t w) as [-> | (n & _ & ->)]; [done |].
    apply Forall_enqueue. split; [exact I | done].
  - rewrite closed_run_task. destruct t as [m| |]; try done.
    case_bool_decide as Hin; [| done]. destruct (_ ≫= _); [| done].
    apply Forall_app. split; [done |]. constructor; [| constructor].
    rewrite Forall_forall in Hbody. apply (Hbody _ Hin).
  - unfold modals_in_document. rewrite body_run_task.
    destruct (removes t); [| done].
    etrans; [apply length_filter_filter | done].
  - destruct (errors_run_task t w) as [-> | (e & Ht & ->)]; [done |].
    apply Forall_app. split; [done |]. constructor; [done | constructor].
Qed.

Lemma wf_run_due fuel target w : wf w → wf (run_due fuel target w).
Proof.
  apply (run_due_ind wf). intros w' due t rest Ht H.
  apply wf_run_task. by eapply wf_popped.
Qed.

Lemma wf_wait ms w : wf w → wf (wait ms w).
Proof. intros H. unfold wait. apply wf_with_now. by apply wf_run_due. Qed.

Lemma wf_closeModal m w : wf w → m < length (modals w) → wf (closeModal m w).
Proof.
  intros H Hm. wf_fields H; rewrite ?length_alter; try done.
  - by apply sorted_enqueue.
  - apply Forall_enqueue. split; [exact Hm | done].
Qed.

Lemma wf_closeOnEscape m key w :
  wf w → m < length (modals w) → wf (closeOnEscape m key w).
Proof.
  intros H Hm. unfold closeOnEscape. destruct (String.eqb key "Escape"); [| done].
  pose proof (wf_closeModal m w H Hm) as H'. wf_fields H'; try done.
  rewrite Forall_forall in Hkeydown |- *. intros x [_ Hx]%list_elem_of_filter.
  by apply Hkeydown.
Qed.

Lemma modals_closeOnEscape m key w :
  length (modals (closeOnEscape m key w)) = length (modals w).
Proof.
  unfold closeOnEscape. destruct (String.eqb key "Escape"); [| done].
  simpl. by rewrite length_alter.
Qed.

Lemma wf_keyDown key w : wf w → wf (keyDown key w).
Proof.
  intros H. unfold keyDown.
  assert (Forall (λ m, m < length (modals w)) (keydown w)) as Hl by apply H.
  revert H Hl. generalize (keydown w) as l. intros l. revert w.
  induction l as [|m l IH]; intros w H Hl; [done |]. simpl.
  apply Forall_cons in Hl as [Hm Hl]. apply IH.
  - by apply wf_closeOnEscape.
  - by rewrite modals_closeOnEscape.
Qed.

Lemma wf_updateContent m c w : wf w → wf (updateContent m c w).
Proof. intros H. wf_fields H; rewrite ?length_alter; done. Qed.

Lemma wf_backdropClick m w : wf w → wf (backdropClick m w).
Proof.
  intros H. unfold backdropClick. destruct (modals w !! m) as [el|] eqn:Hel; [| done].
  destruct (m_outside el); [| done]. apply wf_closeModal; [done |].
  by eapply lookup_lt_Some.
Qed.

Lemma wf_notifCloseClick n w : wf w → wf (notifCloseClick n w).
Proof.
  intros H. wf_fields H; try done.
  - by apply sorted_enqueue.
  - apply Forall_enqueue. split; [exact I | done].
Qed.

Lemma wf_remove r w : wf w → wf (remove r w).
Proof.
  intros H. wf_fields H; try done.
  - rewrite Forall_forall in Hbody |- *. intros x [_ Hx]%list_elem_of_filter.
    by apply Hbody.
  - etrans; [apply length_filter_filter | done].
Qed.

(** *** [showModal] and [showNotification], field by field *)

Lemma showModal_snd o w : snd (showModal o w) = length (modals w).
Proof. unfold showModal, getModalById. destruct (find _ _); reflexivity. Qed.
Lemma showModal_modals o w :
  modals (fst (showModal o w)) = (modals w ++ [modal_of o])%list.
Proof. unfold showModal, getModalById. destruct (find _ _); reflexivity. Qed.
Lemma showModal_body o w :
  body (fst (showModal o w))
  = (body_without is_modal w ++ [ModalRef (length (modals w))])%list.
Proof. unfold showModal, getModalById, body_without. destruct (find _ _); reflexivity. Qed.
Lemma showModal_keydown o w :
  keydown (fst (showModal o w)) = (keydown w ++ [length (modals w)])%list.
Proof. unfold showModal, getModalById. destruct (find _ _); reflexivity. Qed.
Lemma showModal_timers o w : timers (fst (showModal o w)) = timers w.
Proof. unfold showModal, getModalById. destruct (find _ _); reflexivity. Qed.
Lemma showModal_closed o w : closed (fst (showModal o w)) = closed w.
Proof. unfold showModal, getModalById. destruct (find _ _); reflexivity. Qed.
Lemma showModal_errors o w : errors (fst (showModal o w)) = errors w.
Proof. unfold showModal, getModalById. destruct (find _ _); reflexivity. Qed.
Lemma showModal_now o w : now (fst (showModal o w)) = now w.
Proof. unfold showModal, getModalById. destruct (find _ _); reflexivity. Qed.

Lemma showNotification_snd message type duration w :
  snd (showNotification message type duration w) = length (notifs w).
Proof. unfold showNotification, queryNotification. destruct (find _ _); reflexivity. Qed.
Lemma showNotification_modals message type duration w :
  modals (fst (showNotification message type duration w)) = modals w.
Proof. unfold showNotification, queryNotification. destruct (find _ _); reflexivity. Qed.
Lemma showNotification_body message type duration w :
  body (fst (showNotification message type duration w))
  = (body_without is_notif w ++ [NotifRef (length (notifs w))])%list.
Proof.
  unfold showNotification, queryNotification, body_without.
  destruct (find _ _); reflexivity.
Qed.
Lemma showNotification_timers message type duration w :
  timers (fst (showNotification message type duration w))
  = enqueue (now w + default 3000 duration, NotifAuto (length (notifs w))) (timers w).
Proof. unfold showNotification, queryNotification. destruct (find _ _); reflexivity. Qed.
Lemma showNotification_closed message type duration w :
  closed (fst (showNotification message type duration w)) = closed w.
Proof. unfold showNotification, queryNotification. destruct (find _ _); reflexivity. Qed.
Lemma showNotification_keydown message type duration w :
  keydown (fst (showNotification message type duration w)) = keydown w.
Proof. unfold showNotification, queryNotification. destruct (find _ _); reflexivity. Qed.
Lemma showNotification_errors message type duration w :
  errors (fst (showNotification message type duration w)) = errors w.
Proof. unfold showNotification, queryNotification. destruct (find _ _); reflexivity. Qed.
Lemma showNotification_now message type duration w :
  now (fst (showNotification message type duration w)) = now w.
Proof. unfold showNotification, queryNotification. destruct (find _ _); reflexivity. Qed.

Lemma body_without_subseteq f w r : r ∈ body_without f w → r ∈ body w.
Proof.
  unfold body_without. destruct (find _ _); [| done].
  by intros [_ H]%list_elem_of_filter.
Qed.

Lemma modals_in_body_without f w :
  length (filter (λ r, is_modal r = true) (body_without f w))
  ≤ length (modals_in_document w).
Proof.
  unfold body_without, modals_in_document. destruct (find _ _); [| done].
  apply length_filter_filter.
Qed.

(** Once the modal found by [getElementById] is removed, no modal is left,
    provided there was at most one. *)
Lemma no_modal_after_removal w :
  length (modals_in_document w) ≤ 1 →
  filter (λ r, is_modal r = true) (body_without is_modal w) = [].
Proof.
  unfold modals_in_document, body_without. generalize (body w) as l.
  induction l as [|x l IH]; [done |]. intros Hlen. simpl find.
  destruct (is_modal x) eqn:Hx.
  - rewrite filter_cons_True in Hlen by done. simpl in Hlen.
    rewrite filter_cons_False by (intros H; by apply H).
    apply nil_length_inv. 
    pose proof (length_filter_filter (λ r, is_modal r = true) (λ y, y ≠ x) l). lia.
  - rewrite filter_cons_False in Hlen by congruence. specialize (IH Hlen).
    destruct (find is_modal l) as [r|] eqn:Hf.
    + apply find_some in Hf as [_ Hr].
      rewrite filter_cons_True by congruence.
      rewrite filter_cons_False by congruence. exact IH.
    + rewrite filter_cons_False by congruence. exact IH.
Qed.

Lemma wf_showModal o w : wf w → wf (fst (showModal o w)).
Proof.
  intros [Hsorted Hbody Htimers Hclosed Hkeydown Hsingle Herrors].
  constructor;
    rewrite ?showModal_modals, ?showModal_timers, ?showModal_closed,
      ?showModal_errors, ?length_app; cbn [length]; try done.
  - rewrite showModal_body. apply Forall_app. split.
    + rewrite Forall_forall in Hbody |- *. intros r Hr%body_without_subseteq.
      specialize (Hbody r Hr). destruct r; simpl in *; [lia | done].
    + constructor; [simpl; lia | constructor].
  - eapply Forall_impl; [exact Htimers |]. intros [d t]. unfold modal_task_below.
    simpl. destruct t; [lia | done | done].
  - eapply Forall_impl; [exact Hclosed |]. simpl. intros; lia.
  - rewrite showModal_keydown. apply Forall_app. split.
    + eapply Forall_impl; [exact Hkeydown |]. simpl. intros; lia.
    + constructor; [lia | constructor].
  - unfold modals_in_document. rewrite showModal_body, filter_app.
    rewrite no_modal_after_removal by done.
    rewrite filter_singleton_True; [simpl; lia | exact [] | done].
Qed.

Lemma wf_showNotification message type duration w :
  wf w → wf (fst (showNotification message type duration w)).
Proof.
  intros [Hsorted Hbody Htimers Hclosed Hkeydown Hsingle Herrors].
  constructor;
    rewrite ?showNotification_modals, ?showNotification_timers,
      ?showNotification_closed, ?showNotification_errors,
      ?showNotification_keydown; try done.
  - by apply sorted_enqueue.
  - rewrite showNotification_body. apply Forall_app. split.
    + rewrite Forall_forall in Hbody |- *. intros r Hr%body_without_subseteq.
      by apply Hbody.
    + constructor; [exact I | constructor].
  - apply Forall_enqueue. split; [exact I | done].
  - unfold modals_in_document. rewrite showNotification_body, filter_app.
    rewrite filter_singleton_False; [| exact [] | simpl; congruence].
    rewrite length_app. simpl.
    pose proof (modals_in_body_without is_notif w). lia.
Qed.

Lemma wf_empty_page : wf empty_page.
Proof. constructor; simpl; try constructor. lia. Qed.

Lemma wf_step e w : wf w → wf (step e w).
Proof.
  intros H. destruct e; simpl.
  - by apply wf_showModal.
  - case_bool_decide; [by apply wf_closeModal | done].
  - by apply wf_updateContent.
  - case_bool_decide as Hin; [| done]. apply wf_closeModal; [done |].
    destruct H as [_ Hbody _ _ _ _ _]. rewrite Forall_forall in Hbody.
    apply (Hbody _ Hin).
  - case_bool_decide; [by apply wf_backdropClick | done].
  - by apply wf_keyDown.
  - by apply wf_showNotification.
  - case_bool_decide; [by apply wf_notifCloseClick | done].
  - by apply wf_wait.
Qed.

Lemma reachable_wf w : reachable w → wf w.
Proof. induction 1; [apply wf_empty_page | by apply wf_step]. Qed.

(** *** Showing a modal over a modal *)

Lemma modals_after_showModal o w :
  wf w → modals_in_document (fst (showModal o w)) = [ModalRef (snd (showModal o w))].
Proof.
  intros H. unfold modals_in_document. rewrite showModal_body, showModal_snd, filter_app.
  rewrite no_modal_after_removal by apply H.
  rewrite filter_singleton_True; [done | exact [] | done].
Qed.



(** *** Dismissing a modal *)

Lemma onClose_alter_animation (f : modal → modal) (l : list modal) i m :
  (∀ el, m_onClose (f el) = m_onClose el) →
  alter f i l !! m ≫= m_onClose = l !! m ≫= m_onClose.
Proof.
  intros Hf. destruct (decide (i = m)) as [->|Hne].
  - rewrite list_lookup_alter_eq. destruct (l !! m); simpl; [apply Hf | done].
  - by rewrite list_lookup_alter_ne.
Qed.

Lemma closeModal_onClose m' w m :
  modals (closeModal m' w) !! m ≫= m_onClose = modals w !! m ≫= m_onClose.
Proof. simpl. by apply onClose_alter_animation. Qed.

Lemma closeModal_timers m w :
  timers (closeModal m w) = enqueue (now w + 300, ModalTeardown m) (timers w).
Proof. reflexivity. Qed.
Lemma closeModal_body m w : body (closeModal m w) = body w.
Proof. reflexivity. Qed.
Lemma closeModal_closed m w : closed (closeModal m w) = closed w.
Proof. reflexivity. Qed.
Lemma closeModal_now m w : now (closeModal m w) = now w.
Proof. reflexivity. Qed.
Lemma closeModal_keydown m w : keydown (closeModal m w) = keydown w.
Proof. reflexivity. Qed.
Lemma closeModal_length m' w : length (modals (closeModal m' w)) = length (modals w).
Proof. simpl. by rewrite length_alter. Qed.

(** One escape listener. *)
Lemma closeOnEscape_frame m' key w :
  let w' := closeOnEscape m' key w in
  body w' = body w ∧ closed w' = closed w ∧ now w' = now w
  ∧ (∀ m, modals w' !! m ≫= m_onClose = modals w !! m ≫= m_onClose)
  ∧ (∀ x, x ∈ timers w → x ∈ timers w')
  ∧ (∀ m, m ∈ keydown w' → m ∈ keydown w)
  ∧ (key = "Escape" →
       (now w + 300, ModalTeardown m') ∈ timers w' ∧ m' ∉ keydown w').
Proof.
  cbv zeta. unfold closeOnEscape.
  destruct (String.eqb_spec key "Escape") as [->|Hkey].
  - split_and!; try done.
    + intros m. simpl. by apply onClose_alter_animation.
    + intros x Hx. simpl. apply elem_of_enqueue. by right.
    + intros m Hm. simpl in Hm. by apply list_elem_of_filter in Hm as [_ ?].
    + intros _. split.
      * simpl. apply elem_of_enqueue. by left.
      * simpl. intros [Hm _]%list_elem_of_filter. done.
  - split_and!; done.
Qed.

(** The listeners a key press runs, taken together. *)
Lemma keyDown_fold key l w :
  let w' := foldl (λ w m, closeOnEscape m key w) w l in
  body w' = body w ∧ closed w' = closed w ∧ now w' = now w
  ∧ (∀ m, modals w' !! m ≫= m_onClose = modals w !! m ≫= m_onClose)
  ∧ (∀ x, x ∈ timers w → x ∈ timers w')
  ∧ (∀ m, m ∈ keydown w' → m ∈ keydown w)
  ∧ (key = "Escape" → ∀ m, m ∈ l →
       (now w + 300, ModalTeardown m) ∈ timers w' ∧ m ∉ keydown w').
Proof.
  revert w. induction l as [|m' l IH]; intros w; cbv zeta.
  { split_and!; try done. intros _ m Hm. by apply elem_of_nil in Hm. }
  simpl foldl. specialize (IH (closeOnEscape m' key w)). cbv zeta in IH.
  destruct IH as (Hb & Hc & Hn & Ho & Ht & Hk & He).
  destruct (closeOnEscape_frame m' key w) as (Hb1 & Hc1 & Hn1 & Ho1 & Ht1 & Hk1 & He1).
  split_and!.
  - by rewrite Hb.
  - by rewrite Hc.
  - by rewrite Hn.
  - intros m. by rewrite Ho.
  - intros x Hx. by apply Ht, Ht1.
  - intros m Hm. by apply Hk1, Hk.
  - intros Hkey m [->|Hin]%elem_of_cons.
    + destruct (He1 Hkey) as [Hin Hnot]. split; [by apply Ht |].
      intros Hm. by apply Hnot, Hk.
    + rewrite <- Hn1. by apply He.
Qed.

Lemma keyDown_length key w : length (modals (keyDown key w)) = length (modals w).
Proof.
  unfold keyDown. generalize (keydown w) as l. intros l. revert w.
  induction l as [|x l IH]; intros w; [done |]. simpl.
  by rewrite IH, modals_closeOnEscape.
Qed.


Lemma wait_closing m callback deadline ms w :
  closing m callback deadline w → deadline ≤ now w + ms →
  (ModalRef m ∉ body (wait ms w))
  ∧ count_closed m (wait ms w)
    = count_closed m w + match callback with Some _ => 1 | None => 0 end.
Proof.
  intros (Hs & Hin & (d & Hd & Hle) & Ho & Hm) Hdl.
  destruct (lookup_lt_is_Some_2 _ _ Hm) as [el Hel].
  rewrite Hel in Ho. simpl in Ho. subst callback.
  unfold wait.
  change (count_closed m (with_now ?t ?w')) with (count_closed m w').
  change (body (with_now ?t ?w')) with (body w').
  apply (teardown_runs m el); try done. exists d. split; [done | lia].
Qed.

Lemma not_closed_before w :
  wf w → count_closed (length (modals w)) w = 0.
Proof.
  intros H. unfold count_closed. destruct H as [_ _ _ Hclosed _ _ _].
  induction Hclosed as [|c l Hc _ IH]; [done |].
  rewrite filter_cons_False by lia. exact IH.
Qed.

(** Any dismissal of a modal that was just shown puts it on its way out,
    due 300 ms later, and runs no [onClose] by itself. *)
Lemma dismissal_closing o w e :
  wf w →
  let w1 := fst (showModal o w) in
  let m := snd (showModal o w) in
  dismissal o m e →
  closing m (onClose o) (now w + 300) (step e w1)
  ∧ closed (step e w1) = closed w ∧ now (step e w1) = now w.
Proof.
  intros H. cbv zeta. rewrite showModal_snd. set (m := length (modals w)).
  pose proof (wf_showModal o w H) as H1.
  assert (ModalRef m ∈ body (fst (showModal o w))) as Hin.
  { rewrite showModal_body. apply elem_of_app. right. left. }
  assert (m < length (modals (fst (showModal o w)))) as Hm.
  { rewrite showModal_modals, length_app. simpl. lia. }
  assert (modals (fst (showModal o w)) !! m ≫= m_onClose = onClose o) as Ho.
  { rewrite showModal_modals. unfold m. by rewrite list_lookup_middle. }
  assert (closing m (onClose o) (now w + 300) (closeModal m (fst (showModal o w)))
          ∧ closed (closeModal m (fst (showModal o w))) = closed w
          ∧ now (closeModal m (fst (showModal o w))) = now w) as Hclose.
  { split; [| split];
      [| by rewrite closeModal_closed, showModal_closed
       | by rewrite closeModal_now, showModal_now].
    split; [| split; [| split; [| split]]].
    - apply wf_sorted, wf_closeModal; done.
    - by rewrite closeModal_body.
    - exists (now w + 300). split; [| done]. rewrite closeModal_timers.
      apply elem_of_enqueue. left. by rewrite showModal_now.
    - by rewrite closeModal_onClose.
    - by rewrite closeModal_length. }
  intros [-> | [-> | [-> | [-> Hout]]]]; cbn [step].
  - by rewrite bool_decide_eq_true_2.
  - by rewrite bool_decide_eq_true_2.
  - pose proof (keyDown_fold "Escape" (keydown (fst (showModal o w))) (fst (showModal o w)))
      as (Hb & Hc & Hn & Hoc & Ht & Hk & He). specialize (He eq_refl m).
    fold (keyDown "Escape" (fst (showModal o w))) in *.
    split; [| split]; [| by rewrite Hc, showModal_closed | by rewrite Hn, showModal_now].
    split; [| split; [| split; [| split]]].
    + by apply wf_sorted, wf_keyDown.
    + by rewrite Hb.
    + exists (now w + 300). split; [| done]. rewrite <- (showModal_now o w).
      apply He. rewrite showModal_keydown. apply elem_of_app. right. left.
    + by rewrite Hoc.
    + by rewrite keyDown_length.
  - rewrite bool_decide_eq_true_2 by done. unfold backdropClick.
    assert (modals (fst (showModal o w)) !! m = Some (modal_of o)) as ->.
    { rewrite showModal_modals. unfold m. by rewrite list_lookup_middle. }
    cbn [m_outside modal_of]. rewrite Hout. exact Hclose.
Qed.

(** *** Closing a modal more than once *)

Lemma filter_enqueue (P : nat * task → Prop) `{∀ x, Decision (P x)} t ts :
  length (filter P (enqueue t ts))
  = (if decide (P t) then 1 else 0) + length (filter P ts).
Proof.
  induction ts as [|t' rest IH]; cbn [enqueue].
  - rewrite filter_singleton by exact []. case_decide; done.
  - destruct (Nat.leb _ _).
    + destruct (decide (P t')); [rewrite !(filter_cons_True P t') by done
                                | rewrite !(filter_cons_False P t') by done];
        simpl; rewrite IH; lia.
    + destruct (decide (P t)); [rewrite (filter_cons_True P t) by done
                               | rewrite (filter_cons_False P t) by done]; simpl; lia.
Qed.

(** Every call of [closeModal] schedules one more teardown and appends one
    more style element, whatever the state of the modal. *)
Lemma closeModal_schedules m w :
  teardowns_pending m (closeModal m w) = S (teardowns_pending m w)
  ∧ styles (closeModal m w) = (styles w ++ ["fadeOut slideDown"])%list.
Proof.
  split; [| reflexivity]. unfold teardowns_pending. rewrite closeModal_timers.
  rewrite filter_enqueue. rewrite decide_True by done. done.
Qed.

Lemma closing_closeModal m callback deadline m' w :
  closing m callback deadline w → m' < length (modals w) → wf w →
  closing m callback deadline (closeModal m' w).
Proof.
  intros (Hs & Hin & (d & Hd & Hle) & Ho & Hm) Hm' Hwf. split_and!.
  - by apply wf_sorted, wf_closeModal.
  - by rewrite closeModal_body.
  - exists d. split; [| done]. rewrite closeModal_timers. apply elem_of_enqueue. by right.
  - by rewrite closeModal_onClose.
  - by rewrite closeModal_length.
Qed.

Lemma modals_run_due fuel target w : modals (run_due fuel target w) = modals w.
Proof.
  apply (run_due_ind (λ w', modals w' = modals w)); [| done].
  intros w' due t rest _ Hm. by rewrite modals_run_task.
Qed.

Lemma keydown_run_due fuel target w : keydown (run_due fuel target w) = keydown w.
Proof.
  apply (run_due_ind (λ w', keydown w' = keydown w)); [| done].
  intros w' due t rest _ Hm. by rewrite keydown_run_task.
Qed.

Lemma modals_wait ms w : modals (wait ms w) = modals w.
Proof. unfold wait. simpl. apply modals_run_due. Qed.

Lemma keydown_wait ms w : keydown (wait ms w) = keydown w.
Proof. unfold wait. simpl. apply keydown_run_due. Qed.

Lemma wait_after_gone m ms w :
  ModalRef m ∉ body w →
  (ModalRef m ∉ body (wait ms w)) ∧ count_closed m (wait ms w) = count_closed m w.
Proof.
  intros Hn. unfold wait.
  change (count_closed m (with_now ?t ?w')) with (count_closed m w').
  change (body (with_now ?t ?w')) with (body w').
  split; [by apply gone_stays_gone | by apply closed_after_gone].
Qed.

Lemma run_cons e es w : run (e :: es) w = run es (step e w).
Proof. reflexivity. Qed.
Lemma run_nil w : run [] w = w.
Proof. reflexivity. Qed.

Lemma step_HandleClose m w :
  m < length (modals w) → step (HandleClose m) w = closeModal m w.
Proof. intros H. simpl. by rewrite bool_decide_eq_true_2. Qed.




(** *** The escape listener *)

Lemma not_listening_before w : wf w → filter (λ x, x = length (modals w)) (keydown w) = [].
Proof.
  intros [_ _ _ _ Hkeydown _ _].
  induction Hkeydown as [|x l Hx _ IH]; [done |].
  rewrite filter_cons_False by lia. exact IH.
Qed.

(** C2, on the paths other than the escape key: the listener is registered
    once when the modal is shown, and the escape key removes it; but after
    the handle, the close button or a click on the backdrop has closed the
    modal and the overlay has left the document, the listener is still
    registered on the document. *)
Theorem escape_listener_outlives_modal (w : world) (o : options) (e : event) (ms : nat) :
  reachable w → 300 ≤ ms →
  let w1 := fst (showModal o w) in
  let m := snd (showModal o w) in
  e = HandleClose m ∨ e = ClickCloseButton m
    ∨ (e = ClickBackdrop m ∧ not_false (closeOnOutsideClick o) = true) →
  filter (λ x, x = m) (keydown w1) = [m]
  ∧ (m ∉ keydown (run [KeyDown "Escape"] w1))
  ∧ (ModalRef m ∉ body (run [e; Wait ms] w1))
  ∧ m ∈ keydown (run [e; Wait ms] w1).
Proof.
  intros Hr%reachable_wf Hms. cbv zeta. intros He.
  assert (dismissal o (snd (showModal o w)) e) as Hd.
  { unfold dismissal. tauto. }
  assert (snd (showModal o w) ∈ keydown (fst (showModal o w))) as Hin.
  { rewrite showModal_keydown, showModal_snd. apply elem_of_app. right. left. }
  split_and!.
  - rewrite showModal_keydown, showModal_snd, filter_app.
    rewrite not_listening_before by done.
    rewrite filter_singleton_True; [done | exact [] | done].
  - rewrite run_cons, run_nil. cbn [step].
    pose proof (keyDown_fold "Escape" (keydown (fst (showModal o w))) (fst (showModal o w)))
      as (_ & _ & _ & _ & _ & _ & Hesc).
    by apply (Hesc eq_refl).
  - rewrite !run_cons, run_nil.
    destruct (dismissal_closing o w e Hr Hd) as (Hc & _ & Hnow).
    destruct (wait_closing _ _ _ ms _ Hc) as [Hgone _]; [rewrite Hnow; lia |].
    exact Hgone.
  - rewrite !run_cons, run_nil. cbn [step]. change (step (Wait ms) ?x) with (wait ms x).
    rewrite keydown_wait.
    destruct He as [-> | [-> | [-> Hout]]]; cbn [step].
    + case_bool_decide; by rewrite ?closeModal_keydown.
    + case_bool_decide; by rewrite ?closeModal_keydown.
    + case_bool_decide; [| done]. unfold backdropClick.
      destruct (_ !! _) as [el|]; [| done].
      destruct (m_outside el); by rewrite ?closeModal_keydown.
Qed.

Lemma escape_listener_outlives_modal_witness :
  let w1 := fst (showModal terms_options empty_page) in
  filter (λ x, x = 0) (keydown w1) = [0]
  ∧ (0 ∉ keydown (run [KeyDown "Escape"] w1))
  ∧ (ModalRef 0 ∉ body (run [ClickCloseButton 0; Wait 300] w1))
  ∧ 0 ∈ keydown (run [ClickCloseButton 0; Wait 300] w1).
Proof.
  apply (escape_listener_outlives_modal empty_page terms_options (ClickCloseButton 0) 300).
  - apply reachable_start.
  - lia.
  - right. left. reflexivity.
Defined.

(** The listener that was left behind runs on the next escape key, long
    after its modal is gone: it schedules a teardown of the dead overlay,
    and that teardown throws. *)
Lemma stale_escape_listener_throws :
  let w := run [ShowModal terms_options; ClickCloseButton 0; Wait 300] empty_page in
  keydown w = [0] ∧ body w = [] ∧ errors w = []
  ∧ errors (run [KeyDown "Escape"; Wait 300] w)
    = [(ModalTeardown 0,
        NotFoundError "The node to be removed is not a child of this node.")].
Proof. cbv zeta. split_and!; reflexivity. Qed.

(** *** Dismissing a notification *)

Lemma remove_absent r w : r ∉ body w → remove r w = w.
Proof. intros H. unfold remove. rewrite filter_absent by done. by destruct w. Qed.

Lemma body_wait_subseteq r ms w : r ∉ body w → r ∉ body (wait ms w).
Proof. intros H. unfold wait. simpl. by apply gone_stays_gone. Qed.

Lemma reachable_run es w : reachable w → reachable (run es w).
Proof.
  revert w. induction es as [|e es IH]; intros w H; [done |].
  rewrite run_cons. apply IH. by constructor.
Qed.

(** A click on the close button, followed by a wait of 300 ms or more,
    leaves the notification out of the document, whether or not the
    automatic dismissal fires in between. *)
Lemma click_then_wait_removes n ms w :
  wf w → 300 ≤ ms → NotifRef n ∉ body (run [ClickNotifClose n; Wait ms] w).
Proof.
  intros Hwf Hms. rewrite !run_cons, run_nil. cbn [step].
  case_bool_decide as Hin; [| by apply body_wait_subseteq].
  unfold wait. simpl body. apply removal_runs.
  - by apply wf_sorted, wf_notifCloseClick.
  - done.
  - exists (now w + 300). split; [| simpl; lia].
    simpl. apply elem_of_enqueue. by left.
Qed.

(** C9: the close button and the automatic dismissal run the same
    teardown, the exit animation and a removal 300 ms later; the removal
    never throws and does nothing to a notification that is no longer in
    the document, and neither does the automatic dismissal; so when both
    paths are triggered, in either order and however they overlap, the
    notification leaves the document, stays out, and no notification
    callback has raised an exception. *)
Theorem notification_paths_share_teardown (w : world) (message : string)
    (type : option string) (duration : option nat) (t1 t2 t3 : nat) :
  reachable w → 300 ≤ t2 →
  let w1 := fst (showNotification message type duration w) in
  let n := snd (showNotification message type duration w) in
  NotifRef n ∈ body w1
  ∧ (∀ w', NotifRef n ∈ body w' →
       callback (NotifAuto n) w' = (Return (), notifCloseClick n w'))
  ∧ (∀ w', timers (notifCloseClick n w')
           = enqueue (now w' + 300, NotifRemove n) (timers w')
         ∧ n_animation <$> notifs (notifCloseClick n w') !! n
           = (λ _, "slideOut 0.3s ease forwards") <$> notifs w' !! n)
  ∧ (∀ w', callback (NotifRemove n) w' = (Return (), remove (NotifRef n) w')
         ∧ (NotifRef n ∉ body (remove (NotifRef n) w'))
         ∧ (NotifRef n ∉ body w' → remove (NotifRef n) w' = w'))
  ∧ (∀ w', NotifRef n ∉ body w' → callback (NotifAuto n) w' = (Return (), w'))
  ∧ (NotifRef n ∉ body (run [Wait t1; ClickNotifClose n; Wait t2] w1))
  ∧ (NotifRef n ∉ body (run [Wait t1; ClickNotifClose n; Wait t2; Wait t3] w1))
  ∧ Forall (λ e, is_teardown (fst e))
      (errors (run [Wait t1; ClickNotifClose n; Wait t2; Wait t3] w1)).
Proof.
  intros Hr Ht2. cbv zeta.
  set (w1 := fst (showNotification message type duration w)).
  set (n := snd (showNotification message type duration w)).
  assert (reachable w1) as Hr1.
  { apply (reachable_step (ShowNotification message type duration) w Hr). }
  assert (NotifRef n ∉ body (run [Wait t1; ClickNotifClose n; Wait t2] w1)) as Hgone.
  { rewrite run_cons. apply click_then_wait_removes; [| done].
    apply wf_step. by apply reachable_wf. }
  split_and!.
  - unfold w1, n. rewrite showNotification_body, showNotification_snd.
    apply elem_of_app. right. left.
  - intros w' Hin. simpl. unfold notifAuto. by rewrite bool_decide_eq_true_2.
  - intros w'. split; [reflexivity |]. simpl.
    rewrite list_lookup_alter_eq. by destruct (notifs w' !! n).
  - intros w'. split_and!; [reflexivity | |].
    + simpl. intros [H _]%list_elem_of_filter. done.
    + apply remove_absent.
  - intros w' Hn. simpl. unfold notifAuto. by rewrite bool_decide_eq_false_2.
  - exact Hgone.
  - change [Wait t1; ClickNotifClose n; Wait t2; Wait t3]
      with ([Wait t1; ClickNotifClose n; Wait t2] ++ [Wait t3])%list.
    unfold run. rewrite foldl_app. simpl foldl at 1.
    by apply body_wait_subseteq.
  - apply wf_errors, reachable_wf, reachable_run, Hr1.
Qed.

Lemma notification_paths_share_teardown_witness :
  let w1 := fst (showNotification "Saved" (Some "success") (Some 400) empty_page) in
  NotifRef 0 ∈ body w1
  ∧ (∀ w', NotifRef 0 ∈ body w' →
       callback (NotifAuto 0) w' = (Return (), notifCloseClick 0 w'))
  ∧ (∀ w', timers (notifCloseClick 0 w')
           = enqueue (now w' + 300, NotifRemove 0) (timers w')
         ∧ n_animation <$> notifs (notifCloseClick 0 w') !! 0
           = (λ _, "slideOut 0.3s ease forwards") <$> notifs w' !! 0)
  ∧ (∀ w', callback (NotifRemove 0) w' = (Return (), remove (NotifRef 0) w')
         ∧ (NotifRef 0 ∉ body (remove (NotifRef 0) w'))
         ∧ (NotifRef 0 ∉ body w' → remove (NotifRef 0) w' = w'))
  ∧ (∀ w', NotifRef 0 ∉ body w' → callback (NotifAuto 0) w' = (Return (), w'))
  ∧ (NotifRef 0 ∉ body (run [Wait 200; ClickNotifClose 0; Wait 300] w1))
  ∧ (NotifRef 0 ∉ body (run [Wait 200; ClickNotifClose 0; Wait 300; Wait 300] w1))
  ∧ Forall (λ e, is_teardown (fst e))
      (errors (run [Wait 200; ClickNotifClose 0; Wait 300; Wait 300] w1)).
Proof.
  apply (notification_paths_share_teardown empty_page "Saved" (Some "success") (Some 400)
           200 300 300).
  - apply reachable_start.
  - lia.
Defined.

(** The overlap in full: the button is clicked 200 ms into a notification
    that lasts 400 ms.  The removal scheduled by the click runs at 500 ms;
    the automatic dismissal fires at 400 ms, while the exit animation
    plays, and schedules a second removal for 700 ms, which finds the
    notification gone and does nothing. *)
Lemma notification_overlap_trace :
  let w1 := fst (showNotification "Saved" (Some "success") (Some 400) empty_page) in
  timers (run [Wait 200; ClickNotifClose 0] w1) = [(400, NotifAuto 0); (500, NotifRemove 0)]
  ∧ timers (run [Wait 200; ClickNotifClose 0; Wait 300] w1) = [(700, NotifRemove 0)]
  ∧ body (run [Wait 200; ClickNotifClose 0; Wait 300] w1) = []
  ∧ timers (run [Wait 200; ClickNotifClose 0; Wait 300; Wait 300] w1) = []
  ∧ errors (run [Wait 200; ClickNotifClose 0; Wait 300; Wait 300] w1) = [].
Proof. cbv zeta. split_and!; reflexivity. Qed.

(** *** [onClose] runs at most once, and after the overlay has left *)

Lemma count_closed_same m w w' :
  closed w' = closed w → count_closed m w' = count_closed m w.
Proof. unfold count_closed. by intros ->. Qed.

Lemma closed_once_same w w' :
  closed w' = closed w → (∀ r, r ∈ body w' → r ∈ body w) →
  closed_once w → closed_once w'.
Proof.
  intros Hc Hb H m. destruct (H m) as [Hle Hgone].
  rewrite (count_closed_same m w w' Hc). split; [done |].
  intros Hpos Hin. by apply (Hgone Hpos), Hb.
Qed.

Lemma closed_once_run_task t w : closed_once w → closed_once (run_task t w).
Proof.
  intros H m. destruct (H m) as [Hle Hgone]. rewrite count_closed_run_task.
  destruct (decide (t = ModalTeardown m)) as [->|Hne].
  - case_bool_decide as Hin.
    + assert (count_closed m w = 0) as -> by (destruct (count_closed m w); [done | exfalso; apply Hgone; [lia | done]]).
      split; [destruct (_ ≫= _); lia |]. intros _.
      rewrite body_run_task. simpl. intros [Hx _]%list_elem_of_filter. done.
    + split; [lia |]. intros _ Hx%body_run_task_subseteq. done.
  - split; [lia |]. intros Hpos Hx%body_run_task_subseteq. apply Hgone; [lia | done].
Qed.

Lemma closed_once_run_due fuel target w : closed_once w → closed_once (run_due fuel target w).
Proof.
  apply (run_due_ind closed_once). intros w' due t rest _ H.
  apply closed_once_run_task. by apply (closed_once_same w').
Qed.

Lemma closed_once_step e w : wf w → closed_once w → closed_once (step e w).
Proof.
  intros Hwf H. destruct e; cbn [step].
  - intros m. destruct (H m) as [Hle Hgone].
    rewrite (count_closed_same m w _ (showModal_closed o w)). split; [done |]. intros Hpos.
    rewrite showModal_body. intros [Hin | Hin]%elem_of_app.
    + by apply (Hgone Hpos), (body_without_subseteq is_modal).
    + apply list_elem_of_singleton in Hin. injection Hin as ->.
      pose proof (not_closed_before w Hwf) as H0. lia.
  - case_bool_decide; [| done]. by apply (closed_once_same w).
  - by apply (closed_once_same w).
  - case_bool_decide; [| done]. by apply (closed_once_same w).
  - case_bool_decide; [| done]. unfold backdropClick.
    destruct (_ !! _) as [el|]; [| done]. destruct (m_outside el); [| done].
    by apply (closed_once_same w).
  - pose proof (keyDown_fold key (keydown w) w) as (Hb & Hc & _).
    apply (closed_once_same w); [exact Hc | | done]. intros r. unfold keyDown. by rewrite Hb.
  - intros m. destruct (H m) as [Hle Hgone].
    rewrite (count_closed_same m w _ (showNotification_closed message type duration w)).
    split; [done |]. intros Hpos.
    rewrite showNotification_body. intros [Hin | Hin]%elem_of_app.
    + by apply (Hgone Hpos), (body_without_subseteq is_notif).
    + apply list_elem_of_singleton in Hin. discriminate Hin.
  - case_bool_decide; [| done]. by apply (closed_once_same w).
  - unfold wait. apply (closed_once_same (run_due (budget (timers w)) (now w + ms) w));
      [done | done |]. by apply closed_once_run_due.
Qed.

(** X3: in every world the script can reach, each modal's [onClose] has
    run at most once, and a modal whose [onClose] has run is no longer in the
    document: the callback never runs before the overlay is removed. *)
Theorem onClose_at_most_once_after_removal (w : world) (m : nat) :
  reachable w →
  count_closed m w ≤ 1 ∧ (0 < count_closed m w → ModalRef m ∉ body w).
Proof.
  intros Hr. revert m. change (closed_once w). induction Hr as [|e w Hr IH].
  - intros m. split; [unfold count_closed; simpl; lia | intros _ Hin; by apply elem_of_nil in Hin].
  - apply closed_once_step; [by apply reachable_wf | done].
Qed.

Lemma onClose_at_most_once_after_removal_witness :
  let w := run [ShowModal terms_options; HandleClose 0; HandleClose 0; Wait 300] empty_page in
  count_closed 0 w ≤ 1 ∧ (0 < count_closed 0 w → ModalRef 0 ∉ body w).
Proof.
  apply (onClose_at_most_once_after_removal
           (run [ShowModal terms_options; HandleClose 0; HandleClose 0; Wait 300] empty_page) 0).
  apply reachable_run, reachable_start.
Defined.



(** *** Notifications, timing and the scroll lock *)

#[local] Open Scope list_scope.

Lemma now_run_task t w : now (run_task t w) = now w.
Proof.
  unfold run_task. destruct t as [m|n|n]; simpl.
  - unfold modalTeardown, removeChild. case_bool_decide; simpl; [| done].
    destruct (_ ≫= _); done.
  - unfold notifAuto. case_bool_decide; done.
  - done.
Qed.

Lemma notifs_run_task t w : length (notifs (run_task t w)) = length (notifs w).
Proof.
  unfold run_task. destruct t as [m|n|n]; simpl.
  - unfold modalTeardown, removeChild. case_bool_decide; simpl; [| done].
    destruct (_ ≫= _); done.
  - unfold notifAuto. case_bool_decide; simpl; [| done]. by rewrite length_alter.
  - done.
Qed.

Lemma overflow_run_task t w :
  overflow (run_task t w)
  = match t with
    | ModalTeardown m => if bool_decide (ModalRef m ∈ body w) then "" else overflow w
    | _ => overflow w
    end.
Proof.
  unfold run_task. destruct t as [m|n|n]; simpl.
  - unfold modalTeardown, removeChild. case_bool_decide; simpl; [| done].
    destruct (_ ≫= _); done.
  - unfold notifAuto. case_bool_decide; done.
  - done.
Qed.

Lemma ahead_popped due t rest w :
  sorted ((due, t) :: rest) → timers w = (due, t) :: rest → ahead w →
  ahead (popped due rest w).
Proof.
  intros [Hhead _] Ht Ha. unfold ahead in *. rewrite Ht in Ha. simpl in *.
  apply Forall_cons in Ha as [_ Ha]. rewrite Forall_forall in Hhead, Ha |- *.
  intros x Hx. specialize (Hhead x Hx). specialize (Ha x Hx). simpl in *. lia.
Qed.

Lemma ahead_run_task t w : ahead w → ahead (run_task t w).
Proof.
  unfold ahead. rewrite now_run_task. intros Ha.
  destruct (timers_run_task t w) as [-> | (n & _ & ->)]; [done |].
  apply Forall_enqueue. split; [simpl; lia | done].
Qed.

(** Taking a notification out leaves the modal overlays, and conversely. *)
Lemma filter_modal_without_notif n (l : list ref) :
  filter (λ r, is_modal r = true) (filter (λ x, x ≠ NotifRef n) l)
  = filter (λ r, is_modal r = true) l.
Proof.
  induction l as [|x l IH]; [done |]. destruct x as [m|n'].
  - rewrite (filter_cons_True (λ x, x ≠ NotifRef n)) by done.
    rewrite !filter_cons_True by done. by rewrite IH.
  - rewrite (filter_cons_False (λ r, is_modal r = true) (NotifRef n')) by done.
    destruct (decide (n' = n)) as [->|Hne].
    + rewrite filter_cons_False by (intros H; by apply H). exact IH.
    + rewrite filter_cons_True by congruence.
      rewrite filter_cons_False by done. exact IH.
Qed.

Lemma filter_notif_without_modal m (l : list ref) :
  filter (λ r, is_notif r = true) (filter (λ x, x ≠ ModalRef m) l)
  = filter (λ r, is_notif r = true) l.
Proof.
  induction l as [|x l IH]; [done |]. destruct x as [m'|n].
  - rewrite (filter_cons_False (λ r, is_notif r = true) (ModalRef m')) by done.
    destruct (decide (m' = m)) as [->|Hne].
    + rewrite filter_cons_False by (intros H; by apply H). exact IH.
    + rewrite filter_cons_True by congruence.
      rewrite filter_cons_False by done. exact IH.
  - rewrite (filter_cons_True (λ x, x ≠ ModalRef m)) by done.
    rewrite !filter_cons_True by done. by rewrite IH.
Qed.

(** Where at most one modal overlay is in the document, none is left once
    one that was there is removed. *)
Lemma no_modal_after_teardown m (l : list ref) :
  length (filter (λ r, is_modal r = true) l) ≤ 1 → ModalRef m ∈ l →
  filter (λ r, is_modal r = true) (filter (λ x, x ≠ ModalRef m) l) = [].
Proof.
  induction l as [|x l IH]; [done |]. intros Hlen Hin.
  destruct (decide (x = ModalRef m)) as [->|Hne].
  - rewrite filter_cons_True in Hlen by done. simpl in Hlen.
    rewrite (filter_cons_False (λ x, x ≠ ModalRef m)) by (intros H; by apply H).
    apply nil_length_inv.
    pose proof (length_filter_filter (λ r, is_modal r = true) (λ y, y ≠ ModalRef m) l). lia.
  - apply elem_of_cons in Hin as [Heq|Hin]; [congruence |].
    rewrite (filter_cons_True (λ x, x ≠ ModalRef m)) by done.
    destruct (is_modal x) eqn:Hx.
    + exfalso. rewrite filter_cons_True in Hlen by done. simpl in Hlen.
      assert (ModalRef m ∈ filter (λ r, is_modal r = true) l) as Hm
        by (apply list_elem_of_filter; done).
      destruct (filter (λ r, is_modal r = true) l); [by apply elem_of_nil in Hm | simpl in Hlen; lia].
    + rewrite filter_cons_False in Hlen by congruence.
      rewrite filter_cons_False by congruence. by apply IH.
Qed.

Lemma no_notification_after_removal w :
  length (notifications_in_document w) ≤ 1 →
  filter (λ r, is_notif r = true) (body_without is_notif w) = [].
Proof.
  unfold notifications_in_document, body_without. generalize (body w) as l.
  induction l as [|x l IH]; [done |]. intros Hlen. simpl find.
  destruct (is_notif x) eqn:Hx.
  - rewrite filter_cons_True in Hlen by done. simpl in Hlen.
    rewrite filter_cons_False by (intros H; by apply H).
    apply nil_length_inv.
    pose proof (length_filter_filter (λ r, is_notif r = true) (λ y, y ≠ x) l). lia.
  - rewrite filter_cons_False in Hlen by congruence. specialize (IH Hlen).
    destruct (find is_notif l) as [r|] eqn:Hf.
    + apply find_some in Hf as [_ Hr].
      rewrite filter_cons_True by congruence.
      rewrite filter_cons_False by congruence. exact IH.
    + rewrite filter_cons_False by congruence. exact IH.
Qed.

Lemma modals_without_notification w :
  filter (λ r, is_modal r = true) (body_without is_notif w) = modals_in_document w.
Proof.
  unfold body_without, modals_in_document.
  destruct (find is_notif (body w)) as [r|] eqn:Hf; [| done].
  apply find_some in Hf as [_ Hr]. destruct r as [m|n]; [done |].
  apply filter_modal_without_notif.
Qed.

Lemma notifications_without_modal w :
  filter (λ r, is_notif r = true) (body_without is_modal w) = notifications_in_document w.
Proof.
  unfold body_without, notifications_in_document.
  destruct (find is_modal (body w)) as [r|] eqn:Hf; [| done].
  apply find_some in Hf as [_ Hr]. destruct r as [m|n]; [| done].
  apply filter_notif_without_modal.
Qed.

Lemma tidy_with_now v w :
  tidy w → Forall (λ t, v ≤ fst t) (timers w) → tidy (with_now v w).
Proof. intros [] Hv. constructor; done. Qed.

Lemma tidy_popped due t rest w :
  sorted (timers w) → tidy w → timers w = (due, t) :: rest → tidy (popped due rest w).
Proof.
  intros Hs [Ha Hb Ht Hsingle Ho] Heq. constructor; try done.
  - apply (ahead_popped due t); [by rewrite <- Heq | done | done].
  - simpl. rewrite Heq in Ht. by apply Forall_cons in Ht as [_ ?].
Qed.

Lemma tidy_run_task due t w :
  wf w → tidy w → notif_task_below (length (notifs w)) (due, t) → tidy (run_task t w).
Proof.
  intros Hwf [Ha Hb Ht Hsingle Ho] Hbelow. constructor.
  - by apply ahead_run_task.
  - rewrite notifs_run_task. rewrite Forall_forall in Hb |- *. intros r Hr.
    apply Hb. by eapply body_run_task_subseteq.
  - rewrite notifs_run_task.
    destruct (timers_run_task t w) as [-> | (n & -> & ->)]; [done |].
    apply Forall_enqueue. split; [exact Hbelow | done].
  - unfold notifications_in_document. rewrite body_run_task.
    destruct (removes t); [| done].
    etrans; [apply length_filter_filter | done].
  - rewrite overflow_run_task. unfold modals_in_document. rewrite body_run_task.
    destruct t as [m|n|n]; simpl; [| done |].
    + case_bool_decide as Hin.
      * rewrite no_modal_after_teardown; [done | apply (wf_single _ Hwf) | done].
      * by rewrite filter_absent.
    + by rewrite filter_modal_without_notif.
Qed.

Lemma tidy_run_due fuel target w :
  wf w → tidy w → tidy (run_due fuel target w).
Proof.
  revert w. induction fuel as [|fuel IH]; intros w Hwf Ht; [done |].
  rewrite run_due_S. destruct (timers w) as [|[due t] rest] eqn:Heq; [done |].
  destruct (Nat.leb due target); [| done].
  assert (wf (popped due rest w)) as Hwf' by (by eapply wf_popped).
  apply IH; [by apply wf_run_task |].
  apply (tidy_run_task due); [done | | ].
  - eapply tidy_popped; [apply (wf_sorted _ Hwf) | done | done].
  - pose proof (tidy_timers _ Ht) as Hts. rewrite Heq in Hts.
    by apply Forall_cons in Hts as [? _].
Qed.

Lemma tidy_wait ms w : wf w → tidy w → tidy (wait ms w).
Proof.
  intros Hwf Ht. unfold wait. apply tidy_with_now; [by apply tidy_run_due |].
  eapply Forall_impl; [apply run_due_drained; [apply (wf_sorted _ Hwf) | done] |].
  simpl. intros; lia.
Qed.

Lemma tidy_closeModal m w : tidy w → tidy (closeModal m w).
Proof.
  intros [Ha Hb Ht Hsingle Ho]. constructor; try done.
  - unfold ahead. rewrite closeModal_timers, closeModal_now.
    apply Forall_enqueue. split; [simpl; lia | done].
  - rewrite closeModal_timers. apply Forall_enqueue. split; [exact I | done].
Qed.

Lemma tidy_closeOnEscape m key w : tidy w → tidy (closeOnEscape m key w).
Proof.
  intros H. unfold closeOnEscape. destruct (String.eqb key "Escape"); [| done].
  apply (tidy_closeModal m) in H. destruct H. constructor; done.
Qed.

Lemma tidy_keyDown key w : tidy w → tidy (keyDown key w).
Proof.
  unfold keyDown. generalize (keydown w) as l. intros l. revert w.
  induction l as [|x l IH]; intros w H; [done |]. simpl.
  by apply IH, tidy_closeOnEscape.
Qed.

Lemma tidy_updateContent m c w : tidy w → tidy (updateContent m c w).
Proof. intros []. constructor; done. Qed.

Lemma tidy_backdropClick m w : tidy w → tidy (backdropClick m w).
Proof.
  intros H. unfold backdropClick. destruct (modals w !! m) as [el|]; [| done].
  destruct (m_outside el); [by apply tidy_closeModal | done].
Qed.

Lemma tidy_notifCloseClick n w : tidy w → NotifRef n ∈ body w → tidy (notifCloseClick n w).
Proof.
  intros [Ha Hb Ht Hsingle Ho] Hin.
  assert (n < length (notifs w)) as Hn.
  { rewrite Forall_forall in Hb. apply (Hb _ Hin). }
  constructor; simpl; rewrite ?length_alter; try done.
  - unfold ahead. simpl. apply Forall_enqueue. split; [simpl; lia | done].
  - apply Forall_enqueue. split; [exact Hn | done].
Qed.

Lemma showModal_notifs o w : notifs (fst (showModal o w)) = notifs w.
Proof. unfold showModal, getModalById. by destruct (find _ _). Qed.

Lemma showModal_overflow o w : overflow (fst (showModal o w)) = "hidden".
Proof. done. Qed.

Lemma showNotification_notifs message type duration w :
  length (notifs (fst (showNotification message type duration w))) = S (length (notifs w)).
Proof.
  unfold showNotification, queryNotification. destruct (find _ _); simpl;
    rewrite length_app; simpl; lia.
Qed.

Lemma showNotification_overflow message type duration w :
  overflow (fst (showNotification message type duration w)) = overflow w.
Proof. unfold showNotification, queryNotification. by destruct (find _ _). Qed.

Lemma tidy_showModal o w : wf w → tidy w → tidy (fst (showModal o w)).
Proof.
  intros Hwf [Ha Hb Ht Hsingle Ho]. constructor.
  - unfold ahead. by rewrite showModal_timers, showModal_now.
  - rewrite showModal_notifs, showModal_body. apply Forall_app. split.
    + rewrite Forall_forall in Hb |- *. intros r Hr%body_without_subseteq. by apply Hb.
    + constructor; [exact I | constructor].
  - by rewrite showModal_notifs, showModal_timers.
  - unfold notifications_in_document. rewrite showModal_body, filter_app.
    rewrite filter_singleton_False; [| exact [] | simpl; congruence].
    by rewrite app_nil_r, notifications_without_modal.
  - rewrite showModal_overflow, (modals_after_showModal o w Hwf). done.
Qed.

Lemma tidy_showNotification message type duration w :
  tidy w → tidy (fst (showNotification message type duration w)).
Proof.
  intros [Ha Hb Ht Hsingle Ho]. constructor.
  - unfold ahead. rewrite showNotification_timers, showNotification_now.
    apply Forall_enqueue. split; [simpl; lia | done].
  - rewrite showNotification_notifs, showNotification_body. apply Forall_app. split.
    + rewrite Forall_forall in Hb |- *. intros r Hr%body_without_subseteq.
      specialize (Hb r Hr). destruct r; simpl in *; [done | lia].
    + constructor; [simpl; lia | constructor].
  - rewrite showNotification_notifs, showNotification_timers.
    apply Forall_enqueue. split; [unfold notif_task_below; simpl; lia |].
    eapply Forall_impl; [exact Ht |]. intros [d t]. unfold notif_task_below.
    simpl. destruct t; [done | lia | lia].
  - unfold notifications_in_document. rewrite showNotification_body, filter_app.
    rewrite no_notification_after_removal by done.
    rewrite filter_singleton_True; [simpl; lia | exact [] | done].
  - rewrite showNotification_overflow. unfold modals_in_document.
    rewrite showNotification_body, filter_app.
    rewrite filter_singleton_False; [| exact [] | simpl; congruence].
    by rewrite app_nil_r, modals_without_notification.
Qed.

Lemma tidy_empty_page : tidy empty_page.
Proof.
  constructor; try done; by constructor.
Qed.

Lemma tidy_step e w : wf w → tidy w → tidy (step e w).
Proof.
  intros Hwf H. destruct e; cbn [step].
  - by apply tidy_showModal.
  - case_bool_decide; [by apply tidy_closeModal | done].
  - by apply tidy_updateContent.
  - case_bool_decide; [by apply tidy_closeModal | done].
  - case_bool_decide; [by apply tidy_backdropClick | done].
  - by apply tidy_keyDown.
  - by apply tidy_showNotification.
  - case_bool_decide; [by apply tidy_notifCloseClick | done].
  - by apply tidy_wait.
Qed.

Lemma reachable_tidy w : reachable w → tidy w.
Proof.
  induction 1 as [|e w Hr IH]; [apply tidy_empty_page |].
  apply tidy_step; [by apply reachable_wf | done].
Qed.





(** A node no due callback removes stays in the document. *)
Lemma notification_stays n fuel target w :
  (∀ d t, (d, t) ∈ timers w → t = NotifAuto n ∨ t = NotifRemove n → target < d) →
  NotifRef n ∈ body w → NotifRef n ∈ body (run_due fuel target w).
Proof.
  revert w. induction fuel as [|fuel IH]; intros w Hlate Hin; [done |].
  rewrite run_due_S. destruct (timers w) as [|[due t] rest] eqn:Heq; [done |].
  destruct (Nat.leb_spec due target) as [Hle|Hgt]; [| done].
  assert (t ≠ NotifAuto n ∧ t ≠ NotifRemove n) as [Hna Hnr].
  { split; intros ->; (eapply Nat.lt_irrefl, Nat.le_lt_trans; [exact Hle |]);
      (eapply Hlate; [left | auto]). }
  apply IH.
  - intros d t' Hd Ht'.
    destruct (timers_run_task t (popped due rest w)) as [Hsame | (n' & -> & Hnew)].
    + rewrite Hsame in Hd. simpl in Hd. apply (Hlate d t'); [by right | done].
    + rewrite Hnew in Hd. simpl in Hd. apply elem_of_enqueue in Hd as [Hd|Hd].
      * injection Hd as -> ->. destruct Ht' as [Ht'|Ht']; [done | congruence].
      * apply (Hlate d t'); [by right | done].
  - apply body_run_task_other; [| done].
    destruct t; simpl; congruence.
Qed.

Lemma modal_stays m fuel target w :
  (∀ d, (d, ModalTeardown m) ∈ timers w → target < d) →
  ModalRef m ∈ body w →
  ModalRef m ∈ body (run_due fuel target w)
  ∧ count_closed m (run_due fuel target w) = count_closed m w.
Proof.
  revert w. induction fuel as [|fuel IH]; intros w Hlate Hin; [done |].
  rewrite run_due_S. destruct (timers w) as [|[due t] rest] eqn:Heq; [done |].
  destruct (Nat.leb_spec due target) as [Hle|Hgt]; [| done].
  assert (t ≠ ModalTeardown m) as Hne.
  { intros ->. eapply Nat.lt_irrefl, Nat.le_lt_trans; [exact Hle |]. apply Hlate. left. }
  destruct (IH (run_task t (popped due rest w))) as [Hb Hc].
  - intros d Hd.
    destruct (timers_run_task t (popped due rest w)) as [Hsame | (n' & -> & Hnew)].
    + rewrite Hsame in Hd. simpl in Hd. apply Hlate. by right.
    + rewrite Hnew in Hd. simpl in Hd. apply elem_of_enqueue in Hd as [Hd|Hd]; [done |].
      apply Hlate. by right.
  - apply body_run_task_other; [| done].
    destruct t; simpl; congruence.
  - split; [done |]. rewrite Hc, count_closed_run_task.
    rewrite decide_False by done. unfold count_closed. simpl. lia.
Qed.

(** The automatic dismissal, once due, takes the notification out within
    300 ms. *)
Lemma dismissal_runs n d fuel target w :
  sorted (timers w) → ahead w → budget (timers w) ≤ fuel →
  (d, NotifAuto n) ∈ timers w → d + 300 ≤ target →
  NotifRef n ∉ body (run_due fuel target w).
Proof.
  revert w. induction fuel as [|fuel IH]; intros w Hs Ha Hb Hin Hd.
  { assert (budget (timers w) = 0) as Hnil%budget_nil by lia.
    rewrite Hnil in Hin. by apply elem_of_nil in Hin. }
  rewrite run_due_S. destruct (timers w) as [|[due t] rest] eqn:Heq.
  { by apply elem_of_nil in Hin. }
  assert (due ≤ d) as Hdue.
  { apply elem_of_cons in Hin as [Hin|Hin]; [injection Hin; lia |].
    destruct Hs as [Hhead _]. rewrite Forall_forall in Hhead.
    apply (Hhead _ Hin). }
  destruct (Nat.leb_spec due target) as [_|Hgt]; [| lia].
  pose proof (budget_run_task due t rest w) as Hbudget.
  assert (sorted (timers (run_task t (popped due rest w)))) as Hs'.
  { apply sorted_run_task. simpl. by eapply sorted_tail. }
  assert (ahead (run_task t (popped due rest w))) as Ha'.
  { apply ahead_run_task. by apply (ahead_popped due t). }
  destruct (decide (t = NotifAuto n)) as [->|Hne].
  - destruct (decide (NotifRef n ∈ body w)) as [Hbody|Hbody].
    + apply removal_runs; [done | lia |].
      exists (Nat.max (now w) due + 300). split.
      * unfold run_task. simpl. unfold notifAuto. simpl.
        rewrite bool_decide_eq_true_2 by done. simpl.
        apply elem_of_enqueue. by left.
      * assert (now w ≤ due).
        { unfold ahead in Ha. rewrite Heq in Ha. by apply Forall_cons in Ha as [? _]. }
        lia.
    + apply gone_stays_gone. intros H%body_run_task_subseteq. done.
  - apply (IH _ Hs' Ha'); [lia | | done].
    apply elem_of_cons in Hin as [Hin|Hin]; [congruence |].
    destruct (timers_run_task t (popped due rest w)) as [-> | (n' & _ & ->)]; [done |].
    apply elem_of_enqueue. by right.
Qed.



Lemma closeOnEscape_timers m' key w x :
  x ∈ timers (closeOnEscape m' key w) →
  x ∈ timers w ∨ x = (now w + 300, ModalTeardown m').
Proof.
  unfold closeOnEscape. destruct (String.eqb key "Escape"); [| by left].
  simpl. intros [->|H]%elem_of_enqueue; [by right | by left].
Qed.

Lemma keyDown_fold_timers key l w x :
  x ∈ timers (foldl (λ w m, closeOnEscape m key w) w l) →
  x ∈ timers w ∨ ∃ m', x = (now w + 300, ModalTeardown m').
Proof.
  revert w. induction l as [|m' l IH]; intros w; [by left |].
  simpl foldl. intros [H | [m'' ->]]%IH.
  - apply closeOnEscape_timers in H as [H | ->]; [by left | right; by eexists].
  - right. exists m''.
    destruct (closeOnEscape_frame m' key w) as (_ & _ & -> & _). done.
Qed.

(** A dismissal of a modal that was just shown leaves the document as it
    is, and every teardown of the modal is due 300 ms later. *)
Lemma dismissal_frame o w e :
  wf w →
  let w1 := fst (showModal o w) in
  let m := snd (showModal o w) in
  dismissal o m e →
  body (step e w1) = body w1
  ∧ ∀ d, (d, ModalTeardown m) ∈ timers (step e w1) → d = now w + 300.
Proof.
  intros H. cbv zeta. rewrite showModal_snd. set (m := length (modals w)).
  assert (∀ d, (d, ModalTeardown m) ∉ timers w) as Hfresh.
  { intros d Hd. pose proof (wf_timers _ H) as Hts. rewrite Forall_forall in Hts.
    specialize (Hts _ Hd). unfold modal_task_below in Hts. simpl in Hts. unfold m in Hts. lia. }
  assert (ModalRef m ∈ body (fst (showModal o w))) as Hin.
  { rewrite showModal_body. apply elem_of_app. right. left. }
  assert (m < length (modals (fst (showModal o w)))) as Hm.
  { rewrite showModal_modals, length_app. simpl. lia. }
  assert (body (closeModal m (fst (showModal o w))) = body (fst (showModal o w))
          ∧ ∀ d, (d, ModalTeardown m) ∈ timers (closeModal m (fst (showModal o w))) →
                 d = now w + 300) as Hclose.
  { split; [apply closeModal_body |]. intros d.
    rewrite closeModal_timers, showModal_now, showModal_timers.
    intros [Hd|Hd]%elem_of_enqueue; [congruence | by apply Hfresh in Hd]. }
  intros [-> | [-> | [-> | [-> Hout]]]]; cbn [step].
  - by rewrite bool_decide_eq_true_2.
  - by rewrite bool_decide_eq_true_2.
  - pose proof (keyDown_fold "Escape" (keydown (fst (showModal o w))) (fst (showModal o w)))
      as (Hb & _). split; [exact Hb |].
    intros d [Hd | [m' Hd]]%keyDown_fold_timers.
    + rewrite showModal_timers in Hd. by apply Hfresh in Hd.
    + rewrite showModal_now in Hd. congruence.
  - rewrite bool_decide_eq_true_2 by done. unfold backdropClick.
    assert (modals (fst (showModal o w)) !! m = Some (modal_of o)) as ->.
    { rewrite showModal_modals. unfold m. by rewrite list_lookup_middle. }
    cbn [m_outside modal_of]. rewrite Hout. exact Hclose.
Qed.

Lemma body_wait_included r ms w : r ∈ body (wait ms w) → r ∈ body w.
Proof.
  intros Hin. destruct (decide (r ∈ body w)) as [|Hn]; [done |].
  by apply (body_wait_subseteq r ms) in Hn.
Qed.



(** X17: a click on the backdrop of a modal that was just shown closes it
    unless the option [closeOnOutsideClick] is the boolean [false]: a
    missing option, [null], [0] or the empty string leave the listener in
    place.  The close button closes it whatever the option. *)
Theorem backdrop_closes_unless_false (w : world) (o : options) :
  let w1 := fst (showModal o w) in
  let m := snd (showModal o w) in
  step (ClickCloseButton m) w1 = closeModal m w1
  ∧ (closeOnOutsideClick o = VBool false → step (ClickBackdrop m) w1 = w1)
  ∧ (closeOnOutsideClick o ≠ VBool false →
       step (ClickBackdrop m) w1 = closeModal m w1).
Proof.
  cbv zeta. rewrite showModal_snd.
  assert (ModalRef (length (modals w)) ∈ body (fst (showModal o w))) as Hin.
  { rewrite showModal_body. apply elem_of_app. right. left. }
  assert (modals (fst (showModal o w)) !! length (modals w) = Some (modal_of o)) as Hm.
  { rewrite showModal_modals. by rewrite list_lookup_middle. }
  cbn [step]. rewrite !bool_decide_eq_true_2 by done.
  unfold backdropClick. rewrite Hm. cbn [m_outside modal_of].
  split_and!; [done | by intros -> |].
  intros Hne. destruct (closeOnOutsideClick o) as [| |[]| | | | |]; done.
Qed.

Lemma backdrop_closes_unless_false_witness :
  let w1 := fst (showModal plain_options empty_page) in
  let w2 := fst (showModal terms_options w1) in
  step (ClickCloseButton 0) w1 = closeModal 0 w1
  ∧ step (ClickBackdrop 0) w1 = w1
  ∧ step (ClickBackdrop 1) w2 = closeModal 1 w2.
Proof.
  split_and!.
  - apply (backdrop_closes_unless_false empty_page plain_options).
  - apply (proj1 (proj2 (backdrop_closes_unless_false empty_page plain_options))).
    reflexivity.
  - apply (proj2 (proj2 (backdrop_closes_unless_false
                           (fst (showModal plain_options empty_page)) terms_options))).
    discriminate.
Defined.

End OverlayFacts.


(** ** The wiring *)

Module WiringFacts.
Import Js Forms Wiring.
#[local] Open Scope list_scope.

Lemma onDOMContentLoaded_page_of s :
  onDOMContentLoaded (page_of s)
  = {| windowScroll := true; documentClick := true; navLinkClicks := true;
       toggleClick := true; documentKeydown := true |}.
Proof. reflexivity. Qed.

Lemma closeMobileMenu_page_of s :
  closeMobileMenu (page_of s) = (Return (), page_of (Nav.closeMobileMenu s)).
Proof. reflexivity. Qed.

Lemma toggleMobileMenu_page_of s :
  toggleMobileMenu (page_of s) = (Return (), page_of (Nav.toggleMobileMenu s)).
Proof.
  unfold toggleMobileMenu, Nav.toggleMobileMenu, Nav.is_open. simpl.
  by destruct (classList_contains "active" (Nav.classList_toggle _ _)).
Qed.

Lemma handleClickOutside_page_of t s :
  handleClickOutside t (page_of s) = (Return (), page_of (Nav.handleClickOutside t s)).
Proof.
  unfold handleClickOutside, Nav.handleClickOutside, Nav.is_open. simpl.
  destruct (classList_contains "active" (Nav.navClasses s)); [| done].
  destruct (Nav.navLinks_contains t); [done |]. simpl.
  assert (button_contains {| html := Nav.toggleHTML s; kids := Nav.toggleKids s |} t
          = Nav.menuToggle_contains s t) as -> by (by destruct t).
  destruct (Nav.menuToggle_contains s t); done.
Qed.

Lemma navLinkClick_page_of s :
  navLinkClick (page_of s) = (Return (), page_of (Nav.navLinkClick s)).
Proof.
  unfold navLinkClick, Nav.navLinkClick, Nav.is_open. simpl.
  by destruct (classList_contains "active" (Nav.navClasses s)).
Qed.

Lemma onKeydown_page_of key s :
  onKeydown key (page_of s) = (Return (), page_of (Nav.onKeydown key s)).
Proof.
  unfold onKeydown, Nav.onKeydown, Nav.is_open. simpl.
  destruct (String.eqb key "Escape"); [| done].
  by destruct (classList_contains "active" (Nav.navClasses s)).
Qed.

(** X18: on a page where the toggle button and the menu both exist, the
    listeners installed at [DOMContentLoaded] make the page the menu
    machine: every click and key press takes it to the state the machine
    goes to, and no listener throws. *)
Theorem wired_page_is_the_menu_machine (s : Nav.nav) (e : Nav.event) :
  step (onDOMContentLoaded (page_of s)) e (page_of s) = (page_of (Nav.step e s), []).
Proof.
  rewrite onDOMContentLoaded_page_of.
  destruct e as [t|key]; cbn [step Nav.step].
  - unfold click, Nav.click, fire. cbn [toggleClick navLinkClicks documentClick fst snd].
    destruct t as [|node| |in_menu|]; cbn [in_document page_of menuToggle navLinks kids].
    + rewrite bool_decide_eq_true_2 by done.
      rewrite toggleMobileMenu_page_of. cbn [fst snd].
      by rewrite handleClickOutside_page_of.
    + destruct (bool_decide (node ∈ Nav.toggleKids s)); [| reflexivity].
      rewrite toggleMobileMenu_page_of. cbn [fst snd].
      by rewrite handleClickOutside_page_of.
    + rewrite bool_decide_eq_true_2 by done. cbn [fst snd].
      by rewrite handleClickOutside_page_of.
    + assert ((if in_menu then bool_decide (is_Some (Some (Nav.navClasses s))) else true)
              = true) as -> by (by destruct in_menu).
      rewrite navLinkClick_page_of. cbn [fst snd].
      by rewrite handleClickOutside_page_of.
    + cbn [fst snd]. by rewrite handleClickOutside_page_of.
  - unfold fire. cbn [documentKeydown fst snd]. by rewrite onKeydown_page_of.
Qed.

(** X19: with the menu in the page but no toggle button, [initMobileMenu]
    installs nothing: no key closes the menu; a click outside the open
    menu makes [handleClickOutside] throw a [TypeError] and leaves the menu
    open and the page as it was; only a click on a nav-link closes it. *)
Theorem missing_toggle_leaves_menu_open (classes : list string) (next : nat)
    (scroll key : string) :
  "active" ∈ classes →
  let p := without_toggle classes next scroll in
  let ls := onDOMContentLoaded p in
  toggleClick ls = false ∧ documentKeydown ls = false
  ∧ step ls (Nav.Key key) p = (p, [])
  ∧ step ls (Nav.Click Nav.Elsewhere) p
    = (p, [TypeError "Cannot read properties of null (reading 'contains')"])
  ∧ step ls (Nav.Click Nav.InMenu) p = (p, [])
  ∧ ∀ in_menu, step ls (Nav.Click (Nav.OnNavLink in_menu)) p
               = (without_toggle (classList_remove "active" classes) next "", []).
Proof.
  intros Hactive. cbv zeta.
  assert (classList_contains "active" classes = true) as Hc
    by (by apply bool_decide_eq_true).
  assert (classList_contains "active" (classList_remove "active" classes) = false) as Hr
    by apply NavFacts.contains_remove.
  split_and!; try reflexivity.
  - cbn. unfold handleClickOutside. cbn. by rewrite Hc.
  - cbn. unfold handleClickOutside. cbn. by rewrite Hc.
  - intros in_menu. unfold step, click.
    assert (in_document (Nav.OnNavLink in_menu) (without_toggle classes next scroll) = true)
      as -> by (by destruct in_menu).
    unfold fire, navLinkClick. cbn. rewrite Hc. cbn.
    unfold handleClickOutside. cbn. by rewrite Hr.
Qed.

Lemma missing_toggle_leaves_menu_open_witness :
  let p := without_toggle ["nav-links"; "active"] 0 "hidden" in
  let ls := onDOMContentLoaded p in
  toggleClick ls = false ∧ documentKeydown ls = false
  ∧ step ls (Nav.Key "Escape") p = (p, [])
  ∧ step ls (Nav.Click Nav.Elsewhere) p
    = (p, [TypeError "Cannot read properties of null (reading 'contains')"])
  ∧ step ls (Nav.Click Nav.InMenu) p = (p, [])
  ∧ ∀ in_menu, step ls (Nav.Click (Nav.OnNavLink in_menu)) p
               = (without_toggle (classList_remove "active" ["nav-links"; "active"]) 0 "", []).
Proof.
  apply (missing_toggle_leaves_menu_open ["nav-links"; "active"] 0 "hidden" "Escape").
  set_solver.
Defined.

(** X20: with no menu in the page, nothing any listener does changes the
    page: a click on a nav-link makes its listener throw a [TypeError], a
    click on the toggle button reaches no listener of the script, and
    [handleClickOutside] returns at its first test. *)
Theorem missing_menu_changes_nothing (b : option button) (next : nat)
    (scroll : string) (e : Nav.event) :
  let p := without_menu b next scroll in
  let ls := onDOMContentLoaded p in
  fst (step ls e p) = p
  ∧ (snd (step ls e p) ≠ [] ↔ e = Nav.Click (Nav.OnNavLink false))
  ∧ step ls (Nav.Click (Nav.OnNavLink false)) p
    = (p, [TypeError "Cannot read properties of null (reading 'classList')"]).
Proof.
  cbv zeta.
  assert (onDOMContentLoaded (without_menu b next scroll)
          = initNavigation no_listeners) as ->.
  { unfold onDOMContentLoaded, initMobileMenu. simpl. by destruct b. }
  split_and!; [| | reflexivity].
  - destruct e as [t|key]; [| reflexivity]. unfold step, click.
    destruct (in_document t (without_menu b next scroll)) eqn:Hin; [| reflexivity].
    destruct t as [|node| |[]|]; try reflexivity; by vm_compute in Hin.
  - destruct e as [t|key]; [| by split]. unfold step, click.
    destruct t as [|node| |[]|];
      (destruct (in_document _ (without_menu b next scroll)) eqn:Hin;
       [| try (by split); by vm_compute in Hin]);
      try (by split); by vm_compute in Hin.
Qed.

End WiringFacts.


(** ** Scroll animations *)

Module RevealFacts.
Import Reveal.
#[local] Open Scope list_scope.
#[local] Open Scope nat_scope.

Lemma callbacks_concat batches s :
  foldl (λ s b, callback b s) s batches = foldl on_entry s (concat batches).
Proof.
  revert s. induction batches as [|b batches IH]; intros s; [done |].
  simpl. by rewrite foldl_app, IH.
Qed.

Lemma seen_snoc i entries e :
  seen i (entries ++ [e]) = seen i entries || (Nat.eqb (target e) i && isIntersecting e).
Proof. unfold seen. rewrite existsb_app. simpl. by rewrite orb_false_r. Qed.

Lemma reveal_entries (elements : list style) (entries : list entry) (i : nat) :
  i < length elements →
  let s := foldl on_entry (initScrollAnimations elements) entries in
  fadeElements s !! i = Some (if seen i entries then shown_style else hidden_style)
  ∧ (i ∈ observed s ↔ seen i entries = false).
Proof.
  intros Hi. cbv zeta. induction entries as [|e entries IH] using rev_ind.
  - unfold initScrollAnimations. simpl.
    destruct (Nat.ltb_spec 0 (length elements)) as [_|]; [| lia]. simpl. split.
    + rewrite list_lookup_fmap. destruct (lookup_lt_is_Some_2 _ _ Hi) as [st Hst].
      by rewrite Hst.
    + split; [done |]. intros _. apply elem_of_seq. lia.
  - rewrite foldl_app, seen_snoc. destruct IH as [Hst Hobs].
    destruct e as [t [|]]; cbn [foldl on_entry isIntersecting target];
      [| by rewrite !andb_false_r, !orb_false_r].
    rewrite andb_true_r. cbn [fadeElements observed].
    destruct (Nat.eqb_spec t i) as [->|Hne].
    + rewrite orb_true_r. split.
      * rewrite list_lookup_alter_eq, Hst. by destruct (seen i entries).
      * split; [| done]. intros [H _]%list_elem_of_filter. done.
    + rewrite orb_false_r. split.
      * by rewrite list_lookup_alter_ne.
      * rewrite list_elem_of_filter. rewrite <- Hobs. naive_solver.
Qed.

(** X21: after [initScrollAnimations], whatever the observer delivers and
    in however many deliveries, each [.fade-in] element is in one of two
    states: hidden and still observed, when no entry for it was
    intersecting; or shown and no longer observed, when one was.  A shown
    element is never hidden again. *)
Theorem reveal_is_one_shot (elements : list style) (batches : list (list entry))
    (i : nat) :
  i < length elements →
  let s := foldl (λ s b, callback b s) (initScrollAnimations elements) batches in
  fadeElements s !! i
  = Some (if seen i (concat batches) then shown_style else hidden_style)
  ∧ (i ∈ observed s ↔ seen i (concat batches) = false).
Proof.
  intros Hi. cbv zeta. rewrite callbacks_concat. by apply reveal_entries.
Qed.

Lemma reveal_is_one_shot_witness :
  let elements := [ {| opacity := ""; transform := ""; transition := "" |};
                    {| opacity := "0.5"; transform := ""; transition := "none" |} ] in
  let batches := [ [ {| target := 0; isIntersecting := false |};
                     {| target := 1; isIntersecting := true |} ];
                   [ {| target := 1; isIntersecting := false |} ] ] in
  let s := foldl (λ s b, callback b s) (initScrollAnimations elements) batches in
  fadeElements s !! 1
  = Some (if seen 1 (concat batches) then shown_style else hidden_style)
  ∧ (1 ∈ observed s ↔ seen 1 (concat batches) = false).
Proof.
  apply (reveal_is_one_shot
           [ {| opacity := ""; transform := ""; transition := "" |};
             {| opacity := "0.5"; transform := ""; transition := "none" |} ]
           [ [ {| target := 0; isIntersecting := false |};
               {| target := 1; isIntersecting := true |} ];
             [ {| target := 1; isIntersecting := false |} ] ] 1).
  simpl. lia.
Defined.

End RevealFacts.


(** ** [debounce] and [throttle] *)

Module TimingFacts.
Import Js Timing.
#[local] Open Scope list_scope.
#[local] Open Scope nat_scope.

Section Debounce.
Context {A : Type}.
Implicit Types (s : debounced A) (a : A).

Lemma executedFunction_single a s :
  db_single A s →
  db_timers A (executedFunction A a s) = [(db_now A s + db_wait A s, (db_next A s, a))]
  ∧ db_timeout A (executedFunction A a s) = Some (db_next A s).
Proof.
  intros [Hnil | (due & id & args & Ht & Hid)]; simpl; rewrite ?Hnil, ?Ht, ?Hid; [done |].
  unfold clearTimeout. rewrite filter_cons_False by (simpl; intros H; by apply H). done.
Qed.

Lemma db_wait_for_early due id a ms s :
  db_timers A s = [(due, (id, a))] → db_now A s + ms < due →
  db_timers A (db_wait_for A ms s) = db_timers A s
  ∧ db_timeout A (db_wait_for A ms s) = db_timeout A s
  ∧ db_calls A (db_wait_for A ms s) = db_calls A s.
Proof.
  intros Ht Hlt. unfold db_wait_for. rewrite Ht. simpl. rewrite Ht.
  rewrite (proj2 (Nat.leb_gt _ _)) by lia. simpl. by rewrite Ht.
Qed.

Lemma db_wait_for_late due id a ms s :
  db_timers A s = [(due, (id, a))] → db_timeout A s = Some id →
  db_now A s ≤ due → due ≤ db_now A s + ms →
  db_timers A (db_wait_for A ms s) = []
  ∧ db_timeout A (db_wait_for A ms s) = Some id
  ∧ db_calls A (db_wait_for A ms s) = db_calls A s ++ [(due, a)].
Proof.
  intros Ht Hid Hnow Hle. unfold db_wait_for. rewrite Ht. simpl. rewrite Ht.
  rewrite (proj2 (Nat.leb_le _ _)) by lia. simpl.
  rewrite Hid, Nat.max_r by lia. done.
Qed.

Lemma db_wait_for_idle ms s :
  db_timers A s = [] → 
  db_timers A (db_wait_for A ms s) = []
  ∧ db_timeout A (db_wait_for A ms s) = db_timeout A s
  ∧ db_calls A (db_wait_for A ms s) = db_calls A s.
Proof. intros Ht. unfold db_wait_for. rewrite Ht. simpl. by rewrite Ht. Qed.

Lemma db_reachable_single s : db_reachable A s → db_single A s ∧ db_ahead A s.
Proof.
  induction 1 as [wait now | a s Hr [IH1 IH2] | ms s Hr [IH1 IH2]].
  - split; [by left | constructor].
  - destruct (executedFunction_single a s IH1) as [Ht Hid]. split.
    + right. eauto.
    + unfold db_ahead. rewrite Ht. constructor; [simpl; lia | constructor].
  - destruct IH1 as [Hnil | (due & id & args & Ht & Hid)].
    + destruct (db_wait_for_idle ms s Hnil) as (Ht' & _ & _). split; [by left |].
      unfold db_ahead. rewrite Ht'. constructor.
    + assert (db_now A s ≤ due) as Hnow.
      { unfold db_ahead in IH2. rewrite Ht in IH2. by apply Forall_cons in IH2 as [? _]. }
      destruct (decide (due ≤ db_now A s + ms)) as [Hle | Hgt].
      * destruct (db_wait_for_late due id args ms s Ht Hid Hnow Hle) as (Ht' & _ & _).
        split; [by left |]. unfold db_ahead. rewrite Ht'. constructor.
      * destruct (db_wait_for_early due id args ms s Ht) as (Ht' & Hid' & _); [lia |].
        split; [right; exists due, id, args; by rewrite Ht', Hid' |].
        unfold db_ahead. rewrite Ht', Ht. constructor; [simpl; lia | constructor].
Qed.

Lemma db_wait_for_now ms s : db_now A (db_wait_for A ms s) = db_now A s + ms.
Proof. reflexivity. Qed.

Lemma db_run_due_wait fuel target s : db_wait A (db_run_due A fuel target s) = db_wait A s.
Proof.
  revert s. induction fuel as [|fuel IH]; intros s; [done |]. simpl.
  destruct (db_timers A s) as [|[due [id a]] rest]; [done |].
  destruct (Nat.leb due target); [| done]. by rewrite IH.
Qed.

Lemma db_wait_for_wait ms s : db_wait A (db_wait_for A ms s) = db_wait A s.
Proof. unfold db_wait_for. simpl. apply db_run_due_wait. Qed.

Lemma db_burst_just_called rest a s :
  just_called A a s → Forall (λ c, fst c < db_wait A s) rest →
  just_called A (default a (last (snd <$> rest))) (db_burst A rest s)
  ∧ db_calls A (db_burst A rest s) = db_calls A s
  ∧ db_now A (db_burst A rest s) = db_now A s + sum_list (fst <$> rest)
  ∧ db_wait A (db_burst A rest s) = db_wait A s.
Proof.
  revert a s. induction rest as [|[g a'] rest IH]; intros a s Hs Hgaps.
  - simpl. split_and!; [done | done | lia | done].
  - apply Forall_cons in Hgaps as [Hg Hgaps]. simpl in Hg.
    destruct Hs as (id & Ht & Hid).
    destruct (db_wait_for_early _ id a g s Ht) as (Ht' & Hid' & Hc'); [lia |].
    set (s1 := executedFunction A a' (db_wait_for A g s)).
    assert (db_single A (db_wait_for A g s)) as Hsingle.
    { right. eexists _, _, _. rewrite Ht', Hid'. eauto. }
    destruct (executedFunction_single a' _ Hsingle) as [Ht1 Hid1]. fold s1 in Ht1, Hid1.
    assert (db_wait A s1 = db_wait A s) as Hw1 by apply db_wait_for_wait.
    assert (db_now A s1 = db_now A s + g) as Hn1 by reflexivity.
    destruct (IH a' s1) as (Hj & Hc & Hn & Hw).
    { eexists. rewrite Ht1, Hid1. split; [| done]. by rewrite Hw1, Hn1, db_wait_for_wait. }
    { by rewrite Hw1. }
    change (db_burst A ((g, a') :: rest) s) with (db_burst A rest s1).
    split_and!.
    + rewrite fmap_cons. simpl snd.
      destruct rest as [|c rest']; [exact Hj |].
      rewrite fmap_cons, last_cons_cons. rewrite fmap_cons in Hj.
      destruct (last (c.2 :: (snd <$> rest'))) eqn:Hl; [exact Hj |].
      by apply last_None in Hl.
    + rewrite Hc. exact Hc'.
    + rewrite Hn, Hn1. rewrite fmap_cons. simpl. lia.
    + by rewrite Hw.
Qed.


(** X23: a debounced function never has more than one timer pending, and
    the pending timer is the one [timeout] names and is never overdue. *)
Theorem debounce_one_timer (s : debounced A) :
  db_reachable A s →
  length (db_timers A s) ≤ 1
  ∧ Forall (λ t, db_timeout A s = Some (fst (snd t)) ∧ db_now A s ≤ fst t) (db_timers A s).
Proof.
  intros [[Hnil | (due & id & args & Ht & Hid)] Ha]%db_reachable_single.
  - rewrite Hnil. split; [simpl; lia | constructor].
  - unfold db_ahead in Ha. rewrite Ht in *. split; [simpl; lia |].
    apply Forall_cons in Ha as [Hd _]. constructor; [done | constructor].
Qed.

End Debounce.


Lemma debounce_one_timer_witness :
  let s := db_wait_for nat 30 (executedFunction nat 2 (executedFunction nat 1 (debounce nat 100 0))) in
  length (db_timers nat s) ≤ 1
  ∧ Forall (λ t, db_timeout nat s = Some (fst (snd t)) ∧ db_now nat s ≤ fst t) (db_timers nat s).
Proof.
  apply (debounce_one_timer
           (db_wait_for nat 30 (executedFunction nat 2 (executedFunction nat 1 (debounce nat 100 0))))).
  repeat constructor.
Defined.

Section Throttle.
Context {A : Type} (func : A → outcome unit).
Implicit Types (s : throttled A) (a : A).

Lemma spaced_snoc limit (l : list (nat * A)) c :
  spaced A func limit (l ++ [c])
  ↔ spaced A func limit l
    ∧ (∀ c', last l = Some c' → func (snd c') = Return () → fst c' + limit ≤ fst c).
Proof.
  induction l as [|c1 l IH]; simpl.
  - split; [intros _; split; [done | intros c' H; done] | done].
  - destruct l as [|c2 l]; simpl in *.
    + split.
      * intros [H _]. split; [done |]. intros c' [= <-]. done.
      * intros [_ H]. split; [| done]. intros Hf. by apply H.
    + rewrite IH. clear IH. split.
      * intros [H1 [H2 H3]]. split; [done |]. done.
      * intros [[H1 H2] H3]. done.
Qed.

Lemma th_inv_open s : th_inv A func s → th_inThrottle A s = false → th_timers A s = [].
Proof.
  intros [_ H] Hin. destruct (last _) as [c|]; [| by destruct H].
  destruct (func (snd c)); [| by destruct H].
  destruct H as [[H _] | (_ & H & _)]; [congruence | done].
Qed.

Lemma th_inv_call a s : th_inv A func s → th_inv A func (snd (throttledFunction A func a s)).
Proof.
  intros Hinv. pose proof Hinv as [Hsp Hlast]. unfold throttledFunction.
  destruct (th_inThrottle A s) eqn:Hin; [done |].
  pose proof (th_inv_open s Hinv Hin) as Ht.
  assert (spaced A func (th_limit A s) (th_calls A s ++ [(th_now A s, a)])) as Hsp'.
  { apply spaced_snoc. split; [done |]. intros c' Hc' Hf. rewrite Hc', Hf in Hlast.
    destruct Hlast as [[H _] | (_ & _ & H)]; [congruence | done]. }
  destruct (func a) as [[]|e] eqn:Hf; simpl; (split; [done |]); simpl;
    rewrite last_snoc; simpl; rewrite Hf.
  - left. by rewrite Ht.
  - done.
Qed.

Lemma th_wait_for_calls ms s : th_calls A (th_wait_for A ms s) = th_calls A s.
Proof.
  unfold th_wait_for. simpl. generalize (th_now A s + ms) as target. intros target.
  generalize (th_timers A s) at 1 as ts. intros ts. revert s.
  induction ts as [|[due u] ts IH]; intros s; simpl; [done |].
  destruct (Nat.leb due target); [| done]. by rewrite IH.
Qed.

Lemma th_wait_for_limit ms s : th_limit A (th_wait_for A ms s) = th_limit A s.
Proof.
  unfold th_wait_for. simpl. generalize (th_now A s + ms) as target. intros target.
  generalize (th_timers A s) at 1 as ts. intros ts. revert s.
  induction ts as [|[due u] ts IH]; intros s; simpl; [done |].
  destruct (Nat.leb due target); [| done]. by rewrite IH.
Qed.

Lemma th_wait_for_idle ms s :
  th_timers A s = [] →
  th_timers A (th_wait_for A ms s) = []
  ∧ th_inThrottle A (th_wait_for A ms s) = th_inThrottle A s.
Proof. intros Ht. unfold th_wait_for. rewrite Ht. simpl. by rewrite Ht. Qed.

Lemma th_wait_for_one due ms s :
  th_timers A s = [(due, ())] →
  (due ≤ th_now A s + ms →
     th_timers A (th_wait_for A ms s) = [] ∧ th_inThrottle A (th_wait_for A ms s) = false)
  ∧ (th_now A s + ms < due →
     th_timers A (th_wait_for A ms s) = [(due, ())]
     ∧ th_inThrottle A (th_wait_for A ms s) = th_inThrottle A s).
Proof.
  intros Ht. unfold th_wait_for. rewrite Ht. simpl. split; intros H.
  - by rewrite (proj2 (Nat.leb_le _ _)) by lia.
  - rewrite (proj2 (Nat.leb_gt _ _)) by lia. simpl. by rewrite Ht.
Qed.

Lemma th_inv_wait ms s : th_inv A func s → th_inv A func (th_wait_for A ms s).
Proof.
  intros [Hsp Hlast]. unfold th_inv.
  rewrite th_wait_for_calls, th_wait_for_limit. split; [done |].
  change (th_now A (th_wait_for A ms s)) with (th_now A s + ms).
  assert (th_timers A s = [] →
          th_inThrottle A (th_wait_for A ms s) = th_inThrottle A s
          ∧ th_timers A (th_wait_for A ms s) = []) as Hidle.
  { intros Ht. by destruct (th_wait_for_idle ms s Ht). }
  destruct (last (th_calls A s)) as [c|].
  - destruct (func (snd c)).
    + destruct Hlast as [[Hin Ht] | (Hin & Ht & Hle)].
      * destruct (th_wait_for_one _ ms s Ht) as [Hlate Hearly].
        destruct (decide (fst c + th_limit A s ≤ th_now A s + ms)) as [Hd|Hd].
        -- destruct (Hlate Hd) as [-> ->]. right. done.
        -- destruct Hearly as [-> ->]; [lia |]. left. done.
      * destruct (Hidle Ht) as [-> ->]. right. split_and!; [done | done | lia].
    + destruct Hlast as [Hin Ht]. destruct (Hidle Ht) as [-> ->]. done.
  - destruct Hlast as [Hin Ht]. destruct (Hidle Ht) as [-> ->]. done.
Qed.

Lemma th_reachable_inv s : th_reachable A func s → th_inv A func s.
Proof.
  induction 1; [done | by apply th_inv_call | by apply th_inv_wait].
Qed.



End Throttle.



End TimingFacts.


(** ** The validators *)

Module ValidationFacts.
Import Validation.
#[local] Open Scope list_scope.
#[local] Open Scope nat_scope.

(** *** The matcher decides the language of a pattern *)

Lemma matches_nil_nullable r : matches r [] → nullable r = true.
Proof.
  intros H. remember [] as s eqn:Hs. induction H; simpl; try done.
  - apply app_eq_nil in Hs as [-> ->]. by rewrite IHmatches1, IHmatches2.
  - by rewrite IHmatches.
  - rewrite IHmatches by done. by rewrite orb_true_r.
Qed.

Lemma nullable_matches_nil r : nullable r = true → matches r [].
Proof.
  induction r; simpl; intros H; try done.
  - constructor.
  - apply andb_true_iff in H as [H1 H2]. apply (m_seq _ _ [] []); auto.
  - apply orb_true_iff in H as [H|H]; [apply m_alt_l | apply m_alt_r]; auto.
  - constructor.
Qed.

Lemma deriv_sound c r s : matches (deriv c r) s → matches r (c :: s).
Proof.
  revert s. induction r as [| |p|a IHa b IHb|a IHa b IHb|a IHa]; simpl; intros s H.
  - inversion H.
  - inversion H.
  - destruct (p c) eqn:Hp; inversion H; subst. by constructor.
  - destruct (nullable a) eqn:Hn.
    + inversion H as [| | | ? ? ? H1 | ? ? ? H1 | |]; subst.
      * inversion H1; subst. apply (m_seq a b (c :: _) _); auto.
      * apply (m_seq a b [] (c :: s)); [by apply nullable_matches_nil | auto].
    + inversion H; subst. apply (m_seq a b (c :: _) _); auto.
  - inversion H; subst; [apply m_alt_l | apply m_alt_r]; auto.
  - inversion H; subst. apply (m_star_app a (c :: _) _); auto.
Qed.

Lemma deriv_complete c r s : matches r (c :: s) → matches (deriv c r) s.
Proof.
  intros H. remember (c :: s) as l eqn:Hl. revert s Hl.
  induction H as [|p c' Hp|a b s1 s2 H1 IH1 H2 IH2|a b s' H1 IH1|a b s' H1 IH1
                  |a|a s1 s2 H1 IH1 H2 IH2]; intros s Hl; simpl; try done.
  - injection Hl as -> <-. rewrite Hp. constructor.
  - destruct s1 as [|c1 s1]; simpl in Hl.
    + subst s2. rewrite (matches_nil_nullable a H1). apply m_alt_r. by apply IH2.
    + injection Hl as -> <-.
      assert (matches (Seq (deriv c a) b) (s1 ++ s2)) by (constructor; auto).
      destruct (nullable a); [by apply m_alt_l | done].
  - apply m_alt_l. by apply IH1.
  - apply m_alt_r. by apply IH1.
  - destruct s1 as [|c1 s1]; simpl in Hl.
    + by apply IH2.
    + injection Hl as -> <-. constructor; auto.
Qed.

Lemma test_matches r s : test r s = true ↔ matches r s.
Proof.
  revert r. induction s as [|c s IH]; intros r; simpl.
  - split; [apply nullable_matches_nil | apply matches_nil_nullable].
  - rewrite IH. split; [apply deriv_sound | apply deriv_complete].
Qed.

(** *** What the combinators match *)

Lemma matches_Empty s : matches Empty s ↔ s = [].
Proof. split; [by inversion 1 | intros ->; constructor]. Qed.

Lemma matches_Class p s : matches (Class p) s ↔ ∃ c, s = [c] ∧ p c = true.
Proof.
  split; [inversion 1; eauto | intros (c & -> & Hp); by constructor].
Qed.

Lemma matches_chr c s : matches (chr c) s ↔ s = [c].
Proof.
  unfold chr. rewrite matches_Class. split.
  - intros (c' & -> & H%N.eqb_eq). by subst.
  - intros ->. exists c. split; [done | apply N.eqb_refl].
Qed.

Lemma matches_Seq a b s :
  matches (Seq a b) s ↔ ∃ s1 s2, s = s1 ++ s2 ∧ matches a s1 ∧ matches b s2.
Proof.
  split; [inversion 1; subst; eauto | intros (s1 & s2 & -> & H1 & H2); by constructor].
Qed.

Lemma matches_opt r s : matches (opt r) s ↔ s = [] ∨ matches r s.
Proof.
  unfold opt. split.
  - inversion 1 as [| | |? ? ? H1|? ? ? H1| |]; subst; [left; by inversion H1 | by right].
  - intros [-> | H]; [apply m_alt_l; constructor | by apply m_alt_r].
Qed.

Lemma matches_star_class p s :
  matches (Star (Class p)) s ↔ Forall (λ c, p c = true) s.
Proof.
  split.
  - intros H. remember (Star (Class p)) as r eqn:Hr.
    induction H as [| | | | | |a s1 s2 H1 _ H2 IH2]; try done.
    injection Hr as ->. inversion H1; subst. constructor; auto.
  - induction 1 as [|c s Hc _ IH]; [constructor |].
    apply (m_star_app _ [c] s); [by constructor | done].
Qed.

Lemma matches_plus_class p s :
  matches (plus (Class p)) s ↔ s ≠ [] ∧ Forall (λ c, p c = true) s.
Proof.
  unfold plus. rewrite matches_Seq. split.
  - intros (s1 & s2 & -> & (c & -> & Hc)%matches_Class & H2%matches_star_class).
    split; [done | by constructor].
  - intros [Hne H]. destruct H as [|c s Hc H]; [done |].
    exists [c], s. split_and!; [done | by constructor | by apply matches_star_class].
Qed.

Lemma matches_times_class p n s :
  matches (times n (Class p)) s ↔ length s = n ∧ Forall (λ c, p c = true) s.
Proof.
  revert s. induction n as [|n IH]; intros s; simpl.
  - rewrite matches_Empty. split; [intros ->; by split | intros [->%nil_length_inv _]; done].
  - rewrite matches_Seq. split.
    + intros (s1 & s2 & -> & (c & -> & Hc)%matches_Class & [Hl H2]%IH).
      split; [simpl; lia | by constructor].
    + intros [Hl H]. destruct H as [|c s Hc H]; [done |].
      exists [c], s. split_and!; [done | by constructor |].
      apply IH. split; [simpl in Hl; lia | done].
Qed.

Lemma matches_upto_class p n s :
  matches (upto n (Class p)) s ↔ length s ≤ n ∧ Forall (λ c, p c = true) s.
Proof.
  revert s. induction n as [|n IH]; intros s; simpl.
  - rewrite matches_Empty. split.
    + intros ->. by split.
    + intros [Hl _]. apply nil_length_inv. lia.
  - rewrite matches_opt, matches_Seq. split.
    + intros [-> | (s1 & s2 & -> & (c & -> & Hc)%matches_Class & [Hl H2]%IH)].
      * split; [simpl; lia | constructor].
      * split; [simpl; lia | by constructor].
    + intros [Hl H]. destruct H as [|c s Hc H]; [by left |]. right.
      exists [c], s. split_and!; [done | by constructor |].
      apply IH. split; [simpl in Hl; lia | done].
Qed.

Lemma matches_between_class p n m s :
  n ≤ m →
  matches (between n m (Class p)) s
  ↔ n ≤ length s ≤ m ∧ Forall (λ c, p c = true) s.
Proof.
  intros Hnm. unfold between. rewrite matches_Seq. split.
  - intros (s1 & s2 & -> & [Hl1 H1]%matches_times_class & [Hl2 H2]%matches_upto_class).
    rewrite length_app. split; [lia | by apply Forall_app].
  - intros [Hl H]. exists (take n s), (drop n s).
    rewrite take_drop. split_and!; [done | |].
    + apply matches_times_class. split; [rewrite length_take; lia | by apply Forall_take].
    + apply matches_upto_class. split; [rewrite length_drop; lia | by apply Forall_drop].
Qed.

Lemma matches_sequence_cons r rs s :
  matches (sequence (r :: rs)) s
  ↔ ∃ s1 s2, s = s1 ++ s2 ∧ matches r s1 ∧ matches (sequence rs) s2.
Proof. apply matches_Seq. Qed.

Lemma matches_sequence_nil s : matches (sequence []) s ↔ s = [].
Proof. apply matches_Empty. Qed.

(** *** The email validator *)

Lemma isValidEmail_parts (email : list N) :
  isValidEmail email = true →
  ∃ a b c, email = a ++ at_sign :: b ++ dot :: c
           ∧ plain_part a ∧ plain_part b ∧ plain_part c.
Proof.
  unfold isValidEmail, emailRegex. rewrite test_matches.
  intros (a & r1 & -> & Ha%matches_plus_class & H)%matches_sequence_cons.
  apply matches_sequence_cons in H as (x & r2 & -> & ->%matches_chr & H).
  apply matches_sequence_cons in H as (b & r3 & -> & Hb%matches_plus_class & H).
  apply matches_sequence_cons in H as (y & r4 & -> & ->%matches_chr & H).
  apply matches_sequence_cons in H as (c & r5 & -> & Hc%matches_plus_class & ->%matches_sequence_nil).
  exists a, b, c. rewrite app_nil_r. done.
Qed.

Lemma isValidEmail_of_parts (a b c : list N) :
  plain_part a → plain_part b → plain_part c →
  isValidEmail (a ++ at_sign :: b ++ dot :: c) = true.
Proof.
  intros Ha Hb Hc. unfold isValidEmail, emailRegex. rewrite test_matches.
  apply matches_sequence_cons. exists a, (at_sign :: b ++ dot :: c).
  split_and!; [done | by apply matches_plus_class |].
  apply matches_sequence_cons. exists [at_sign], (b ++ dot :: c).
  split_and!; [done | by apply matches_chr |].
  apply matches_sequence_cons. exists b, (dot :: c).
  split_and!; [done | by apply matches_plus_class |].
  apply matches_sequence_cons. exists [dot], c.
  split_and!; [done | by apply matches_chr |].
  apply matches_sequence_cons. exists c, [].
  split_and!; [by rewrite app_nil_r | by apply matches_plus_class | by apply matches_sequence_nil].
Qed.

(** X26: [isValidEmail] accepts a string exactly when it reads [a@b.c]
    with three non-empty parts that hold no white space and no at-sign
    (the last dot that is followed by such a part may be any dot of the
    string: [b] and [c] may hold dots themselves). *)
Theorem isValidEmail_spec (email : list N) :
  isValidEmail email = true
  ↔ ∃ a b c, email = a ++ at_sign :: b ++ dot :: c
             ∧ plain_part a ∧ plain_part b ∧ plain_part c.
Proof.
  split; [apply isValidEmail_parts |].
  intros (a & b & c & -> & Ha & Hb & Hc). by apply isValidEmail_of_parts.
Qed.

Lemma plain_no_space c : plain c = true → is_space c = false ∧ c ≠ at_sign.
Proof.
  unfold plain. intros [H1 H2]%andb_true_iff.
  apply negb_true_iff in H1, H2. split; [done |]. by apply N.eqb_neq.
Qed.

Lemma plain_part_facts s :
  plain_part s →
  1 ≤ length s ∧ Forall (λ c, is_space c = false) s
  ∧ filter (λ c, c = at_sign) s = [].
Proof.
  intros [Hne H]. split_and!.
  - destruct s; [done | simpl; lia].
  - eapply Forall_impl; [exact H |]. intros c Hc. by apply plain_no_space.
  - clear Hne. induction H as [|c s Hc _ IH]; [done |].
    rewrite filter_cons_False; [done |]. by apply plain_no_space.
Qed.

(** X27: every string [isValidEmail] accepts has no white space anywhere,
    exactly one at-sign, and at least five code units. *)
Theorem isValidEmail_necessary (email : list N) :
  isValidEmail email = true →
  Forall (λ c, is_space c = false) email
  ∧ length (filter (λ c, c = at_sign) email) = 1
  ∧ 5 ≤ length email.
Proof.
  intros (a & b & c & -> & Ha & Hb & Hc)%isValidEmail_parts.
  destruct (plain_part_facts a Ha) as (La & Sa & Fa).
  destruct (plain_part_facts b Hb) as (Lb & Sb & Fb).
  destruct (plain_part_facts c Hc) as (Lc & Sc & Fc).
  split_and!.
  - apply Forall_app. split; [done |]. constructor; [done |].
    apply Forall_app. split; [done |]. constructor; [done | done].
  - rewrite filter_app, filter_cons_True by done.
    rewrite filter_app, filter_cons_False by done. rewrite Fa, Fb, Fc. done.
  - rewrite length_app. simpl. rewrite length_app. simpl. lia.
Qed.

Lemma isValidEmail_necessary_witness :
  Forall (λ c, is_space c = false) (units "a@b.com")
  ∧ length (filter (λ c, c = at_sign) (units "a@b.com")) = 1
  ∧ 5 ≤ length (units "a@b.com").
Proof. apply (isValidEmail_necessary (units "a@b.com")). reflexivity. Defined.

(** *** The phone validator *)

Lemma phone_patterns :
  (∀ c s, matches (opt (chr c)) s ↔ optional c s)
  ∧ (∀ s, matches (opt (Class is_separator)) s ↔ optional_separator s)
  ∧ (∀ s, matches (times 3 (Class is_digit)) s ↔ digits 3 3 s)
  ∧ (∀ s, matches (between 4 6 (Class is_digit)) s ↔ digits 4 6 s).
Proof.
  split_and!.
  - intros c s. rewrite matches_opt, matches_chr. done.
  - intros s. rewrite matches_opt, matches_Class. done.
  - intros s. rewrite matches_times_class. unfold digits.
    split; intros [? ?]; split; (lia || done).
  - intros s. rewrite matches_between_class by lia. done.
Qed.

Lemma isValidPhone_parts (phone : list N) :
  isValidPhone phone = true →
  ∃ sign lpar d1 rpar sep1 d2 sep2 d3,
    phone = sign ++ lpar ++ d1 ++ rpar ++ sep1 ++ d2 ++ sep2 ++ d3
    ∧ optional 43 sign ∧ optional 40 lpar ∧ digits 3 3 d1 ∧ optional 41 rpar
    ∧ optional_separator sep1 ∧ digits 3 3 d2
    ∧ optional_separator sep2 ∧ digits 4 6 d3.
Proof.
  unfold isValidPhone, phoneRegex. rewrite test_matches.
  destruct phone_patterns as (Hopt & Hsep & Hd3 & Hd46).
  intros (sign & r1 & -> & H1%Hopt & H)%matches_sequence_cons.
  apply matches_sequence_cons in H as (lpar & r2 & -> & H2%Hopt & H).
  apply matches_sequence_cons in H as (d1 & r3 & -> & H3%Hd3 & H).
  apply matches_sequence_cons in H as (rpar & r4 & -> & H4%Hopt & H).
  apply matches_sequence_cons in H as (sep1 & r5 & -> & H5%Hsep & H).
  apply matches_sequence_cons in H as (d2 & r6 & -> & H6%Hd3 & H).
  apply matches_sequence_cons in H as (sep2 & r7 & -> & H7%Hsep & H).
  apply matches_sequence_cons in H as (d3 & r8 & -> & H8%Hd46 & ->%matches_sequence_nil).
  exists sign, lpar, d1, rpar, sep1, d2, sep2, d3. rewrite app_nil_r. done.
Qed.

Lemma isValidPhone_of_parts (sign lpar d1 rpar sep1 d2 sep2 d3 : list N) :
  optional 43 sign → optional 40 lpar → digits 3 3 d1 → optional 41 rpar →
  optional_separator sep1 → digits 3 3 d2 → optional_separator sep2 → digits 4 6 d3 →
  isValidPhone (sign ++ lpar ++ d1 ++ rpar ++ sep1 ++ d2 ++ sep2 ++ d3) = true.
Proof.
  intros H1 H2 H3 H4 H5 H6 H7 H8.
  unfold isValidPhone, phoneRegex. rewrite test_matches.
  destruct phone_patterns as (Hopt & Hsep & Hd3 & Hd46).
  repeat (apply matches_sequence_cons; eexists _, _; split; [reflexivity |];
          split; [first [by apply Hopt | by apply Hsep | by apply Hd3 | by apply Hd46] |]).
  rewrite <- (app_nil_r d3) at 1.
  apply matches_sequence_cons. exists d3, [].
  split_and!; [done | by apply Hd46 | by apply matches_sequence_nil].
Qed.

(** X28: [isValidPhone] accepts a string exactly when it reads: an
    optional plus sign, an optional opening parenthesis, three digits, an
    optional closing parenthesis, an optional separator (hyphen, white
    space or dot), three digits, an optional separator, four to six
    digits. *)
Theorem isValidPhone_spec (phone : list N) :
  isValidPhone phone = true
  ↔ ∃ sign lpar d1 rpar sep1 d2 sep2 d3,
      phone = sign ++ lpar ++ d1 ++ rpar ++ sep1 ++ d2 ++ sep2 ++ d3
      ∧ optional 43 sign ∧ optional 40 lpar ∧ digits 3 3 d1 ∧ optional 41 rpar
      ∧ optional_separator sep1 ∧ digits 3 3 d2
      ∧ optional_separator sep2 ∧ digits 4 6 d3.
Proof.
  split; [apply isValidPhone_parts |].
  intros (sign & lpar & d1 & rpar & sep1 & d2 & sep2 & d3 & -> & H1 & H2 & H3
          & H4 & H5 & H6 & H7 & H8).
  by apply isValidPhone_of_parts.
Qed.

Lemma separator_not_digit c : is_separator c = true → is_digit c = false.
Proof.
  intros H. destruct (is_digit c) eqn:Hd; [exfalso | done].
  unfold is_digit in Hd. apply andb_true_iff in Hd as [H1%N.leb_le H2%N.leb_le].
  unfold is_separator, is_space in H.
  repeat (apply orb_true_iff in H as [H|H]).
  - apply N.eqb_eq in H. lia.
  - apply bool_decide_eq_true in H.
    repeat (apply elem_of_cons in H as [->|H]; [lia |]). by apply elem_of_nil in H.
  - apply andb_true_iff in H as [H3%N.leb_le H4%N.leb_le]. lia.
  - apply N.eqb_eq in H. unfold dot in H. lia.
Qed.

Lemma count_digits_app s1 s2 : count_digits (s1 ++ s2) = count_digits s1 + count_digits s2.
Proof. unfold count_digits. by rewrite filter_app, length_app. Qed.

Lemma count_digits_digits n m s : digits n m s → count_digits s = length s.
Proof.
  intros [_ H]. unfold count_digits. induction H as [|c s Hc _ IH]; [done |].
  rewrite filter_cons_True by done. simpl. by rewrite IH.
Qed.

Lemma count_digits_optional c s :
  is_digit c = false → optional c s → count_digits s = 0 ∧ length s ≤ 1.
Proof.
  intros Hc [-> | ->]; [split; [done | simpl; lia] |]. unfold count_digits.
  rewrite filter_cons_False by congruence. split; [done | simpl; lia].
Qed.

Lemma count_digits_separator s :
  optional_separator s → count_digits s = 0 ∧ length s ≤ 1.
Proof.
  intros [-> | (c & -> & Hc%separator_not_digit)]; [split; [done | simpl; lia] |].
  unfold count_digits.
  rewrite filter_cons_False by congruence. split; [done | simpl; lia].
Qed.

(** X29: every string [isValidPhone] accepts has ten to twelve digits,
    and besides them at most five other characters. *)
Theorem isValidPhone_necessary (phone : list N) :
  isValidPhone phone = true →
  10 ≤ count_digits phone ≤ 12
  ∧ length phone ≤ count_digits phone + 5.
Proof.
  intros (sign & lpar & d1 & rpar & sep1 & d2 & sep2 & d3 & -> & H1 & H2 & H3
          & H4 & H5 & H6 & H7 & H8)%isValidPhone_parts.
  rewrite !count_digits_app, !length_app.
  destruct (count_digits_optional 43 sign eq_refl H1) as [-> ?].
  destruct (count_digits_optional 40 lpar eq_refl H2) as [-> ?].
  destruct (count_digits_optional 41 rpar eq_refl H4) as [-> ?].
  destruct (count_digits_separator sep1 H5) as [-> ?].
  destruct (count_digits_separator sep2 H7) as [-> ?].
  rewrite (count_digits_digits _ _ d1 H3), (count_digits_digits _ _ d2 H6),
    (count_digits_digits _ _ d3 H8).
  destruct H3 as [? _], H6 as [? _], H8 as [? _]. lia.
Qed.

Lemma isValidPhone_necessary_witness :
  10 ≤ count_digits (units "123-456-7890") ≤ 12
  ∧ length (units "123-456-7890") ≤ count_digits (units "123-456-7890") + 5.
Proof. apply (isValidPhone_necessary (units "123-456-7890")). reflexivity. Defined.

(** X30: the two parentheses are optional one by one: [isValidPhone]
    accepts a number with only the opening parenthesis, and one with only
    the closing parenthesis. *)
Theorem isValidPhone_unmatched_parentheses (d1 d2 d3 : list N) :
  digits 3 3 d1 → digits 3 3 d2 → digits 4 6 d3 →
  isValidPhone (40%N :: d1 ++ d2 ++ d3) = true
  ∧ isValidPhone (d1 ++ 41%N :: d2 ++ d3) = true.
Proof.
  intros H1 H2 H3. split.
  - apply (isValidPhone_of_parts [] [40%N] d1 [] [] d2 [] d3);
      try done; try (by left); by right.
  - apply (isValidPhone_of_parts [] [] d1 [41%N] [] d2 [] d3);
      try done; try (by left); by right.
Qed.

Lemma isValidPhone_unmatched_parentheses_witness :
  isValidPhone (units "(1234567890") = true
  ∧ isValidPhone (units "123)4567890") = true.
Proof.
  apply (isValidPhone_unmatched_parentheses (units "123") (units "456") (units "7890"));
    (split; [simpl; lia | repeat constructor]).
Defined.
End ValidationFacts.
